(** * HexDmp: the argument-parsing library (src/args.c)

    A shallow embedding of the library's containers (Vec, Map), its option
    slots, the argument stream and the recursive parser, followed by the
    properties the specification states about them.

    Conventions of the embedding.
    - C [int] and [size_t] values are [Z]; the 32-bit hash is a [Z] reduced
      modulo 2^32 after every multiplication.  Counters and capacities are
      not reduced: signed overflow is undefined in C and is out of reach
      below 2^29 stored entries.
    - A C string is a [string]; [argv] strings hold no NUL character.
    - A heap object reached through a pointer is addressed by its index in
      the Vec that owns it: an [Option] by its index in [option_vec], a child
      parser by its index in [command_vec].  The maps store these indices
      where the C code stores the pointers.
    - [malloc] never fails.
    - [exit] and undefined behaviour are outcomes of a computation, see
      [Outcome]. *)

From Stdlib Require Import ZArith String Ascii Bool Lia.
From Stdlib Require Import Floats.PrimFloat.
From stdpp Require Import base tactics option list strings.

Local Open Scope string_scope.
Local Open Scope list_scope.
Local Open Scope Z_scope.

(** ** Utility functions *)

(** The value of a [char] read as [uint8_t]. *)
Definition byte_of (c : ascii) : Z := Z.of_N (N_of_ascii c).

Definition u32 (z : Z) : Z := z mod 2 ^ 32.

(** [str_hash]: FNV-1a over the bytes of the string. *)
Fixpoint str_hash_from (hash : Z) (s : string) : Z :=
  match s with
  | EmptyString => hash
  | String c s' => str_hash_from (u32 (Z.lxor hash (byte_of c) * 16777619)) s'
  end.

Definition str_hash (s : string) : Z := str_hash_from 2166136261 s.

(** How a run of the library ends: a normal return, [err] (a message on
    stderr and [exit(1)]), the help and version paths ([puts] of an optional
    text and [exit(0)]), undefined behaviour of the C program, or a model
    that ran out of steps. *)
Inductive Outcome (A : Type) : Type :=
  | Ok (a : A)
  | Fatal (msg : string)
  | Exit0 (out : option string)
  | Undefined
  | OutOfFuel.

Arguments Ok {A} a.
Arguments Fatal {A} msg.
Arguments Exit0 {A} out.
Arguments Undefined {A}.
Arguments OutOfFuel {A}.

Definition obind {A B} (m : Outcome A) (f : A -> Outcome B) : Outcome B :=
  match m with
  | Ok a => f a
  | Fatal msg => Fatal msg
  | Exit0 out => Exit0 out
  | Undefined => Undefined
  | OutOfFuel => OutOfFuel
  end.

Notation "'do' x <- m ; k" := (obind m (fun x => k))
  (at level 10, x pattern, m at level 100, k at level 200).

(** [err(str(...))]. *)
Definition err {A} (msg : string) : Outcome A := Fatal msg.

(** ** Vec: a dynamic array of pointers *)

(** A cell of a C array: [None] is a cell that was never written. *)
Record Vec (A : Type) : Type := mkVec {
  vec_count : Z;
  vec_capacity : Z;
  vec_entries : list (option A)
}.

Arguments mkVec {A} _ _ _.
Arguments vec_count {A} _.
Arguments vec_capacity {A} _.
Arguments vec_entries {A} _.

(** [realloc] to [n] cells: the old cells are kept, the new ones are not
    initialised. *)
Definition realloc {A} (cells : list (option A)) (n : Z) : list (option A) :=
  take (Z.to_nat n) cells ++ replicate (Z.to_nat n - length cells) None.

Definition vec_new {A} : Vec A := mkVec 0 0 [].

Definition vec_add {A} (vec : Vec A) (entry : A) : Vec A :=
  let vec1 :=
    if vec_count vec + 1 >? vec_capacity vec then
      let capacity :=
        if vec_capacity vec <? 8 then 8 else vec_capacity vec * 2 in
      mkVec (vec_count vec) capacity (realloc (vec_entries vec) capacity)
    else vec in
  mkVec (vec_count vec1 + 1) (vec_capacity vec1)
        (<[Z.to_nat (vec_count vec1) := Some entry]> (vec_entries vec1)).

(** [vec->entries[i]]; [None] outside the array or on a cell never written. *)
Definition vec_at {A} (vec : Vec A) (i : Z) : option A :=
  if i <? 0 then None else mjoin (vec_entries vec !! Z.to_nat i).

(** [vec->entries[i] = x]. *)
Definition vec_store {A} (vec : Vec A) (i : Z) (x : A) : Vec A :=
  mkVec (vec_count vec) (vec_capacity vec)
        (<[Z.to_nat i := Some x]> (vec_entries vec)).

(** The cells [0 .. count-1], the contents of the array. *)
Definition vec_cells {A} (vec : Vec A) : list (option A) :=
  take (Z.to_nat (vec_count vec)) (vec_entries vec).

(** ** Map: a linear-probing hash map with string keys and pointer values *)

Record MapEntry (V : Type) : Type := mkMapEntry {
  key : string;
  value : V;
  key_hash : Z
}.

Arguments mkMapEntry {V} _ _ _.
Arguments key {V} _.
Arguments value {V} _.
Arguments key_hash {V} _.

(** A slot is [None] when [entry->key == NULL]. *)
Record Map (V : Type) : Type := mkMap {
  map_count : Z;
  map_capacity : Z;
  max_load_threshold : Z;
  map_entries : list (option (MapEntry V))
}.

Arguments mkMap {V} _ _ _ _.
Arguments map_count {V} _.
Arguments map_capacity {V} _.
Arguments max_load_threshold {V} _.
Arguments map_entries {V} _.

Definition map_new {V} : Map V := mkMap 0 0 0 [].

(** The [for (;;)] loop of [map_find].  It visits [capacity] slots before it
    is back where it started, so [capacity] steps without a result mean that
    the C loop never returns.  The result is the index of the slot. *)
Fixpoint map_find_loop {V} (entries : list (option (MapEntry V)))
    (capacity : Z) (k : string) (h : Z) (fuel : nat) (index : Z) : option Z :=
  match fuel with
  | O => None
  | S fuel' =>
      match entries !! Z.to_nat index with
      | None => None
      | Some None => Some index
      | Some (Some entry) =>
          if (h =? key_hash entry) && String.eqb k (key entry) then Some index
          else map_find_loop entries capacity k h fuel'
                 (Z.land (index + 1) (capacity - 1))
      end
  end.

Definition map_find {V} (map : Map V) (k : string) (h : Z) : option Z :=
  map_find_loop (map_entries map) (map_capacity map) k h
    (Z.to_nat (map_capacity map)) (Z.land h (map_capacity map - 1)).

(** One round of the copying loop of [map_grow]. *)
Definition map_grow_step {V} (map : Map V) (src : option (MapEntry V)) : Map V :=
  match src with
  | None => map
  | Some e =>
      match map_find map (key e) (key_hash e) with
      | Some dst =>
          mkMap (map_count map + 1) (map_capacity map) (max_load_threshold map)
                (<[Z.to_nat dst := Some e]> (map_entries map))
      | None => map
      end
  end.

(** [new_capacity * MAP_MAX_LOAD] is a [double] converted to [int]: half of
    the capacity, truncated. *)
Definition map_grow {V} (map : Map V) : Map V :=
  let old_entries := map_entries map in
  let old_capacity := map_capacity map in
  let new_capacity := if old_capacity <? 8 then 8 else old_capacity * 2 in
  let map0 :=
    mkMap 0 new_capacity (Z.quot new_capacity 2)
          (replicate (Z.to_nat new_capacity) None) in
  fold_left map_grow_step (take (Z.to_nat old_capacity) old_entries) map0.

(** [map_get]: [None] is the [false] return. *)
Definition map_get {V} (map : Map V) (k : string) : option V :=
  if map_count map =? 0 then None
  else
    match map_find map k (str_hash k) with
    | Some i =>
        match map_entries map !! Z.to_nat i with
        | Some (Some entry) => Some (value entry)
        | _ => None
        end
    | None => None
    end.

Definition map_set {V} (map : Map V) (k : string) (v : V) : Map V :=
  let map :=
    if map_count map =? max_load_threshold map then map_grow map else map in
  let h := str_hash k in
  match map_find map k h with
  | Some i =>
      match map_entries map !! Z.to_nat i with
      | Some None =>
          mkMap (map_count map + 1) (map_capacity map) (max_load_threshold map)
                (<[Z.to_nat i := Some (mkMapEntry k v h)]> (map_entries map))
      | Some (Some entry) =>
          mkMap (map_count map) (map_capacity map) (max_load_threshold map)
                (<[Z.to_nat i := Some (mkMapEntry (key entry) v (key_hash entry))]>
                   (map_entries map))
      | None => map
      end
  | None => map
  end.

(** [strtok_r(keys, " ")]: the maximal runs of characters other than the
    space; [word] is the run being read. *)
Fixpoint strtok_from (word : string) (s : string) : list string :=
  match s with
  | EmptyString => if String.eqb word "" then [] else [word]
  | String c s' =>
      if Ascii.eqb c " "%char then
        (if String.eqb word "" then strtok_from "" s'
         else word :: strtok_from "" s')
      else strtok_from (String.append word (String c "")) s'
  end.

Definition strtok (s : string) : list string := strtok_from "" s.

Definition map_set_splitkey {V} (map : Map V) (keys : string) (v : V) : Map V :=
  fold_left (fun m k => map_set m k v) (strtok keys) map.

(** ** Strings and numeric conversion *)

(** [s + n]: the string from its [n]-th character on. *)
Fixpoint str_offset (s : string) (n : nat) : string :=
  match n, s with
  | S n', String _ s' => str_offset s' n'
  | _, _ => s
  end.

(** [s[n]]; the terminating NUL at the end of the string. *)
Definition char_at (s : string) (n : nat) : ascii :=
  match String.get n s with
  | Some c => c
  | None => Ascii.zero
  end.

(** [strstr(s, "=") != NULL]. *)
Fixpoint has_equals (s : string) : bool :=
  match s with
  | EmptyString => false
  | String c s' => Ascii.eqb c "="%char || has_equals s'
  end.

(** The text before the first ['='] and the text after it: what
    [*strchr(name, '=') = '\0'] and [strchr(arg, '=') + 1] leave.  [None] when
    there is no ['='], where [strchr] returns NULL. *)
Fixpoint split_equals (s : string) : option (string * string) :=
  match s with
  | EmptyString => None
  | String c s' =>
      if Ascii.eqb c "="%char then Some (EmptyString, s')
      else
        match split_equals s' with
        | Some (name, v) => Some (String c name, v)
        | None => None
        end
  end.

(** [isdigit] and [isspace] in the C locale. *)
Definition isdigit (c : ascii) : bool :=
  (48 <=? byte_of c) && (byte_of c <=? 57).

Definition isspace (c : ascii) : bool :=
  (byte_of c =? 32) || ((9 <=? byte_of c) && (byte_of c <=? 13)).

Definition INT_MAX : Z := 2147483647.
Definition INT_MIN : Z := -2147483648.
(** [long] has 64 bits (LP64). *)
Definition LONG_MAX : Z := 9223372036854775807.
Definition LONG_MIN : Z := -9223372036854775808.

(** The value of a character as a digit of [strtol], in any base up to 36. *)
Definition digit_of (c : ascii) : option Z :=
  let b := byte_of c in
  if (48 <=? b) && (b <=? 57) then Some (b - 48)
  else if (97 <=? b) && (b <=? 122) then Some (b - 87)
  else if (65 <=? b) && (b <=? 90) then Some (b - 55)
  else None.

Definition is_digit_in (base : Z) (c : ascii) : bool :=
  match digit_of c with
  | Some d => d <? base
  | None => false
  end.

Definition starts_with_digit (base : Z) (s : string) : bool :=
  match s with
  | String c _ => is_digit_in base c
  | EmptyString => false
  end.

Fixpoint skip_spaces (s : string) : string :=
  match s with
  | String c s' => if isspace c then skip_spaces s' else s
  | EmptyString => s
  end.

(** The longest run of digits of the base, its value and what follows it. *)
Fixpoint strtol_digits (base acc : Z) (s : string) : Z * string :=
  match s with
  | String c s' =>
      match digit_of c with
      | Some d =>
          if d <? base then strtol_digits base (acc * base + d) s' else (acc, s)
      | None => (acc, s)
      end
  | EmptyString => (acc, s)
  end.

(** [strtol(nptr, &endptr, 0)]: the result, [endptr] and whether [errno] is
    [ERANGE].  White space, an optional sign, then a hexadecimal number after
    [0x] or [0X], an octal number after [0], a decimal number otherwise.  With
    no digits there is no conversion: the result is 0 and [endptr] is [nptr]. *)
Definition strtol (nptr : string) : Z * string * bool :=
  let s := skip_spaces nptr in
  let '(negative, s) :=
    match s with
    | String "-" s' => (true, s')
    | String "+" s' => (false, s')
    | _ => (false, s)
    end in
  let '(base, s) :=
    match s with
    | String "0" (String x s') =>
        if (Ascii.eqb x "x" || Ascii.eqb x "X") && starts_with_digit 16 s'
        then (16, s') else (8, s)
    | String "0" EmptyString => (8, s)
    | _ => (10, s)
    end in
  if starts_with_digit base s then
    let '(magnitude, rest) := strtol_digits base 0 s in
    let v := if negative : bool then - magnitude else magnitude in
    if v >? LONG_MAX then (LONG_MAX, rest, true)
    else if v <? LONG_MIN then (LONG_MIN, rest, true)
    else (v, rest, false)
  else (0, nptr, false).

Definition str_is_empty (s : string) : bool :=
  match s with EmptyString => true | _ => false end.

Definition try_str_to_int (s : string) : Outcome Z :=
  let '(result, endptr, erange) := strtol s in
  if erange || (result >? INT_MAX) || (result <? INT_MIN) then
    err ("'" ++ s ++ "' is out of range")%string
  else if negb (str_is_empty endptr) then
    err ("cannot parse '" ++ s ++ "' as an integer")%string
  else Ok result.

(** ** Options *)

Inductive OptionType : Type := OPT_FLAG | OPT_STR | OPT_INT | OPT_DBL.

(** The union [OptionValue] with the member that was written last. *)
Inductive OptionValue : Type :=
  | str_val (s : string)
  | int_val (i : Z)
  | dbl_val (d : float).

(** [values] has [capacity] cells; a cell or a fallback that was never
    written is [None]. *)
Record Option : Type := mkOption {
  opt_type : OptionType;
  opt_count : Z;
  opt_capacity : Z;
  opt_values : list (option OptionValue);
  opt_fallback : option OptionValue
}.

Definition OptionType_eqb (a b : OptionType) : bool :=
  match a, b with
  | OPT_FLAG, OPT_FLAG | OPT_STR, OPT_STR | OPT_INT, OPT_INT | OPT_DBL, OPT_DBL => true
  | _, _ => false
  end.

Definition option_append_value (opt : Option) (v : OptionValue) : Option :=
  let '(capacity, values) :=
    if opt_count opt + 1 >? opt_capacity opt then
      let capacity :=
        if opt_capacity opt <? 4 then 4 else opt_capacity opt * 2 in
      (capacity, realloc (opt_values opt) capacity)
    else (opt_capacity opt, opt_values opt) in
  mkOption (opt_type opt) (opt_count opt + 1) capacity
           (<[Z.to_nat (opt_count opt) := Some v]> values) (opt_fallback opt).

Definition option_new (type : OptionType) (fallback : option OptionValue) : Option :=
  mkOption type 0 0 [] fallback.

Definition option_new_flag : Option := option_new OPT_FLAG None.
Definition option_new_str (fallback : string) : Option :=
  option_new OPT_STR (Some (str_val fallback)).
Definition option_new_int (fallback : Z) : Option :=
  option_new OPT_INT (Some (int_val fallback)).
Definition option_new_double (fallback : float) : Option :=
  option_new OPT_DBL (Some (dbl_val fallback)).

(** Reading a member of the union.  Reading a cell that was never written,
    or a member other than the one written, has no defined result. *)
Definition read_str_val (c : option OptionValue) : Outcome string :=
  match c with Some (str_val s) => Ok s | _ => Undefined end.
Definition read_int_val (c : option OptionValue) : Outcome Z :=
  match c with Some (int_val i) => Ok i | _ => Undefined end.
Definition read_dbl_val (c : option OptionValue) : Outcome float :=
  match c with Some (dbl_val d) => Ok d | _ => Undefined end.

(** [opt->values[i]]. *)
Definition opt_cell (opt : Option) (i : Z) : option OptionValue :=
  if i <? 0 then None else mjoin (opt_values opt !! Z.to_nat i).

Definition option_get_str (opt : Option) : Outcome string :=
  if opt_count opt >? 0 then read_str_val (opt_cell opt (opt_count opt - 1))
  else read_str_val (opt_fallback opt).

Definition option_get_int (opt : Option) : Outcome Z :=
  if opt_count opt >? 0 then read_int_val (opt_cell opt (opt_count opt - 1))
  else read_int_val (opt_fallback opt).

Definition option_get_double (opt : Option) : Outcome float :=
  if opt_count opt >? 0 then read_dbl_val (opt_cell opt (opt_count opt - 1))
  else read_dbl_val (opt_fallback opt).

(** [for (i = 0; i < count; i++) list[i] = opt->values[i].member], from
    index [i] for [n] rounds. *)
Fixpoint option_copy_values {A} (read : option OptionValue -> Outcome A)
    (opt : Option) (i : Z) (n : nat) : Outcome (list A) :=
  match n with
  | O => Ok []
  | S n' =>
      do x <- read (opt_cell opt i);
      do xs <- option_copy_values read opt (i + 1) n';
      Ok (x :: xs)
  end.

(** The list accessors: [None] is the NULL they return for an option that
    was not found, otherwise the fresh array of [count] values. *)
Definition option_get_list {A} (read : option OptionValue -> Outcome A)
    (opt : Option) : Outcome (option (list A)) :=
  if opt_count opt =? 0 then Ok None
  else
    do l <- option_copy_values read opt 0 (Z.to_nat (opt_count opt));
    Ok (Some l).

Definition option_get_str_list := option_get_list read_str_val.
Definition option_get_int_list := option_get_list read_int_val.
Definition option_get_double_list := option_get_list read_dbl_val.

(** ** ArgStream *)

Record ArgStream : Type := mkArgStream {
  as_count : Z;
  as_index : Z;
  as_args : list string
}.

Definition argstream_new (count : Z) (args : list string) : ArgStream :=
  mkArgStream count 0 args.

(** [stream->args[stream->index++]]; reading outside [args] is undefined. *)
Definition argstream_next (stream : ArgStream) : Outcome (string * ArgStream) :=
  if as_index stream <? 0 then Undefined
  else
    match as_args stream !! Z.to_nat (as_index stream) with
    | Some arg =>
        Ok (arg, mkArgStream (as_count stream) (as_index stream + 1) (as_args stream))
    | None => Undefined
    end.

Definition argstream_has_next (stream : ArgStream) : bool :=
  as_index stream <? as_count stream.

(** ** ArgParser: setup *)

(** [callback] is the address of a function of the host program; a call of
    it is recorded, see [CallbackCall].  [cmd_parser] and the values of
    [command_map] are indices into [command_vec], the values of [option_map]
    are indices into [option_vec]. *)
#[warnings="-register-all"]
Inductive ArgParser : Type := mkArgParser {
  helptext : option string;
  version : option string;
  option_vec : Vec Option;
  option_map : Map Z;
  command_vec : Vec ArgParser;
  command_map : Map Z;
  positional_args : Vec string;
  callback : option Z;
  cmd_name : option string;
  cmd_parser : option Z;
  cmd_help : bool
}.

Definition ap_new : ArgParser :=
  mkArgParser None None vec_new map_new vec_new map_new vec_new None None None false.

Definition ap_helptext (parser : ArgParser) (text : string) : ArgParser :=
  mkArgParser (Some text) (version parser) (option_vec parser) (option_map parser)
    (command_vec parser) (command_map parser) (positional_args parser)
    (callback parser) (cmd_name parser) (cmd_parser parser) (cmd_help parser).

Definition ap_version (parser : ArgParser) (text : string) : ArgParser :=
  mkArgParser (helptext parser) (Some text) (option_vec parser) (option_map parser)
    (command_vec parser) (command_map parser) (positional_args parser)
    (callback parser) (cmd_name parser) (cmd_parser parser) (cmd_help parser).

(** Assignments to the fields that registration and parsing write. *)
Definition set_options (parser : ArgParser) (vec : Vec Option) (map : Map Z) : ArgParser :=
  mkArgParser (helptext parser) (version parser) vec map
    (command_vec parser) (command_map parser) (positional_args parser)
    (callback parser) (cmd_name parser) (cmd_parser parser) (cmd_help parser).

Definition set_positional_args (parser : ArgParser) (vec : Vec string) : ArgParser :=
  mkArgParser (helptext parser) (version parser) (option_vec parser) (option_map parser)
    (command_vec parser) (command_map parser) vec
    (callback parser) (cmd_name parser) (cmd_parser parser) (cmd_help parser).

Definition set_command_vec (parser : ArgParser) (vec : Vec ArgParser) : ArgParser :=
  mkArgParser (helptext parser) (version parser) (option_vec parser) (option_map parser)
    vec (command_map parser) (positional_args parser)
    (callback parser) (cmd_name parser) (cmd_parser parser) (cmd_help parser).

Definition set_cmd (parser : ArgParser) (name : string) (child : Z) : ArgParser :=
  mkArgParser (helptext parser) (version parser) (option_vec parser) (option_map parser)
    (command_vec parser) (command_map parser) (positional_args parser)
    (callback parser) (Some name) (Some child) (cmd_help parser).

(** ** ArgParser: register flags and options *)

(** The two statements that follow the creation of the option in each of
    the four registration functions: the new option is appended to
    [option_vec] and every word of [name] is bound to it. *)
Definition register_option (parser : ArgParser) (name : string) (opt : Option) : ArgParser :=
  let ptr := vec_count (option_vec parser) in
  set_options parser (vec_add (option_vec parser) opt)
    (map_set_splitkey (option_map parser) name ptr).

Definition ap_flag (parser : ArgParser) (name : string) : ArgParser :=
  register_option parser name option_new_flag.

Definition ap_str_opt (parser : ArgParser) (name fallback : string) : ArgParser :=
  register_option parser name (option_new_str fallback).

Definition ap_int_opt (parser : ArgParser) (name : string) (fallback : Z) : ArgParser :=
  register_option parser name (option_new_int fallback).

Definition ap_dbl_opt (parser : ArgParser) (name : string) (fallback : float) : ArgParser :=
  register_option parser name (option_new_double fallback).

(** ** ArgParser: flag and option values *)

(** The [Option] behind a pointer stored in [option_map]. *)
Definition option_at (parser : ArgParser) (ptr : Z) : Outcome Option :=
  match vec_at (option_vec parser) ptr with
  | Some opt => Ok opt
  | None => Undefined
  end.

Definition ap_get_opt (parser : ArgParser) (name : string) : Outcome Option :=
  match map_get (option_map parser) name with
  | Some ptr => option_at parser ptr
  | None => err ("'" ++ name ++ "' is not a registered flag or option name")%string
  end.

Definition ap_count (parser : ArgParser) (name : string) : Outcome Z :=
  do opt <- ap_get_opt parser name; Ok (opt_count opt).

Definition ap_found (parser : ArgParser) (name : string) : Outcome bool :=
  do opt <- ap_get_opt parser name; Ok (opt_count opt >? 0).

Definition ap_str_value (parser : ArgParser) (name : string) : Outcome string :=
  do opt <- ap_get_opt parser name; option_get_str opt.

Definition ap_int_value (parser : ArgParser) (name : string) : Outcome Z :=
  do opt <- ap_get_opt parser name; option_get_int opt.

Definition ap_dbl_value (parser : ArgParser) (name : string) : Outcome float :=
  do opt <- ap_get_opt parser name; option_get_double opt.

Definition ap_str_values (parser : ArgParser) (name : string) :=
  do opt <- ap_get_opt parser name; option_get_str_list opt.

Definition ap_int_values (parser : ArgParser) (name : string) :=
  do opt <- ap_get_opt parser name; option_get_int_list opt.

Definition ap_dbl_values (parser : ArgParser) (name : string) :=
  do opt <- ap_get_opt parser name; option_get_double_list opt.

(** ** ArgParser: positional arguments *)

Definition ap_has_args (parser : ArgParser) : bool :=
  vec_count (positional_args parser) >? 0.

Definition ap_count_args (parser : ArgParser) : Z :=
  vec_count (positional_args parser).

Definition ap_arg (parser : ArgParser) (index : Z) : option string :=
  vec_at (positional_args parser) index.

(** [ap_args]: a copy of the first [count] cells. *)
Definition ap_args (parser : ArgParser) : list (option string) :=
  vec_cells (positional_args parser).

(** ** ArgParser: commands *)

(** [ap_cmd] returns the new parser of the command: here its index in
    [command_vec], beside the parser it was registered on. *)
Definition ap_cmd (parser : ArgParser) (name : string) : ArgParser * Z :=
  let ptr := vec_count (command_vec parser) in
  (mkArgParser (helptext parser) (version parser) (option_vec parser)
     (option_map parser) (vec_add (command_vec parser) ap_new)
     (map_set_splitkey (command_map parser) name ptr) (positional_args parser)
     (callback parser) (cmd_name parser) (cmd_parser parser) true,
   ptr).

(** A call of the registration interface on the parser behind the pointer
    that [ap_cmd] returned. *)
Definition on_cmd (parser : ArgParser) (ptr : Z) (f : ArgParser -> ArgParser) : ArgParser :=
  match vec_at (command_vec parser) ptr with
  | Some child => set_command_vec parser (vec_store (command_vec parser) ptr (f child))
  | None => parser
  end.

Definition ap_callback (parser : ArgParser) (fn : Z) : ArgParser :=
  mkArgParser (helptext parser) (version parser) (option_vec parser) (option_map parser)
    (command_vec parser) (command_map parser) (positional_args parser)
    (Some fn) (cmd_name parser) (cmd_parser parser) (cmd_help parser).

Definition ap_has_cmd (parser : ArgParser) : bool :=
  match cmd_name parser with Some _ => true | None => false end.

Definition ap_cmd_name (parser : ArgParser) : option string := cmd_name parser.

Definition ap_cmd_parser (parser : ArgParser) : option ArgParser :=
  match cmd_parser parser with
  | Some ptr => vec_at (command_vec parser) ptr
  | None => None
  end.

Definition ap_cmd_help (parser : ArgParser) (enable : bool) : ArgParser :=
  mkArgParser (helptext parser) (version parser) (option_vec parser) (option_map parser)
    (command_vec parser) (command_map parser) (positional_args parser)
    (callback parser) (cmd_name parser) (cmd_parser parser) enable.

(** ** ArgParser: parse arguments *)

(** A call [cmd_parser->callback(arg, cmd_parser)] of a function of the host
    program: its address and its two arguments.  What the host does in the
    call is outside the library; the parser the library goes on with is the
    one it passed. *)
Record CallbackCall : Type := mkCallbackCall {
  call_fn : Z;
  call_name : string;
  call_parser : ArgParser
}.

(** [option_vec->entries[ptr]] is the object that [*ptr = opt] writes. *)
Definition store_option (parser : ArgParser) (ptr : Z) (opt : Option) : ArgParser :=
  set_options parser (vec_store (option_vec parser) ptr opt) (option_map parser).

(** [option->count++]. *)
Definition bump_count (opt : Option) : Option :=
  mkOption (opt_type opt) (opt_count opt + 1) (opt_capacity opt)
           (opt_values opt) (opt_fallback opt).

(** [while (argstream_has_next(stream)) vec_add(positional_args, next)],
    which runs once for each of the [n] arguments left. *)
Fixpoint add_remaining (n : nat) (vec : Vec string) (stream : ArgStream)
    : Outcome (Vec string * ArgStream) :=
  if argstream_has_next stream then
    match n with
    | O => OutOfFuel
    | S n' =>
        do (arg, stream') <- argstream_next stream;
        add_remaining n' (vec_add vec arg) stream'
    end
  else Ok (vec, stream).

Section parse.

(** [strtod] of the C library, which the embedding does not define: the
    result, [endptr] and whether [errno] is [ERANGE]. *)
Variable strtod : string -> float * string * bool.

Definition try_str_to_double (s : string) : Outcome float :=
  let '(result, endptr, erange) := strtod s in
  if erange : bool then err ("'" ++ s ++ "' is out of range")%string
  else if negb (str_is_empty endptr) then
    err ("cannot parse '" ++ s ++ "' as a floating-point value")%string
  else Ok result.

Definition option_try_set (opt : Option) (arg : string) : Outcome Option :=
  match opt_type opt with
  | OPT_STR => Ok (option_append_value opt (str_val arg))
  | OPT_INT =>
      do v <- try_str_to_int arg; Ok (option_append_value opt (int_val v))
  | OPT_DBL =>
      do v <- try_str_to_double arg; Ok (option_append_value opt (dbl_val v))
  | OPT_FLAG => Ok opt
  end.

(** An option of the form [--name=value] or [-n=value]; [arg] is the text
    after the dashes. *)
Definition ap_handle_equals_opt (parser : ArgParser) (prefix arg : string)
    : Outcome ArgParser :=
  match split_equals arg with
  | None => Undefined
  | Some (name, v) =>
      match map_get (option_map parser) name with
      | None => err (prefix ++ name ++ " is not a recognised option name")%string
      | Some ptr =>
          do option <- option_at parser ptr;
          if OptionType_eqb (opt_type option) OPT_FLAG then
            err (prefix ++ name ++ " is not a recognised option name")%string
          else if (String.length v =? 0)%nat then
            err ("missing value for the " ++ prefix ++ name ++ " option")%string
          else
            do option' <- option_try_set option v;
            Ok (store_option parser ptr option')
      end
  end.

(** A long-form option; [arg] is the text after the two dashes. *)
Definition ap_handle_long_opt (parser : ArgParser) (arg : string)
    (stream : ArgStream) : Outcome (ArgParser * ArgStream) :=
  match map_get (option_map parser) arg with
  | Some ptr =>
      do option <- option_at parser ptr;
      if OptionType_eqb (opt_type option) OPT_FLAG then
        Ok (store_option parser ptr (bump_count option), stream)
      else if argstream_has_next stream then
        do (v, stream') <- argstream_next stream;
        do option' <- option_try_set option v;
        Ok (store_option parser ptr option', stream')
      else err ("missing argument for the --" ++ arg ++ " option")%string
  | None =>
      match (if String.eqb arg "help" then helptext parser else None) with
      | Some text => Exit0 (Some text)
      | None =>
          match (if String.eqb arg "version" then version parser else None) with
          | Some text => Exit0 (Some text)
          | None =>
              err ("--" ++ arg ++ " is not a recognised flag or option name")%string
          end
      end
  end.

(** The loop of [ap_handle_short_opt] from the character [arg[i]] on;
    [rest] is [arg + i]. *)
Fixpoint ap_handle_short_loop (parser : ArgParser) (arg rest : string)
    (stream : ArgStream) : Outcome (ArgParser * ArgStream) :=
  match rest with
  | EmptyString => Ok (parser, stream)
  | String c rest' =>
      match map_get (option_map parser) (String c EmptyString) with
      | None =>
          match (if Ascii.eqb c "h" then helptext parser else None) with
          | Some text => Exit0 (Some text)
          | None =>
              match (if Ascii.eqb c "v" then version parser else None) with
              | Some text => Exit0 (Some text)
              | None =>
                  if (1 <? String.length arg)%nat then
                    err ("'" ++ String c "' in -" ++ arg
                         ++ " is not a recognised flag or option name")%string
                  else
                    err ("-" ++ arg ++ " is not a recognised flag or option name")%string
              end
          end
      | Some ptr =>
          do option <- option_at parser ptr;
          if OptionType_eqb (opt_type option) OPT_FLAG then
            ap_handle_short_loop (store_option parser ptr (bump_count option))
              arg rest' stream
          else if argstream_has_next stream then
            do (v, stream') <- argstream_next stream;
            do option' <- option_try_set option v;
            ap_handle_short_loop (store_option parser ptr option') arg rest' stream'
          else if (1 <? String.length arg)%nat then
            err ("missing argument for the '" ++ String c "' option in -" ++ arg)%string
          else err ("missing argument for the -" ++ arg ++ " option")%string
      end
  end.

(** A short-form option; [arg] is the text after the dash. *)
Definition ap_handle_short_opt (parser : ArgParser) (arg : string)
    (stream : ArgStream) : Outcome (ArgParser * ArgStream) :=
  ap_handle_short_loop parser arg arg stream.

(** The automatic [help] command, after the token [help] was read. *)
Definition ap_handle_help_cmd (parser : ArgParser) (stream : ArgStream)
    : Outcome (ArgParser * ArgStream) :=
  if argstream_has_next stream then
    do (name, stream') <- argstream_next stream;
    match map_get (command_map parser) name with
    | Some ptr =>
        match vec_at (command_vec parser) ptr with
        | Some child => Exit0 (helptext child)
        | None => Undefined
        end
    | None => err ("'" ++ name ++ "' is not a recognised command")%string
    end
  else err "the help command requires an argument"%string.

(** One round of the [while] loop of [ap_parse_stream], after [arg] was
    read from the stream: the chain of tests on [arg].  [recurse] is the call
    [ap_parse_stream(cmd_parser, stream)].  The result is the parser, the
    stream and the calls of callbacks made in the round. *)
Definition ap_parse_arg
    (recurse : ArgParser -> ArgStream ->
               Outcome (ArgParser * ArgStream * list CallbackCall))
    (parser : ArgParser) (stream : ArgStream) (is_first_arg : bool)
    (arg : string) : Outcome (ArgParser * ArgStream * list CallbackCall) :=
  if String.eqb arg "--" then
    do (vec, stream) <-
      add_remaining (Z.to_nat (as_count stream - as_index stream))
        (positional_args parser) stream;
    Ok (set_positional_args parser vec, stream, [])
  else if String.prefix "--" arg then
    if has_equals arg then
      do parser <- ap_handle_equals_opt parser "--" (str_offset arg 2);
      Ok (parser, stream, [])
    else
      do (parser, stream) <- ap_handle_long_opt parser (str_offset arg 2) stream;
      Ok (parser, stream, [])
  else if String.prefix "-" arg then
    if (String.length arg =? 1)%nat || isdigit (char_at arg 1) then
      Ok (set_positional_args parser (vec_add (positional_args parser) arg),
          stream, [])
    else if has_equals arg then
      do parser <- ap_handle_equals_opt parser "-" (str_offset arg 1);
      Ok (parser, stream, [])
    else
      do (parser, stream) <- ap_handle_short_opt parser (str_offset arg 1) stream;
      Ok (parser, stream, [])
  else
    match (if is_first_arg then map_get (command_map parser) arg else None) with
    | Some ptr =>
        match vec_at (command_vec parser) ptr with
        | None => Undefined
        | Some child =>
            do (child, stream, calls) <- recurse child stream;
            Ok (set_command_vec (set_cmd parser arg ptr)
                  (vec_store (command_vec parser) ptr child),
                stream,
                calls ++ match callback child with
                         | Some fn => [mkCallbackCall fn arg child]
                         | None => []
                         end)
        end
    | None =>
        if is_first_arg && cmd_help parser && String.eqb arg "help" then
          do (parser, stream) <- ap_handle_help_cmd parser stream;
          Ok (parser, stream, [])
        else
          Ok (set_positional_args parser (vec_add (positional_args parser) arg),
              stream, [])
    end.

(** The [while] loop of [ap_parse_stream], entered with [is_first_arg].
    Every round reads an argument, so a loop entered with more [fuel] than
    there are arguments left returns, see [ap_parse_loop_fuel]. *)
Fixpoint ap_parse_loop (fuel : nat) (parser : ArgParser) (stream : ArgStream)
    (is_first_arg : bool) : Outcome (ArgParser * ArgStream * list CallbackCall) :=
  if argstream_has_next stream then
    match fuel with
    | O => OutOfFuel
    | S fuel' =>
        do (arg, stream) <- argstream_next stream;
        do (parser, stream, calls) <-
          ap_parse_arg (fun child s => ap_parse_loop fuel' child s true)
            parser stream is_first_arg arg;
        do (parser, stream, later) <- ap_parse_loop fuel' parser stream false;
        Ok (parser, stream, calls ++ later)
    end
  else Ok (parser, stream, []).

Definition ap_parse_stream (fuel : nat) (parser : ArgParser) (stream : ArgStream) :=
  ap_parse_loop fuel parser stream true.

(** [ap_parse_array(parser, count, args)] with [count] the length of [args]:
    the parser after the run and the calls of callbacks made in it. *)
Definition ap_parse_array (parser : ArgParser) (args : list string)
    : Outcome (ArgParser * list CallbackCall) :=
  let stream := argstream_new (Z.of_nat (length args)) args in
  do (parser, _, calls) <- ap_parse_stream (S (length args)) parser stream;
  Ok (parser, calls).

(** [ap_parse(parser, argc, argv)] skips [argv[0]]. *)
Definition ap_parse (parser : ArgParser) (argv : list string) :=
  ap_parse_array parser (tail argv).

End parse.

(** ** ArgParser: positional arguments as numbers *)

(** [for (i = 0; i < count; i++) args[i] = conv(entries[i])], from index [i]
    for [rounds] rounds.  Reading a cell that was never written is
    undefined. *)
Fixpoint args_as {A} (conv : string -> Outcome A) (vec : Vec string) (i : Z)
    (rounds : nat) : Outcome (list A) :=
  match rounds with
  | O => Ok []
  | S rounds' =>
      match vec_at vec i with
      | None => Undefined
      | Some s =>
          do x <- conv s;
          do xs <- args_as conv vec (i + 1) rounds';
          Ok (x :: xs)
      end
  end.

Definition ap_args_as_ints (parser : ArgParser) : Outcome (list Z) :=
  args_as try_str_to_int (positional_args parser) 0
    (Z.to_nat (ap_count_args parser)).

Definition ap_args_as_doubles (strtod : string -> float * string * bool)
    (parser : ArgParser) : Outcome (list float) :=
  args_as (try_str_to_double strtod) (positional_args parser) 0
    (Z.to_nat (ap_count_args parser)).

(** ** Integers as [printf] writes them *)

(** The decimal digits of [n >= 0] before [acc], the most significant
    first. *)
Fixpoint dec_digits (fuel : nat) (n : Z) (acc : string) : string :=
  match fuel with
  | O => acc
  | S fuel' =>
      let acc := String (ascii_of_N (Z.to_N (48 + n mod 10))) acc in
      if n <? 10 then acc else dec_digits fuel' (n / 10) acc
  end.

(** [%d] and [%i]. *)
Definition fmt_int (n : Z) : string :=
  let digits := dec_digits (S (Z.to_nat (Z.log2 (Z.abs n)))) (Z.abs n) "" in
  if n <? 0 then String "-" digits else digits.

(** * The program (src/dmp.c)

    The standard output is the text a function returns.  A file is the
    sequence of its bytes from the current position on; [fread] does not
    fail, so a short count means the end of the file. *)

(** ['\033'] and ["\n"]. *)
Definition ESC : ascii := ascii_of_nat 27.
Definition LF : string := String (ascii_of_nat 10) "".

Definition byte_val (b : Byte.byte) : Z := Z.of_N (Byte.to_N b).

(** A hexadecimal digit of [printf]: lower case for [%x], upper case for
    [%X]. *)
Definition hex_digit (upper : bool) (d : Z) : ascii :=
  ascii_of_N (Z.to_N (if d <? 10 then 48 + d
                      else (if upper then 55 else 87) + d)).

(** The [n] low hexadecimal digits of [v], the most significant first. *)
Fixpoint hex_digits (upper : bool) (n : nat) (v : Z) : string :=
  match n with
  | O => ""
  | S n' =>
      (hex_digits upper n' (v / 16) ++ String (hex_digit upper (v mod 16)) "")%string
  end.

(** [%08x] of an [int]: the value is read as an [unsigned int], which has at
    most eight hexadecimal digits. *)
Definition fmt_08x (v : Z) : string := hex_digits false 8 (v mod 2 ^ 32).

(** [%02X] of a [uint8_t], which has at most two. *)
Definition fmt_02X (b : Byte.byte) : string := hex_digits true 2 (byte_val b).

(** [buffer[i]]; a cell of the [malloc]ed buffer that [fread] has not
    written is [None]. *)
Definition buffer_at (buffer : list (option Byte.byte)) (i : Z) : Outcome Byte.byte :=
  if i <? 0 then Undefined
  else
    match buffer !! Z.to_nat i with
    | Some (Some b) => Ok b
    | _ => Undefined
    end.

(** The first loop of [print_line], from [i] for [rounds] rounds: the bytes
    in hexadecimal, in groups of four. *)
Fixpoint print_hex_loop (buffer : list (option Byte.byte)) (num_bytes i : Z)
    (rounds : nat) : Outcome string :=
  match rounds with
  | O => Ok ""
  | S rounds' =>
      let gap := if (i >? 0) && (Z.rem i 4 =? 0) then " " else "" in
      do cell <-
        (if i <? num_bytes then
           do b <- buffer_at buffer i;
           Ok (String ESC "[0;31m " ++ fmt_02X b ++ String ESC "[0m")%string
         else Ok "   ");
      do rest <- print_hex_loop buffer num_bytes (i + 1) rounds';
      Ok (gap ++ cell ++ rest)%string
  end.

(** The second loop of [print_line]: the bytes as characters. *)
Fixpoint print_ascii_loop (buffer : list (option Byte.byte)) (i : Z)
    (rounds : nat) : Outcome string :=
  match rounds with
  | O => Ok ""
  | S rounds' =>
      do b <- buffer_at buffer i;
      let cell :=
        if (byte_val b >? 31) && (byte_val b <? 127) then
          (String ESC "[0;34m" ++ String (ascii_of_byte b) "" ++ String ESC "[0m")%string
        else "." in
      do rest <- print_ascii_loop buffer (i + 1) rounds';
      Ok (cell ++ rest)%string
  end.

(** [print_line]: the text of one line. *)
Definition print_line (buffer : list (option Byte.byte))
    (num_bytes offset line_length : Z) : Outcome string :=
  do hex <- print_hex_loop buffer num_bytes 0 (Z.to_nat line_length);
  do text <- print_ascii_loop buffer 0 (Z.to_nat num_bytes);
  Ok (String ESC "[0;33m" ++ fmt_08x offset ++ String ESC "[0m " ++ hex
      ++ " | " ++ text ++ LF)%string.

(** [fread(buffer, 1, max_bytes, file)]: the buffer after the call, the
    number of bytes read and the file after them.  A negative [max_bytes] is
    a huge [size_t], and a read of more bytes than the buffer has cells
    writes outside it. *)
Definition fread (buffer : list (option Byte.byte)) (max_bytes : Z)
    (file : list Byte.byte)
    : Outcome (list (option Byte.byte) * Z * list Byte.byte) :=
  if max_bytes <? 0 then Undefined
  else
    let data := take (Z.to_nat max_bytes) file in
    if (length buffer <? length data)%nat then Undefined
    else
      Ok (map Some data ++ drop (length data) buffer,
          Z.of_nat (length data),
          drop (Z.to_nat max_bytes) file).

(** [a + b] and [a - b] on [int]: an overflow is undefined. *)
Definition int_add (a b : Z) : Outcome Z :=
  if (INT_MIN <=? a + b) && (a + b <=? INT_MAX) then Ok (a + b) else Undefined.

Definition int_sub (a b : Z) : Outcome Z :=
  if (INT_MIN <=? a - b) && (a - b <=? INT_MAX) then Ok (a - b) else Undefined.

(** The [while (true)] loop of [dump_file].  Every round but the last reads
    a byte or more, so a loop entered with more [fuel] than the file has
    bytes returns. *)
Fixpoint dump_loop (fuel : nat) (buffer : list (option Byte.byte))
    (file : list Byte.byte) (offset bytes_to_read line_length : Z)
    : Outcome string :=
  match fuel with
  | O => OutOfFuel
  | S fuel' =>
      let max_bytes :=
        if bytes_to_read <? 0 then line_length
        else if line_length <? bytes_to_read then line_length
        else bytes_to_read in
      do (buffer, num_bytes, file) <- fread buffer max_bytes file;
      if num_bytes >? 0 then
        do line <- print_line buffer num_bytes offset line_length;
        do offset <- int_add offset num_bytes;
        do bytes_to_read <- int_sub bytes_to_read num_bytes;
        do rest <- dump_loop fuel' buffer file offset bytes_to_read line_length;
        Ok (line ++ rest)%string
      else Ok ""%string
  end.

(** How a run of the program, or of a part of it, ends: a return, a call of
    [exit] after some text on the standard output and on the standard
    error, undefined behaviour, or a model out of steps. *)
Inductive Run (A : Type) : Type :=
  | Returns (a : A)
  | Exits (status : Z) (out err : string)
  | RunUndefined
  | RunOutOfFuel.

Arguments Returns {A} a.
Arguments Exits {A} status out err.
Arguments RunUndefined {A}.
Arguments RunOutOfFuel {A}.

Definition rbind {A B} (m : Run A) (f : A -> Run B) : Run B :=
  match m with
  | Returns a => f a
  | Exits status out err => Exits status out err
  | RunUndefined => RunUndefined
  | RunOutOfFuel => RunOutOfFuel
  end.

(** A call of the library: [err] writes ["Error: %s.\n"] and exits with 1,
    the help and version paths [puts] a text, if there is one, and exit with
    0. *)
Definition of_outcome {A} (m : Outcome A) : Run A :=
  match m with
  | Ok a => Returns a
  | Fatal msg => Exits 1 "" ("Error: " ++ msg ++ "." ++ LF)%string
  | Exit0 (Some text) => Exits 0 (text ++ LF)%string ""
  | Exit0 None => Exits 0 "" ""
  | Undefined => RunUndefined
  | OutOfFuel => RunOutOfFuel
  end.

(** A stream of the C library: the bytes from its position on, and whether
    [fseek] works on it. *)
Record File : Type := mkFile {
  file_data : list Byte.byte;
  file_seekable : bool
}.

(** [fseek(file, offset, SEEK_SET)] on a stream at its start; [None] is a
    non-zero result.  A position after the end of the file is accepted, a
    negative one is not. *)
Definition fseek (file : File) (offset : Z) : option File :=
  if file_seekable file && (0 <=? offset) then
    Some (mkFile (drop (Z.to_nat offset) (file_data file)) true)
  else None.

Definition helptext_of_dmp : string :=
  ("Usage: hexdump [file]" ++ LF
   ++ LF
   ++ "Arguments:" ++ LF
   ++ "  [file]              File to read (default: STDIN)." ++ LF
   ++ LF
   ++ "Options:" ++ LF
   ++ "  -l, --line <int>    Bytes per line in output (default: 16)." ++ LF
   ++ "  -n, --num <int>     Number of bytes to read (default: all)." ++ LF
   ++ "  -o, --offset <int>  Byte offset at which to begin reading." ++ LF
   ++ LF
   ++ "Flags:" ++ LF
   ++ "  -h, --help          Display this help text and exit." ++ LF
   ++ "  -v, --version       Display the version number and exit." ++ LF)%string.

(** The parser that [main] sets up before it parses. *)
Definition parser_of_dmp : ArgParser :=
  let parser := ap_new in
  let parser := ap_helptext parser helptext_of_dmp in
  let parser := ap_version parser "0.1.0" in
  let parser := ap_int_opt parser "line l" 16 in
  let parser := ap_int_opt parser "num n" (-1) in
  ap_int_opt parser "offset o" 0.

Section dmp.

(** What the program finds around it: whether [malloc(n)] returns NULL, the
    file that [fopen(name, "rb")] opens, if it opens one, the standard
    input, and [strtod]. *)
Variable malloc_fails : Z -> bool.
Variable fopen : string -> option File.
Variable stdin : File.
Variable strtod : string -> float * string * bool.

(** [dump_file]: the text written when it returns. *)
Definition dump_file (file : list Byte.byte)
    (offset bytes_to_read line_length : Z) : Run string :=
  if malloc_fails line_length then
    Exits 1 "" ("Error: Insufficient Memory " ++ LF)%string
  else
    of_outcome
      (dump_loop (S (length file)) (replicate (Z.to_nat line_length) None)
         file offset bytes_to_read line_length).

(** [main]: the text written when it returns, which it does with 0. *)
Definition main (argv : list string) : Run string :=
  rbind (of_outcome (ap_parse strtod parser_of_dmp argv)) (fun '(parser, _) =>
  rbind
    (if ap_has_args parser then
       match ap_arg parser 0 with
       | None => RunUndefined
       | Some filename =>
           match fopen filename with
           | Some file => Returns file
           | None =>
               Exits 1 ""
                 ("Error: Could not open file '" ++ filename ++ " " ++ LF)%string
           end
       end
     else Returns stdin) (fun file =>
  rbind (of_outcome (ap_int_value parser "offset")) (fun offset =>
  rbind
    (if negb (offset =? 0) then
       match fseek file offset with
       | Some file => Returns file
       | None =>
           Exits 1 ""
             ("Error: Could not seek to offset " ++ fmt_int offset ++ LF)%string
       end
     else Returns file) (fun file =>
  rbind (of_outcome (ap_int_value parser "num")) (fun bytes_to_read =>
  rbind (of_outcome (ap_int_value parser "line")) (fun line_length =>
  dump_file (file_data file) offset bytes_to_read line_length)))))).

End dmp.

(** * Properties *)

(** ** Map: probing, growth and lookup *)

Section map_proofs.
Context {V : Type}.
Implicit Types (es : list (option (MapEntry V))) (m : Map V) (e : MapEntry V).

(** The number of slots whose key is not NULL. *)
Definition occupied es : Z := Z.of_nat (length (omap id es)).

(** [e] is stored in some slot of the table. *)
Definition map_contains m e : Prop :=
  exists i : nat, map_entries m !! i = Some (Some e).

(** The state of a map between two operations: the capacity is 0 (a map
    never written) or a power of two from 8 up, the slot array has that
    many slots, the threshold is half of the capacity, [count] counts the
    occupied slots and does not exceed the threshold, every entry carries the
    hash of its key, and probing for a stored key ends on its own slot. *)
Record map_ok m : Prop := {
  ok_capacity : map_capacity m = 0 \/ exists n, 3 <= n /\ map_capacity m = 2 ^ n;
  ok_length : Z.of_nat (length (map_entries m)) = map_capacity m;
  ok_threshold : max_load_threshold m = map_capacity m / 2;
  ok_count : map_count m = occupied (map_entries m);
  ok_load : map_count m <= max_load_threshold m;
  ok_hash : forall (i : nat) e,
    map_entries m !! i = Some (Some e) -> key_hash e = str_hash (key e);
  ok_find : forall (i : nat) e,
    map_entries m !! i = Some (Some e) ->
    map_find m (key e) (key_hash e) = Some (Z.of_nat i)
}.

Definition slot_match (k : string) (h : Z) e : bool :=
  (h =? key_hash e) && String.eqb k (key e).

Lemma land_mask (x n : Z) : 0 <= n -> Z.land x (2 ^ n - 1) = x mod 2 ^ n.
Proof.
  intros Hn. rewrite <- Z.land_ones by done. f_equal.
  rewrite Z.ones_equiv. lia.
Qed.

Lemma slot_match_true k h e :
  slot_match k h e = true <-> h = key_hash e /\ k = key e.
Proof.
  unfold slot_match. rewrite andb_true_iff, Z.eqb_eq, String.eqb_eq. done.
Qed.

(** *** Counting occupied slots *)

Lemma occupied_nonneg es : 0 <= occupied es.
Proof. unfold occupied. lia. Qed.

Definition slot_weight (o : option (MapEntry V)) : Z :=
  match o with Some _ => 1 | None => 0 end.

Lemma occupied_cons o es : occupied (o :: es) = slot_weight o + occupied es.
Proof.
  unfold occupied. destruct o as [e|].
  - change (omap id (Some e :: es)) with (e :: omap id es).
    rewrite length_cons. simpl slot_weight. lia.
  - change (omap id (None :: es)) with (omap id es). simpl slot_weight. lia.
Qed.

Lemma occupied_le_length es : occupied es <= Z.of_nat (length es).
Proof.
  induction es as [|o es IH]; [done|].
  rewrite occupied_cons, length_cons. destruct o; simpl slot_weight; lia.
Qed.

Lemma occupied_replicate (n : nat) : occupied (replicate n None) = 0.
Proof.
  induction n as [|n IH]; [done|]. simpl. by rewrite occupied_cons, IH.
Qed.

Lemma occupied_take (t : nat) es : occupied (take t es) <= occupied es.
Proof.
  revert t. induction es as [|o es IH]; intros [|t]; simpl; try done.
  - apply occupied_nonneg.
  - rewrite !occupied_cons. specialize (IH t). lia.
Qed.

Lemma occupied_take_S (t : nat) es o :
  es !! t = Some o ->
  occupied (take (S t) es) = occupied (take t es) + slot_weight o.
Proof.
  revert t. induction es as [|o' es IH]; intros [|t]; simpl; try done.
  - intros [= ->]. rewrite occupied_cons, take_0. unfold occupied. simpl. lia.
  - intros H. rewrite !occupied_cons, (IH t H). lia.
Qed.

Lemma occupied_insert_empty es (p : nat) e :
  es !! p = Some None -> occupied (<[p := Some e]> es) = occupied es + 1.
Proof.
  revert p. induction es as [|o es IH]; intros [|p]; simpl; try done.
  - intros [= ->]. rewrite !occupied_cons. simpl slot_weight. lia.
  - intros H. rewrite !occupied_cons, (IH p H). lia.
Qed.

Lemma occupied_insert_full es (p : nat) e e' :
  es !! p = Some (Some e) -> occupied (<[p := Some e']> es) = occupied es.
Proof.
  revert p. induction es as [|o es IH]; intros [|p]; simpl; try done.
  - intros [= ->]. by rewrite !occupied_cons.
  - intros H. by rewrite !occupied_cons, (IH p H).
Qed.

Lemma occupied_pos es (i : nat) e : es !! i = Some (Some e) -> 0 < occupied es.
Proof.
  revert i. induction es as [|o es IH]; intros [|i]; simpl; try done.
  - intros [= ->]. rewrite occupied_cons. simpl slot_weight.
    pose proof (occupied_nonneg es). lia.
  - intros H. rewrite occupied_cons. specialize (IH i H).
    destruct o; simpl slot_weight; lia.
Qed.

Lemma occupied_free_slot es :
  occupied es < Z.of_nat (length es) -> exists p : nat, es !! p = Some None.
Proof.
  induction es as [|o es IH]; simpl length; [unfold occupied; simpl; lia|].
  rewrite occupied_cons. destruct o as [e|]; simpl slot_weight.
  - intros H. destruct IH as [p Hp]; [lia|]. by exists (S p).
  - intros _. by exists 0%nat.
Qed.

(** *** The probe loop *)

Lemma find_loop_stop es cap k h fuel i j :
  map_find_loop es cap k h fuel i = Some j ->
  es !! Z.to_nat j = Some None \/
  exists e, es !! Z.to_nat j = Some (Some e) /\ h = key_hash e /\ k = key e.
Proof.
  revert i. induction fuel as [|fuel IH]; intros i; simpl; [done|].
  destruct (es !! Z.to_nat i) as [[e|]|] eqn:E; [|intros [= <-]; by left|done].
  fold (slot_match k h e). destruct (slot_match k h e) eqn:M.
  - intros [= <-]. right. exists e. split; [done|]. by apply slot_match_true.
  - apply IH.
Qed.

Lemma find_loop_range es n k h fuel i j :
  0 <= n -> 0 <= i < 2 ^ n ->
  map_find_loop es (2 ^ n) k h fuel i = Some j -> 0 <= j < 2 ^ n.
Proof.
  intros Hn. revert i. induction fuel as [|fuel IH]; intros i Hi; simpl; [done|].
  destruct (es !! Z.to_nat i) as [[e|]|] eqn:E; [|intros [= <-]; done|done].
  destruct (_ && _).
  - by intros [= <-].
  - apply IH. rewrite land_mask by done. apply Z.mod_pos_bound. lia.
Qed.

(** Writing a slot that was empty does not move a probe that ended elsewhere. *)
Lemma find_loop_insert_ne es cap k h fuel i j (p : nat) x :
  es !! p = Some None -> Z.to_nat j <> p ->
  map_find_loop es cap k h fuel i = Some j ->
  map_find_loop (<[p := x]> es) cap k h fuel i = Some j.
Proof.
  intros Hp Hj. revert i. induction fuel as [|fuel IH]; intros i; simpl; [done|].
  destruct (decide (Z.to_nat i = p)) as [Heq|Hne].
  - rewrite Heq, Hp. intros [= ->]. done.
  - rewrite list_lookup_insert_ne by done.
    destruct (es !! Z.to_nat i) as [[e|]|]; try done.
    destruct (_ && _); [done|]. apply IH.
Qed.

(** A probe that ended on an empty slot finds the key once it is stored there. *)
Lemma find_loop_insert_eq es cap k h fuel i p v :
  es !! Z.to_nat p = Some None ->
  map_find_loop es cap k h fuel i = Some p ->
  map_find_loop (<[Z.to_nat p := Some (mkMapEntry k v h)]> es) cap k h fuel i
  = Some p.
Proof.
  intros Hp. revert i. induction fuel as [|fuel IH]; intros i; simpl; [done|].
  destruct (decide (Z.to_nat i = Z.to_nat p)) as [Heq|Hne].
  - rewrite Heq, Hp. intros [= ->].
    rewrite list_lookup_insert_eq by (by eapply lookup_lt_Some).
    simpl. by rewrite Z.eqb_refl, String.eqb_refl.
  - rewrite list_lookup_insert_ne by done.
    destruct (es !! Z.to_nat i) as [[e|]|]; try done.
    destruct (_ && _); [done|]. apply IH.
Qed.

(** Overwriting the value of a stored entry does not change any probe. *)
Lemma find_loop_update es cap k h fuel i (p : nat) e v :
  es !! p = Some (Some e) ->
  map_find_loop (<[p := Some (mkMapEntry (key e) v (key_hash e))]> es)
    cap k h fuel i
  = map_find_loop es cap k h fuel i.
Proof.
  intros Hp. revert i. induction fuel as [|fuel IH]; intros i; simpl; [done|].
  destruct (decide (Z.to_nat i = p)) as [Heq|Hne].
  - rewrite Heq, Hp.
    rewrite list_lookup_insert_eq by (by eapply lookup_lt_Some).
    simpl. destruct (_ && _); [done|]. apply IH.
  - rewrite list_lookup_insert_ne by done.
    destruct (es !! Z.to_nat i) as [[e'|]|]; try done.
    destruct (_ && _); [done|]. apply IH.
Qed.

Lemma probe_distance (c q i : Z) :
  0 <= i < c -> 0 <= q < c -> i <> q ->
  (q - (i + 1) mod c) mod c = (q - i) mod c - 1.
Proof.
  intros Hi Hq Hne. rewrite Zminus_mod_idemp_r.
  assert (Hd : (q - i) mod c <> 0).
  { intros H0. apply Z.mod_divide in H0; [|lia]. destruct H0 as [t Ht].
    assert (t = 0) by nia. subst t. lia. }
  pose proof (Z.mod_pos_bound (q - i) c ltac:(lia)) as Hb.
  symmetry. apply (Z.mod_unique_pos _ _ ((q - i) / c)); [lia|].
  pose proof (Z.div_mod (q - i) c ltac:(lia)). lia.
Qed.

(** The probe returns when the table has an empty slot. *)
Lemma find_loop_total es n k h fuel i q :
  0 <= n -> Z.of_nat (length es) = 2 ^ n ->
  0 <= i < 2 ^ n -> 0 <= q < 2 ^ n ->
  es !! Z.to_nat q = Some None ->
  (q - i) mod 2 ^ n < Z.of_nat fuel ->
  is_Some (map_find_loop es (2 ^ n) k h fuel i).
Proof.
  intros Hn Hlen. revert i.
  induction fuel as [|fuel IH]; intros i Hi Hq Hempty Hd.
  - pose proof (Z.mod_pos_bound (q - i) (2 ^ n) ltac:(lia)). lia.
  - simpl. destruct (lookup_lt_is_Some_2 es (Z.to_nat i)) as [o Ho]; [lia|].
    rewrite Ho. destruct o as [e|]; [|done].
    destruct (_ && _); [done|].
    assert (i <> q) by (intros ->; congruence).
    rewrite land_mask by done. apply IH; try done.
    + apply Z.mod_pos_bound. lia.
    + rewrite probe_distance by done. lia.
Qed.

(** *** Lookup in a well-formed map *)

Lemma map_ok_pow m :
  map_ok m -> 0 < map_capacity m -> exists n, 3 <= n /\ map_capacity m = 2 ^ n.
Proof.
  intros Hok Hc. destruct (ok_capacity _ Hok) as [H0|H]; [lia|done].
Qed.

Lemma map_find_range m k h p :
  map_ok m -> map_find m k h = Some p -> 0 <= p < map_capacity m.
Proof.
  intros Hok. unfold map_find.
  destruct (ok_capacity _ Hok) as [H0|(n & Hn & Hcap)].
  - rewrite H0. done.
  - rewrite Hcap. apply find_loop_range; [lia|].
    rewrite land_mask by lia. apply Z.mod_pos_bound. lia.
Qed.

Lemma map_find_free m k h :
  map_ok m -> 0 < map_capacity m -> map_count m < map_capacity m ->
  is_Some (map_find m k h).
Proof.
  intros Hok Hc Hlt. destruct (map_ok_pow m Hok Hc) as (n & Hn & Hcap).
  pose proof (ok_length _ Hok) as Hlen.
  destruct (occupied_free_slot (map_entries m)) as [q Hq].
  { rewrite <- (ok_count _ Hok), Hlen. done. }
  pose proof (lookup_lt_Some _ _ _ Hq) as Hqlt.
  unfold map_find. rewrite Hcap.
  apply (find_loop_total _ n k h _ _ (Z.of_nat q)); try lia.
  - rewrite land_mask by lia. apply Z.mod_pos_bound. lia.
  - by rewrite Nat2Z.id.
  - rewrite Z2Nat.id by lia. apply Z.mod_pos_bound; lia.
Qed.

Lemma map_contains_key_inj m e1 e2 :
  map_ok m -> map_contains m e1 -> map_contains m e2 -> key e1 = key e2 ->
  e1 = e2.
Proof.
  intros Hok [i1 H1] [i2 H2] Hk.
  pose proof (ok_find _ Hok _ _ H1) as F1.
  pose proof (ok_find _ Hok _ _ H2) as F2.
  rewrite (ok_hash _ Hok _ _ H1), Hk in F1.
  rewrite (ok_hash _ Hok _ _ H2) in F2.
  assert (i1 = i2) by (rewrite F1 in F2; injection F2; lia).
  subst i2. congruence.
Qed.

Lemma map_get_Some m k v :
  map_ok m ->
  map_get m k = Some v <->
  exists e, map_contains m e /\ key e = k /\ value e = v.
Proof.
  intros Hok. unfold map_get. split.
  - destruct (map_count m =? 0); [done|].
    destruct (map_find m k (str_hash k)) as [p|] eqn:F; [|done].
    destruct (map_entries m !! Z.to_nat p) as [[e|]|] eqn:E; try done.
    intros [= <-]. exists e. split; [by exists (Z.to_nat p)|]. split; [|done].
    apply find_loop_stop in F as [F|(e' & F & _ & ->)]; congruence.
  - intros (e & [i Hi] & <- & <-).
    pose proof (occupied_pos _ _ _ Hi) as Hpos.
    rewrite <- (ok_count _ Hok) in Hpos.
    destruct (Z.eqb_spec (map_count m) 0) as [?|_]; [lia|].
    rewrite <- (ok_hash _ Hok _ _ Hi), (ok_find _ Hok _ _ Hi).
    by rewrite Nat2Z.id, Hi.
Qed.

Lemma map_get_None m k :
  map_ok m ->
  map_get m k = None <-> forall e, map_contains m e -> key e <> k.
Proof.
  intros Hok. split.
  - intros Hget e He Hk.
    assert (map_get m k = Some (value e)) as Hs; [|congruence].
    apply map_get_Some; [done|]. by exists e.
  - intros Hno. destruct (map_get m k) as [v|] eqn:G; [|done].
    apply map_get_Some in G as (e & He & Hk & _); [|done].
    by destruct (Hno e He).
Qed.

(** *** Storing a key that the table does not hold *)

Lemma map_insert_fresh m k v :
  map_ok m -> 0 < map_capacity m -> map_count m < max_load_threshold m ->
  (forall e, map_contains m e -> key e <> k) ->
  exists p,
    map_find m k (str_hash k) = Some p /\
    map_entries m !! Z.to_nat p = Some None /\
    let m' :=
      mkMap (map_count m + 1) (map_capacity m) (max_load_threshold m)
        (<[Z.to_nat p := Some (mkMapEntry k v (str_hash k))]> (map_entries m)) in
    map_ok m' /\
    forall e, map_contains m' e <-> e = mkMapEntry k v (str_hash k) \/ map_contains m e.
Proof.
  intros Hok Hc Hlt Hfresh.
  pose proof (ok_threshold _ Hok) as Hthr.
  pose proof (ok_length _ Hok) as Hlen.
  assert (max_load_threshold m < map_capacity m) as Hhalf.
  { rewrite Hthr. apply Z.div_lt; lia. }
  destruct (map_find_free m k (str_hash k)) as [p Hp]; [done|done|lia|].
  pose proof (map_find_range _ _ _ _ Hok Hp) as Hrange.
  exists p. split; [done|].
  assert (map_entries m !! Z.to_nat p = Some None) as Hempty.
  { pose proof Hp as Hstop. apply find_loop_stop in Hstop as [?|(e & He & _ & Hk)]; [done|].
    destruct (Hfresh e); [by exists (Z.to_nat p)|done]. }
  split; [done|]. simpl.
  assert (Z.to_nat p < length (map_entries m))%nat as Hplt by lia.
  split.
  - constructor; simpl.
    + apply (ok_capacity _ Hok).
    + by rewrite length_insert.
    + done.
    + rewrite occupied_insert_empty by done. by rewrite (ok_count _ Hok).
    + lia.
    + intros i e. destruct (decide (i = Z.to_nat p)) as [->|Hne].
      * rewrite list_lookup_insert_eq by done. by intros [= <-].
      * rewrite list_lookup_insert_ne by done. apply (ok_hash _ Hok).
    + intros i e. unfold map_find. simpl.
      destruct (decide (i = Z.to_nat p)) as [->|Hne].
      * rewrite list_lookup_insert_eq by done. intros [= <-]. simpl.
        rewrite Z2Nat.id by lia. by apply find_loop_insert_eq.
      * rewrite list_lookup_insert_ne by done. intros Hi.
        apply find_loop_insert_ne; [done|lia|]. apply (ok_find _ Hok _ _ Hi).
  - intros e. unfold map_contains. simpl. split.
    + intros [i Hi]. destruct (decide (i = Z.to_nat p)) as [->|Hne].
      * rewrite list_lookup_insert_eq in Hi by done. left. congruence.
      * rewrite list_lookup_insert_ne in Hi by done. right. by exists i.
    + intros [->|[i Hi]].
      * exists (Z.to_nat p). by rewrite list_lookup_insert_eq.
      * exists i. rewrite list_lookup_insert_ne; [done|]. congruence.
Qed.

(** *** Overwriting the value of a stored key *)

Lemma map_update_ok m (p : nat) e v :
  map_ok m -> map_entries m !! p = Some (Some e) ->
  let e' := mkMapEntry (key e) v (key_hash e) in
  let m' :=
    mkMap (map_count m) (map_capacity m) (max_load_threshold m)
      (<[p := Some e']> (map_entries m)) in
  map_ok m' /\
  forall x, map_contains m' x <-> x = e' \/ (map_contains m x /\ key x <> key e).
Proof.
  intros Hok Hp. simpl.
  pose proof (lookup_lt_Some _ _ _ Hp) as Hplt.
  split.
  - constructor; simpl.
    + apply (ok_capacity _ Hok).
    + rewrite length_insert. apply (ok_length _ Hok).
    + apply (ok_threshold _ Hok).
    + rewrite (occupied_insert_full _ _ e) by done. apply (ok_count _ Hok).
    + apply (ok_load _ Hok).
    + intros i x. destruct (decide (i = p)) as [->|Hne].
      * rewrite list_lookup_insert_eq by done. intros [= <-]. simpl.
        apply (ok_hash _ Hok _ _ Hp).
      * rewrite list_lookup_insert_ne by done. apply (ok_hash _ Hok).
    + intros i x. unfold map_find. simpl. rewrite find_loop_update by done.
      destruct (decide (i = p)) as [->|Hne].
      * rewrite list_lookup_insert_eq by done. intros [= <-]. simpl.
        apply (ok_find _ Hok _ _ Hp).
      * rewrite list_lookup_insert_ne by done. apply (ok_find _ Hok).
  - intros x. unfold map_contains. simpl. split.
    + intros [i Hi]. destruct (decide (i = p)) as [->|Hne].
      * rewrite list_lookup_insert_eq in Hi by done. left. congruence.
      * rewrite list_lookup_insert_ne in Hi by done. right.
        split; [by exists i|]. intros Hk. apply Hne.
        assert (x = e); [|subst x].
        { apply (map_contains_key_inj m); [done|by exists i|by exists p|done]. }
        pose proof (ok_find _ Hok _ _ Hi) as F1.
        pose proof (ok_find _ Hok _ _ Hp) as F2.
        rewrite F1 in F2. injection F2. lia.
    + intros [->|[[i Hi] Hk]].
      * exists p. by rewrite list_lookup_insert_eq.
      * exists i. rewrite list_lookup_insert_ne; [done|]. congruence.
Qed.

(** *** Growing *)

Lemma map_ok_fresh_table (n : Z) :
  3 <= n ->
  map_ok (mkMap (V:=V) 0 (2 ^ n) (Z.quot (2 ^ n) 2)
            (replicate (Z.to_nat (2 ^ n)) None)).
Proof.
  intros Hn. assert (0 < 2 ^ n) by (apply Z.pow_pos_nonneg; lia).
  constructor; simpl.
  - right. by exists n.
  - rewrite length_replicate. lia.
  - apply Z.quot_div_nonneg; lia.
  - by rewrite occupied_replicate.
  - apply Z.quot_pos; lia.
  - intros i e Hi. apply lookup_replicate in Hi as [? _]. done.
  - intros i e Hi. apply lookup_replicate in Hi as [? _]. done.
Qed.

(** The copying loop after [t] slots of the old array: the new table holds
    the entries of these slots and nothing else. *)
Lemma map_grow_prefix (old : list (option (MapEntry V))) m0 :
  (forall (i j : nat) e1 e2,
     old !! i = Some (Some e1) -> old !! j = Some (Some e2) ->
     key e1 = key e2 -> i = j) ->
  (forall (i : nat) e, old !! i = Some (Some e) -> key_hash e = str_hash (key e)) ->
  map_ok m0 -> 0 < map_capacity m0 -> map_count m0 = 0 ->
  occupied old <= max_load_threshold m0 ->
  forall t : nat, (t <= length old)%nat ->
  let mt := fold_left map_grow_step (take t old) m0 in
  map_ok mt /\
  map_capacity mt = map_capacity m0 /\
  max_load_threshold mt = max_load_threshold m0 /\
  map_count mt = occupied (take t old) /\
  forall e, map_contains mt e <->
            exists i : nat, (i < t)%nat /\ old !! i = Some (Some e).
Proof.
  intros Hdistinct Hhash Hok0 Hcap0 Hcount0 Hroom t.
  induction t as [|t IH]; intros Ht; simpl.
  - rewrite take_0. simpl. split_and!; try done.
    intros e. split.
    + intros [i Hi]. pose proof (occupied_pos _ _ _ Hi).
      rewrite <- (ok_count _ Hok0) in *. lia.
    + intros (i & ? & _). lia.
  - destruct IH as (Hok & Hcap & Hthr & Hcount & Hcont); [lia|].
    destruct (lookup_lt_is_Some_2 old t) as [o Ho]; [lia|].
    rewrite (occupied_take_S _ _ _ Ho).
    rewrite (take_S_r _ _ _ Ho), fold_left_app. simpl.
    set (mt := fold_left map_grow_step (take t old) m0) in *.
    destruct o as [e|]; simpl.
    + pose proof (occupied_take (S t) old) as Hle.
      rewrite (occupied_take_S _ _ _ Ho) in Hle. simpl in Hle.
      destruct (map_insert_fresh mt (key e) (value e)) as (p & Hp & Hempty & Hok' & Hcont');
        [done|lia|lia| |].
      { intros e' He' Hk. apply Hcont in He' as (i & Hi & He').
        assert (i = t) by (eapply Hdistinct; eauto). lia. }
      rewrite (Hhash _ _ Ho), Hp.
      assert (e = mkMapEntry (key e) (value e) (str_hash (key e))) as He.
      { rewrite <- (Hhash _ _ Ho). by destruct e. }
      rewrite <- He in Hok', Hcont'.
      split; [done|]. simpl. split_and!; try done; try lia.
      intros x. split.
      * intros Hx. apply Hcont' in Hx as [->|Hx].
        -- exists t. split; [lia|done].
        -- apply Hcont in Hx as (i & Hi & Hx). exists i. split; [lia|done].
      * intros (i & Hi & Hx). apply Hcont'.
        destruct (decide (i = t)) as [->|Hne]; [left; congruence|].
        right. apply Hcont. exists i. split; [lia|done].
    + split_and!; try done; try (simpl; lia).
      intros x. split.
      * intros Hx. apply Hcont in Hx as (i & Hi & Hx). exists i. split; [lia|done].
      * intros (i & Hi & Hx). apply Hcont.
        destruct (decide (i = t)) as [->|Hne]; [congruence|].
        exists i. split; [lia|done].
Qed.

Lemma map_grow_ok m :
  map_ok m ->
  map_ok (map_grow m) /\
  (forall e, map_contains (map_grow m) e <-> map_contains m e) /\
  map_count (map_grow m) = map_count m /\
  map_capacity (map_grow m) =
    (if map_capacity m <? 8 then 8 else map_capacity m * 2) /\
  map_count (map_grow m) < max_load_threshold (map_grow m).
Proof.
  intros Hok. unfold map_grow.
  pose proof (ok_length _ Hok) as Hlen.
  pose proof (ok_threshold _ Hok) as Hthr.
  pose proof (ok_load _ Hok) as Hload.
  pose proof (ok_count _ Hok) as Hcount.
  set (newcap := if map_capacity m <? 8 then 8 else map_capacity m * 2).
  assert (exists n, 3 <= n /\ newcap = 2 ^ n /\
            occupied (map_entries m) < Z.quot newcap 2) as (n & Hn & Hnew & Hroom).
  { unfold newcap. destruct (ok_capacity _ Hok) as [H0|(n & Hn & Hcap)].
    - rewrite H0 in *. exists 3. simpl. split; [lia|]. split; [done|].
      change (Z.quot 8 2) with 4. change (0 / 2) with 0 in Hthr. lia.
    - assert (8 <= 2 ^ n) by (change 8 with (2 ^ 3); apply Z.pow_le_mono_r; lia).
      destruct (Z.ltb_spec (map_capacity m) 8) as [?|_]; [lia|].
      exists (n + 1). split; [lia|]. rewrite Hcap in *.
      rewrite Z.pow_add_r by lia. change (2 ^ 1) with 2.
      split; [lia|]. rewrite Z.quot_div_nonneg by lia.
      rewrite Z.div_mul by lia.
      assert (2 ^ n / 2 < 2 ^ n) by (apply Z.div_lt; lia). lia. }
  rewrite Hnew in *.
  rewrite take_ge by lia.
  destruct (map_grow_prefix (map_entries m)
              (mkMap 0 (2 ^ n) (Z.quot (2 ^ n) 2) (replicate (Z.to_nat (2 ^ n)) None)))
    with (t := length (map_entries m))
    as (Hok' & Hcap' & Hthr' & Hcount' & Hcont'); simpl; try done; try lia.
  - intros i j e1 e2 H1 H2 Hk.
    pose proof (ok_find _ Hok _ _ H1) as F1.
    pose proof (ok_find _ Hok _ _ H2) as F2.
    rewrite (ok_hash _ Hok _ _ H1), Hk in F1.
    rewrite (ok_hash _ Hok _ _ H2) in F2.
    rewrite F1 in F2. injection F2. lia.
  - apply (ok_hash _ Hok).
  - by apply map_ok_fresh_table.
  - rewrite firstn_all in Hok', Hcap', Hthr', Hcount', Hcont'. simpl in *.
    split; [done|]. split; [|split; [lia|split; [done|lia]]].
    intros e. rewrite Hcont'. unfold map_contains. split.
    + intros (i & _ & Hi). by exists i.
    + intros [i Hi]. exists i. split; [by eapply lookup_lt_Some|done].
Qed.

(** *** [map_set] *)

Lemma map_set_spec m k v :
  map_ok m ->
  map_ok (map_set m k v) /\
  forall x, map_contains (map_set m k v) x <->
            x = mkMapEntry k v (str_hash k) \/ (map_contains m x /\ key x <> k).
Proof.
  intros Hok. unfold map_set.
  set (m1 := if map_count m =? max_load_threshold m then map_grow m else m).
  assert (map_ok m1 /\ (forall e, map_contains m1 e <-> map_contains m e) /\
          map_count m1 < max_load_threshold m1) as (Hok1 & Hcont1 & Hroom).
  { unfold m1. destruct (Z.eqb_spec (map_count m) (max_load_threshold m)) as [_|Hne].
    - destruct (map_grow_ok m Hok) as (? & ? & _ & _ & ?). done.
    - pose proof (ok_load _ Hok). split; [done|]. split; [done|lia]. }
  clearbody m1.
  assert (0 < map_capacity m1) as Hcap.
  { pose proof (ok_threshold _ Hok1) as Hthr. pose proof (ok_count _ Hok1).
    pose proof (occupied_nonneg (map_entries m1)).
    destruct (ok_capacity _ Hok1) as [Hz|(n & Hn & ->)].
    - rewrite Hz in Hthr. change (0 / 2) with 0 in Hthr. lia.
    - apply Z.pow_pos_nonneg; lia. }
  destruct (map_get m1 k) as [v0|] eqn:G.
  - apply map_get_Some in G as (e & [i Hi] & Hk & _); [|done].
    pose proof (ok_find _ Hok1 _ _ Hi) as F.
    pose proof (ok_hash _ Hok1 _ _ Hi) as Hh.
    rewrite Hh, Hk in F. rewrite F, Nat2Z.id, Hi.
    destruct (map_update_ok m1 i e v Hok1 Hi) as [Hok' Hcont'].
    split; [done|]. intros x. rewrite (Hcont' x), Hh, Hk, (Hcont1 x). done.
  - pose proof (proj1 (map_get_None m1 k Hok1) G) as Hfresh.
    destruct (map_insert_fresh m1 k v Hok1 Hcap Hroom Hfresh)
      as (p & Hp & Hempty & Hok' & Hcont').
    rewrite Hp, Hempty. split; [done|]. intros x. rewrite (Hcont' x), <- (Hcont1 x).
    split.
    + intros [Hx|Hx]; [by left|]. right. split; [done|]. by apply Hfresh.
    + intros [Hx|[Hx _]]; [by left|by right].
Qed.

Lemma map_set_ok m k v : map_ok m -> map_ok (map_set m k v).
Proof. intros Hok. apply (map_set_spec m k v Hok). Qed.

Lemma map_new_ok : map_ok (@map_new V).
Proof.
  constructor; simpl; try done. by left.
Qed.

(** Reading after writing: the key written reads as the value written and
    every other key reads as before. *)
Lemma map_get_set m k v k' :
  map_ok m ->
  map_get (map_set m k v) k' = if String.eqb k k' then Some v else map_get m k'.
Proof.
  intros Hok. destruct (map_set_spec m k v Hok) as [Hok' Hcont].
  destruct (String.eqb_spec k k') as [<-|Hne].
  - apply map_get_Some; [done|]. exists (mkMapEntry k v (str_hash k)).
    split; [|done]. apply Hcont. by left.
  - destruct (map_get m k') as [v'|] eqn:G.
    + apply map_get_Some in G as (e & He & Hk & Hv); [|done].
      apply map_get_Some; [done|]. exists e. split; [|done].
      apply Hcont. right. split; [done|]. congruence.
    + apply map_get_None; [done|]. intros e He.
      apply Hcont in He as [->|[He _]]; [done|].
      by apply (map_get_None m k' Hok).
Qed.

(** *** A sequence of [map_set] *)

(** The map after the calls [map_set(map, k, v)] for the pairs of [kvs], in
    their order, on a new map. *)
Definition map_of_list (kvs : list (string * V)) : Map V :=
  fold_left (fun m kv => map_set m (fst kv) (snd kv)) kvs map_new.

Lemma map_of_list_snoc kvs k v :
  map_of_list (kvs ++ [(k, v)]) = map_set (map_of_list kvs) k v.
Proof. unfold map_of_list. by rewrite fold_left_app. Qed.

Lemma map_of_list_ok kvs : map_ok (map_of_list kvs).
Proof.
  induction kvs as [|[k v] kvs IH] using rev_ind.
  - apply map_new_ok.
  - rewrite map_of_list_snoc. by apply map_set_ok.
Qed.

(** C6. For every sequence of pairwise distinct keys, of any length, after
    the keys are stored one after the other in a new map with [map_set],
    [map_get] on each of them is a hit and gives the value stored under it. *)
Theorem map_set_get_distinct (kvs : list (string * V)) (k : string) (v : V) :
  NoDup (map fst kvs) -> In (k, v) kvs ->
  map_get (map_of_list kvs) k = Some v.
Proof.
  induction kvs as [|[k0 v0] kvs IH] using rev_ind; [done|].
  rewrite map_app, in_app_iff. simpl. intros Hnd Hin.
  apply NoDup_app in Hnd as (Hnd & Hnotin & _).
  rewrite map_of_list_snoc, map_get_set by apply map_of_list_ok.
  destruct (String.eqb_spec k0 k) as [->|Hne].
  - destruct Hin as [Hin|[[= ->]|[]]]; [|done].
    exfalso. apply (Hnotin k); [|by left].
    apply list_elem_of_In, in_map_iff. by exists (k, v).
  - destruct Hin as [Hin|[[= -> ->]|[]]]; [by apply IH|done].
Qed.

(** After [map_set], [count] does not exceed half of the capacity. *)
Lemma map_set_load m k v :
  map_ok m ->
  2 * map_count (map_set m k v) <= map_capacity (map_set m k v).
Proof.
  intros Hok. pose proof (map_set_ok m k v Hok) as Hok'.
  pose proof (ok_load _ Hok'). pose proof (ok_threshold _ Hok') as Hthr.
  pose proof (ok_count _ Hok'). pose proof (occupied_nonneg (map_entries (map_set m k v))).
  destruct (ok_capacity _ Hok') as [Hz|(n & Hn & Hcap)].
  - rewrite Hz in *. change (0 / 2) with 0 in Hthr. lia.
  - assert (0 < map_capacity (map_set m k v)) by (rewrite Hcap; apply Z.pow_pos_nonneg; lia).
    pose proof (Z.mul_div_le (map_capacity (map_set m k v)) 2 ltac:(lia)). lia.
Qed.

(** [map_set] grows the table, to 8 slots or to twice as many, exactly when
    it is entered with [count] at the threshold, and stores at most one new
    entry. *)
Lemma map_set_capacity m k v :
  map_ok m ->
  map_capacity (map_set m k v)
    = (if map_count m =? max_load_threshold m
       then (if map_capacity m <? 8 then 8 else map_capacity m * 2)
       else map_capacity m) /\
  map_count m <= map_count (map_set m k v) <= map_count m + 1.
Proof.
  intros Hok. unfold map_set.
  set (m1 := if map_count m =? max_load_threshold m then map_grow m else m).
  assert (map_capacity m1
          = (if map_count m =? max_load_threshold m
             then (if map_capacity m <? 8 then 8 else map_capacity m * 2)
             else map_capacity m) /\ map_count m1 = map_count m) as [Hcap Hcount].
  { unfold m1. destruct (map_count m =? max_load_threshold m); [|done].
    by destruct (map_grow_ok m Hok) as (_ & _ & ? & ? & _). }
  rewrite <- Hcap, <- Hcount. clearbody m1.
  destruct (map_find m1 k (str_hash k)) as [i|]; [|lia].
  destruct (map_entries m1 !! Z.to_nat i) as [[e|]|]; simpl; lia.
Qed.

(** A map built by [map_set] from a new map has at most four slots for each
    entry, once it has more than the first eight: the capacity stays below
    2^31, the range of [int], while fewer than 2^29 entries are stored. *)
Lemma map_of_list_capacity kvs :
  map_capacity (map_of_list kvs) <= Z.max 8 (4 * map_count (map_of_list kvs)) /\
  map_count (map_of_list kvs) <= Z.of_nat (length kvs).
Proof.
  induction kvs as [|[k v] kvs [IHcap IHcount]] using rev_ind; [simpl; lia|].
  rewrite map_of_list_snoc, length_app. simpl length.
  pose proof (map_of_list_ok kvs) as Hok.
  destruct (map_set_capacity (map_of_list kvs) k v Hok) as [Hcap Hcount].
  pose proof (ok_threshold _ Hok) as Hthr.
  split; [|lia]. rewrite Hcap.
  destruct (Z.eqb_spec (map_count (map_of_list kvs))
              (max_load_threshold (map_of_list kvs))) as [Heq|_]; [|lia].
  destruct (Z.ltb_spec (map_capacity (map_of_list kvs)) 8); [lia|].
  destruct (ok_capacity _ Hok) as [Hz|(n & Hn & Hpow)]; [lia|].
  assert (map_capacity (map_of_list kvs) = 2 * (map_capacity (map_of_list kvs) / 2)).
  { assert (2 ^ n = 2 ^ (n - 1) * 2) as Hp.
    { rewrite Z.mul_comm, <- Z.pow_succ_r by lia. f_equal. lia. }
    rewrite Hpow, Hp, Z.div_mul by lia. lia. }
  lia.
Qed.

End map_proofs.

(** C6, at nine keys: the fifth and the ninth [map_set] grow the table. *)
Lemma map_set_get_distinct_witness :
  let kvs := [("a", 1); ("b", 2); ("c", 3); ("d", 4); ("e", 5);
              ("f", 6); ("g", 7); ("h", 8); ("i", 9)] in
  NoDup (map fst kvs) /\ In ("i", 9) kvs /\
  map_get (map_of_list kvs) "i" = Some 9.
Proof.
  intros kvs.
  assert (NoDup (map fst kvs)) as Hnd.
  { apply (bool_decide_unpack _). vm_compute. exact I. }
  assert (In ("i", 9) kvs) as Hin by (simpl; tauto).
  split; [exact Hnd|]. split; [exact Hin|].
  exact (map_set_get_distinct kvs "i" 9 Hnd Hin).
Defined.

(** C7. After four keys are stored in a new map, [count] is 4 and the
    capacity is 8: [count] is half of the capacity, not below it.  The map of
    a parser is in that state after [ap_flag(parser, "a b c d")]. *)
Theorem map_load_reaches_half :
  let m := map_of_list [("a", 1); ("b", 2); ("c", 3); ("d", 4)] in
  let options := option_map (ap_flag ap_new "a b c d") in
  map_count m = 4 /\ map_capacity m = 8 /\ max_load_threshold m = 4 /\
  ~ (2 * map_count m < map_capacity m) /\
  map_count options = 4 /\ map_capacity options = 8 /\
  ~ (2 * map_count options < map_capacity options).
Proof. vm_compute. split_and!; try done. Qed.

(** ** Growable arrays: Vec and the values of an Option *)

Section cells.
Context {A : Type}.
Implicit Types (cells : list (option A)) (vec : Vec A).

Lemma length_realloc cells (n : Z) :
  length (realloc cells n) = Z.to_nat n.
Proof. unfold realloc. rewrite length_app, length_take, length_replicate. lia. Qed.

Lemma take_realloc cells (n : Z) (k : nat) :
  (k <= length cells)%nat -> (k <= Z.to_nat n)%nat ->
  take k (realloc cells n) = take k cells.
Proof.
  intros Hk Hn. unfold realloc.
  rewrite take_app_le by (rewrite length_take; lia).
  rewrite take_take. f_equal. lia.
Qed.

(** Writing cell [k] of an array that has it makes the first [k + 1] cells
    the first [k] cells and the value written. *)
Lemma take_write cells (k : nat) (x : option A) :
  (k < length cells)%nat ->
  take (S k) (<[k := x]> cells) = take k cells ++ [x].
Proof.
  intros Hk. rewrite (take_S_r _ _ x) by (by apply list_lookup_insert_eq).
  by rewrite take_insert_ge.
Qed.

(** A Vec between two operations. *)
Definition vec_ok vec : Prop :=
  0 <= vec_count vec <= vec_capacity vec /\
  Z.of_nat (length (vec_entries vec)) = vec_capacity vec.

Lemma vec_new_ok : vec_ok (@vec_new A).
Proof. unfold vec_ok. simpl. lia. Qed.

Lemma vec_add_spec vec (x : A) :
  vec_ok vec ->
  vec_ok (vec_add vec x) /\
  vec_count (vec_add vec x) = vec_count vec + 1 /\
  vec_cells (vec_add vec x) = vec_cells vec ++ [Some x].
Proof.
  intros [Hc Hl]. unfold vec_add, vec_cells, vec_ok.
  destruct (Z.gtb_spec (vec_count vec + 1) (vec_capacity vec)) as [Hfull|Hroom]; simpl.
  - rewrite length_insert, length_realloc.
    replace (Z.to_nat (vec_count vec + 1)) with (S (Z.to_nat (vec_count vec))) by lia.
    destruct (Z.ltb_spec (vec_capacity vec) 8); (split; [lia|]); (split; [lia|]);
      (rewrite take_write by (rewrite length_realloc; lia));
      (rewrite take_realloc by lia); done.
  - rewrite length_insert.
    replace (Z.to_nat (vec_count vec + 1)) with (S (Z.to_nat (vec_count vec))) by lia.
    split; [lia|]. split; [lia|]. rewrite take_write by lia. done.
Qed.

Lemma vec_add_ok vec x : vec_ok vec -> vec_ok (vec_add vec x).
Proof. intros H. apply (vec_add_spec vec x H). Qed.


Lemma vec_add_all_spec vec (xs : list A) :
  vec_ok vec ->
  vec_ok (fold_left vec_add xs vec) /\
  vec_count (fold_left vec_add xs vec) = vec_count vec + Z.of_nat (length xs) /\
  vec_cells (fold_left vec_add xs vec) = vec_cells vec ++ map Some xs.
Proof.
  revert vec. induction xs as [|x xs IH]; intros vec Hok; simpl.
  - rewrite app_nil_r. split; [done|]. split; [lia|done].
  - destruct (vec_add_spec vec x Hok) as (Hok' & Hcount & Hcells).
    destruct (IH _ Hok') as (Hok'' & Hcount' & Hcells').
    split; [done|]. split; [lia|]. rewrite Hcells', Hcells, <- app_assoc. done.
Qed.

(** The cell that [vec_add] writes is the one at the old [count]. *)
Lemma vec_at_cells vec (i : Z) :
  0 <= i < vec_count vec -> vec_at vec i = mjoin (vec_cells vec !! Z.to_nat i).
Proof.
  intros Hi. unfold vec_at, vec_cells.
  destruct (Z.ltb_spec i 0); [lia|]. by rewrite lookup_take_lt by lia.
Qed.

Lemma vec_at_add_new vec x :
  vec_ok vec -> vec_at (vec_add vec x) (vec_count vec) = Some x.
Proof.
  intros Hok. destruct (vec_add_spec vec x Hok) as (_ & Hcount & Hcells).
  pose proof Hok as [Hc Hl].
  rewrite vec_at_cells by lia. rewrite Hcells.
  rewrite lookup_app_r; unfold vec_cells; rewrite length_take; [|lia].
  replace (_ - _)%nat with 0%nat by lia. done.
Qed.

(** Reading after [vec->entries[i] = y]. *)
Lemma vec_at_store vec (i : Z) (x y : A) :
  vec_at vec i = Some x -> vec_at (vec_store vec i y) i = Some y.
Proof.
  unfold vec_at, vec_store. simpl. destruct (i <? 0); [done|].
  destruct (vec_entries vec !! Z.to_nat i) as [o|] eqn:E; [|done]. intros _.
  rewrite list_lookup_insert_eq; [done|]. by eapply lookup_lt_Some.
Qed.

Lemma vec_at_store_ne vec (i j : Z) (x y : A) :
  vec_at vec i = Some x -> j <> i ->
  vec_at (vec_store vec i y) j = vec_at vec j.
Proof.
  unfold vec_at, vec_store. simpl.
  destruct (Z.ltb_spec i 0); [done|]. destruct (Z.ltb_spec j 0); [done|].
  intros _ Hne. rewrite list_lookup_insert_ne by lia. done.
Qed.

End cells.

(** *** The values of an Option *)

Definition opt_ok (opt : Option) : Prop :=
  0 <= opt_count opt <= opt_capacity opt /\
  Z.of_nat (length (opt_values opt)) = opt_capacity opt.

(** The cells [values[0 .. count-1]]. *)
Definition opt_history (opt : Option) : list (option OptionValue) :=
  take (Z.to_nat (opt_count opt)) (opt_values opt).

Lemma option_new_ok type fallback : opt_ok (option_new type fallback).
Proof. unfold opt_ok. simpl. lia. Qed.

Lemma option_append_value_spec opt v :
  opt_ok opt ->
  opt_ok (option_append_value opt v) /\
  opt_count (option_append_value opt v) = opt_count opt + 1 /\
  opt_history (option_append_value opt v) = opt_history opt ++ [Some v] /\
  opt_type (option_append_value opt v) = opt_type opt /\
  opt_fallback (option_append_value opt v) = opt_fallback opt.
Proof.
  intros [Hc Hl]. unfold option_append_value, opt_history, opt_ok.
  destruct (Z.gtb_spec (opt_count opt + 1) (opt_capacity opt)) as [Hfull|Hroom]; simpl.
  - rewrite length_insert, length_realloc.
    replace (Z.to_nat (opt_count opt + 1)) with (S (Z.to_nat (opt_count opt))) by lia.
    destruct (Z.ltb_spec (opt_capacity opt) 4); (split; [lia|]); (split; [lia|]);
      (rewrite take_write by (rewrite length_realloc; lia));
      (rewrite take_realloc by lia); done.
  - rewrite length_insert.
    replace (Z.to_nat (opt_count opt + 1)) with (S (Z.to_nat (opt_count opt))) by lia.
    split; [lia|]. split; [lia|]. rewrite take_write by lia. done.
Qed.

(** The option after the values [vs] were appended to it in their order. *)
Definition option_append_all (opt : Option) (vs : list OptionValue) : Option :=
  fold_left option_append_value vs opt.

Lemma option_append_all_spec opt vs :
  opt_ok opt ->
  opt_ok (option_append_all opt vs) /\
  opt_count (option_append_all opt vs) = opt_count opt + Z.of_nat (length vs) /\
  opt_history (option_append_all opt vs) = opt_history opt ++ map Some vs /\
  opt_type (option_append_all opt vs) = opt_type opt /\
  opt_fallback (option_append_all opt vs) = opt_fallback opt.
Proof.
  unfold option_append_all. revert opt.
  induction vs as [|v vs IH]; intros opt Hok; simpl.
  - rewrite app_nil_r. split_and!; try done. lia.
  - destruct (option_append_value_spec opt v Hok) as (Hok' & Hn & Hh & Ht & Hf).
    destruct (IH _ Hok') as (Hok'' & Hn' & Hh' & Ht' & Hf').
    split_and!; try done; try lia; try congruence.
    rewrite Hh', Hh, <- app_assoc. done.
Qed.

Lemma opt_cell_history opt (i : Z) :
  0 <= i < opt_count opt ->
  opt_cell opt i = mjoin (opt_history opt !! Z.to_nat i).
Proof.
  intros Hi. unfold opt_cell, opt_history.
  destruct (Z.ltb_spec i 0); [lia|]. by rewrite lookup_take_lt by lia.
Qed.

(** The copying loop of the list accessors reads the cells in their order. *)
Lemma option_copy_values_spec {A} (read : option OptionValue -> Outcome A)
    opt (l : list OptionValue) (xs : list A) (i : Z) :
  Forall2 (fun v x => read (Some v) = Ok x) l xs ->
  (forall (j : nat) v, l !! j = Some v -> opt_cell opt (i + Z.of_nat j) = Some v) ->
  option_copy_values read opt i (length l) = Ok xs.
Proof.
  intros Hall. revert i. induction Hall as [|v x l xs Hv Hall IH]; intros i Hcell; [done|].
  simpl.
  pose proof (Hcell 0%nat v eq_refl) as H0. rewrite Z.add_0_r in H0.
  rewrite H0, Hv. simpl. rewrite IH; [done|].
  intros j w Hj. specialize (Hcell (S j) w Hj).
  by replace (i + 1 + Z.of_nat j) with (i + Z.of_nat (S j)) by lia.
Qed.

(** The accessors of an option registered with [fallback] to which the
    values [wrap x], for the [x] of [xs], were appended. *)
Lemma option_accessors {A} (read : option OptionValue -> Outcome A)
    (wrap : A -> OptionValue) type (fallback : A) (xs : list A) :
  (forall x, read (Some (wrap x)) = Ok x) ->
  let opt := option_append_all (option_new type (Some (wrap fallback))) (map wrap xs) in
  opt_count opt = Z.of_nat (length xs) /\
  (if opt_count opt >? 0 then read (opt_cell opt (opt_count opt - 1))
   else read (opt_fallback opt)) = Ok (List.last xs fallback) /\
  option_get_list read opt = Ok (match xs with [] => None | _ => Some xs end).
Proof.
  intros Hread opt.
  destruct (option_append_all_spec (option_new type (Some (wrap fallback))) (map wrap xs))
    as (Hok & Hn & Hh & _ & Hf); [apply option_new_ok|].
  fold opt in Hok, Hn, Hh, Hf. simpl in Hn, Hh, Hf.
  rewrite length_map, Z.add_0_l in Hn.
  assert (forall (j : nat) x, xs !! j = Some x ->
            opt_cell opt (Z.of_nat j) = Some (wrap x)) as Hcell.
  { intros j x Hj. pose proof (lookup_lt_Some _ _ _ Hj).
    rewrite opt_cell_history by lia. rewrite Hh, Nat2Z.id.
    by rewrite !list_lookup_fmap, Hj. }
  split; [done|]. split.
  - rewrite Hn. destruct xs as [|x0 xs'] using rev_ind; [by rewrite Hf, Hread|].
    rewrite length_app in *. simpl length in *.
    destruct (Z.gtb_spec (Z.of_nat (length xs' + 1)) 0); [|lia].
    replace (Z.of_nat (length xs' + 1) - 1) with (Z.of_nat (length xs')) by lia.
    rewrite (Hcell _ x0); [|by rewrite lookup_app_r, Nat.sub_diag by lia].
    by rewrite Hread, List.last_last.
  - unfold option_get_list. rewrite Hn.
    destruct xs as [|x0 xs']; [done|].
    destruct (Z.eqb_spec (Z.of_nat (length (x0 :: xs'))) 0) as [H0|_]; [simpl in H0; lia|].
    rewrite Nat2Z.id, <- (length_map wrap).
    rewrite (option_copy_values_spec read opt _ (x0 :: xs')); [done| |].
    + apply Forall2_fmap_l, Forall2_same_length_lookup.
      split; [done|]. intros j a b Ha Hb. simpl. rewrite Ha in Hb. injection Hb as <-.
      apply Hread.
    + intros j v Hj. rewrite list_lookup_fmap in Hj.
      destruct ((x0 :: xs') !! j) as [x|] eqn:Hx; [|done].
      injection Hj as <-. rewrite Z.add_0_l. by apply Hcell.
Qed.

(** ** The argument stream *)

(** A stream between two reads: [count] is the length of [args] and the
    index is not past it. *)
Definition stream_ok (s : ArgStream) : Prop :=
  0 <= as_index s <= as_count s /\ as_count s = Z.of_nat (length (as_args s)).

(** The arguments that were not read yet. *)
Definition stream_rest (s : ArgStream) : list string :=
  drop (Z.to_nat (as_index s)) (as_args s).

(** The stream after one read, and after all of them. *)
Definition stream_advance (s : ArgStream) : ArgStream :=
  mkArgStream (as_count s) (as_index s + 1) (as_args s).

Definition stream_end (s : ArgStream) : ArgStream :=
  mkArgStream (as_count s) (as_count s) (as_args s).

Lemma argstream_new_ok (args : list string) :
  stream_ok (argstream_new (Z.of_nat (length args)) args) /\
  stream_rest (argstream_new (Z.of_nat (length args)) args) = args.
Proof. unfold stream_ok, stream_rest. simpl. split; [lia|done]. Qed.

Lemma stream_rest_nil s :
  stream_ok s -> (argstream_has_next s = false <-> stream_rest s = []).
Proof.
  intros [Hi Hc]. unfold argstream_has_next, stream_rest.
  rewrite Z.ltb_ge. split.
  - intros H. apply drop_ge. lia.
  - intros H. apply (f_equal length) in H. rewrite length_drop in H. simpl in H. lia.
Qed.

Lemma stream_rest_cons s arg rest :
  stream_ok s -> stream_rest s = arg :: rest ->
  argstream_has_next s = true /\
  argstream_next s = Ok (arg, stream_advance s) /\
  stream_ok (stream_advance s) /\
  stream_rest (stream_advance s) = rest.
Proof.
  intros [Hi Hc] Hrest. unfold stream_rest in *.
  assert (as_args s !! Z.to_nat (as_index s) = Some arg) as Harg.
  { rewrite <- (Nat.add_0_r (Z.to_nat _)), <- lookup_drop, Hrest. done. }
  pose proof (lookup_lt_Some _ _ _ Harg) as Hlt.
  unfold argstream_has_next, argstream_next, stream_ok, stream_advance. simpl.
  destruct (Z.ltb_spec (as_index s) (as_count s)); [|lia].
  destruct (Z.ltb_spec (as_index s) 0); [lia|].
  rewrite Harg. split; [done|]. split; [done|]. split; [lia|].
  replace (Z.to_nat (as_index s + 1)) with (S (Z.to_nat (as_index s))) by lia.
  rewrite (drop_S _ _ _ Harg) in Hrest. by injection Hrest.
Qed.

Lemma stream_rest_end s : stream_ok s -> stream_rest (stream_end s) = [].
Proof. intros [Hi Hc]. unfold stream_rest. simpl. apply drop_ge. lia. Qed.

(** The loop after [--] appends every argument left and ends the stream. *)
Lemma add_remaining_spec (n : nat) (vec : Vec string) s :
  stream_ok s -> n = Z.to_nat (as_count s - as_index s) ->
  add_remaining n vec s = Ok (fold_left vec_add (stream_rest s) vec, stream_end s).
Proof.
  revert vec s. induction n as [|n IH]; intros vec s Hok Hn.
  - assert (argstream_has_next s = false) as Hnext.
    { unfold argstream_has_next. apply Z.ltb_ge. destruct Hok. lia. }
    simpl. rewrite Hnext. apply stream_rest_nil in Hnext; [|done]. rewrite Hnext.
    simpl. do 2 f_equal. destruct s as [c i a], Hok as [Hi Hc]. unfold stream_end.
    simpl in *. f_equal. lia.
  - destruct (stream_rest s) as [|arg rest] eqn:Hrest.
    { apply stream_rest_nil in Hrest; [|done]. unfold argstream_has_next in Hrest.
      apply Z.ltb_ge in Hrest. lia. }
    destruct (stream_rest_cons s arg rest Hok Hrest) as (Hnext & Hread & Hok' & Hrest').
    simpl. rewrite Hnext, Hread. simpl.
    rewrite (IH _ (stream_advance s) Hok') by (simpl; lia).
    by rewrite Hrest'.
Qed.

(** ** The parser *)

Lemma obind_ret_calls {A B}
    (m : Outcome (A * B * list CallbackCall)) :
  (do (a, b, later) <- m; Ok (a, b, [] ++ later)) = m.
Proof. by destruct m as [[[a b] c]| | | |]. Qed.


(** The text up to the first ['='] and the text after it. *)
Lemma split_equals_app (name v : string) :
  has_equals name = false ->
  split_equals (name ++ String "=" v) = Some (name, v) /\
  has_equals (name ++ String "=" v) = true.
Proof.
  induction name as [|c name IH]; simpl; [done|].
  destruct (Ascii.eqb c "=") eqn:Hc; [done|]. simpl. intros Hn.
  destruct (IH Hn) as [-> ->]. done.
Qed.

Lemma prefix_cons (a b : ascii) (s t : string) :
  String.prefix (String a s) (String b t) = Ascii.eqb a b && String.prefix s t.
Proof.
  simpl. destruct (ascii_dec a b) as [->|Hne].
  - by rewrite Ascii.eqb_refl.
  - apply Ascii.eqb_neq in Hne. by rewrite Hne.
Qed.

Lemma prefix_nil (t : string) : String.prefix "" t = true.
Proof. by destruct t. Qed.

(** [arg] is an argument of the equals form, with [dashes] before [name],
    the text up to the first ['='], and [v], the text after it: two dashes,
    or one dash that is not followed by a second dash or by a digit. *)
Definition equals_form (arg dashes name v : string) : Prop :=
  has_equals arg = true /\
  ((dashes = "--"%string /\ String.prefix "--" arg = true /\
    split_equals (str_offset arg 2) = Some (name, v)) \/
   (dashes = "-"%string /\ String.prefix "-" arg = true /\
    String.prefix "--" arg = false /\ isdigit (char_at arg 1) = false /\
    split_equals (str_offset arg 1) = Some (name, v))).

Section parse_proofs.

Variable strtod : string -> float * string * bool.

Implicit Types (parser : ArgParser) (s : ArgStream).

(** One round of the loop on a stream that has an argument left. *)
Lemma ap_parse_loop_round fuel parser s is_first arg rest :
  stream_ok s -> stream_rest s = arg :: rest ->
  ap_parse_loop strtod (S fuel) parser s is_first =
    do (parser', s', calls) <-
      ap_parse_arg strtod
        (fun child s0 => ap_parse_loop strtod fuel child s0 true)
        parser (stream_advance s) is_first arg;
    do (parser'', s'', later) <- ap_parse_loop strtod fuel parser' s' false;
    Ok (parser'', s'', calls ++ later).
Proof.
  intros Hok Hrest.
  destruct (stream_rest_cons s arg rest Hok Hrest) as (Hnext & Hread & _).
  simpl. rewrite Hnext, Hread. done.
Qed.

Lemma ap_parse_loop_end fuel parser s is_first :
  argstream_has_next s = false ->
  ap_parse_loop strtod fuel parser s is_first = Ok (parser, s, []).
Proof. intros H. destruct fuel; simpl; by rewrite H. Qed.




(** What the specification says of an equals-form argument: the name is
    looked up; a name that is not registered is a fatal error, and so is the
    name of a flag; an empty value is a fatal error; otherwise the value is
    set on the option. *)
Definition equals_rule parser (dashes name v : string) : Outcome ArgParser :=
  match map_get (option_map parser) name with
  | None => Fatal (dashes ++ name ++ " is not a recognised option name")%string
  | Some ptr =>
      do opt <- option_at parser ptr;
      match opt_type opt with
      | OPT_FLAG => Fatal (dashes ++ name ++ " is not a recognised option name")%string
      | _ =>
          if String.eqb v "" then
            Fatal ("missing value for the " ++ dashes ++ name ++ " option")%string
          else
            do opt' <- option_try_set strtod opt v;
            Ok (store_option parser ptr opt')
      end
  end.

Lemma ap_handle_equals_opt_rule parser dashes arg name v :
  split_equals arg = Some (name, v) ->
  ap_handle_equals_opt strtod parser dashes arg = equals_rule parser dashes name v.
Proof.
  intros Hsplit. unfold ap_handle_equals_opt, equals_rule. rewrite Hsplit.
  destruct (map_get (option_map parser) name) as [ptr|]; [|done].
  destruct (option_at parser ptr) as [opt| | | |]; simpl; try done.
  destruct (opt_type opt); simpl; try done; by destruct v.
Qed.

(** A round on an argument of the equals form. *)
Lemma ap_parse_arg_equals recurse parser s is_first arg dashes name v :
  equals_form arg dashes name v ->
  ap_parse_arg strtod recurse parser s is_first arg
  = do parser' <- equals_rule parser dashes name v; Ok (parser', s, []).
Proof.
  intros [Heq [(-> & Hp2 & Hsplit)|(-> & Hp1 & Hp2 & Hd & Hsplit)]];
    unfold ap_parse_arg.
  - assert (String.eqb arg "--" = false) as ->.
    { apply String.eqb_neq. intros ->. done. }
    rewrite Hp2, Heq. by rewrite (ap_handle_equals_opt_rule _ _ _ name v).
  - assert (String.eqb arg "--" = false) as ->.
    { apply String.eqb_neq. intros ->. done. }
    rewrite Hp2, Hp1, Hd, Heq, orb_false_r.
    assert ((String.length arg =? 1)%nat = false) as ->.
    { by destruct arg as [|a [|b arg]]. }
    by rewrite (ap_handle_equals_opt_rule _ _ _ name v).
Qed.

(** C9. When the loop reads an argument that starts with one dash, not
    followed by a second dash or by a digit, and that holds an ['='], the
    text between the dash and the first ['='] is looked up as the name of an
    option and the text after the ['='] is its value; the argument is handled
    by the rule of the form [--name=value], with one dash in the messages: a
    name that is not registered and an empty value are fatal errors, and
    otherwise the value is set and the loop goes on. *)
Theorem short_equals_form fuel parser s is_first (arg name v : string)
    (rest : list string) :
  String.prefix "-" arg = true -> String.prefix "--" arg = false ->
  isdigit (char_at arg 1) = false -> has_equals arg = true ->
  split_equals (str_offset arg 1) = Some (name, v) ->
  stream_ok s -> stream_rest s = arg :: rest ->
  ap_parse_loop strtod (S fuel) parser s is_first
    = (do parser' <- equals_rule parser "-" name v;
       ap_parse_loop strtod fuel parser' (stream_advance s) false) /\
  (forall fuel2 s2 first2 arg2 rest2,
     String.prefix "--" arg2 = true -> has_equals arg2 = true ->
     split_equals (str_offset arg2 2) = Some (name, v) ->
     stream_ok s2 -> stream_rest s2 = arg2 :: rest2 ->
     ap_parse_loop strtod (S fuel2) parser s2 first2
       = (do parser' <- equals_rule parser "--" name v;
          ap_parse_loop strtod fuel2 parser' (stream_advance s2) false)).
Proof.
  intros Hp1 Hp2 Hd Heq Hsplit Hok Hrest. split.
  - rewrite (ap_parse_loop_round _ _ _ _ _ _ Hok Hrest).
    rewrite (ap_parse_arg_equals _ _ _ _ arg "-" name v).
    + destruct (equals_rule parser "-" name v); simpl; try done.
      apply obind_ret_calls.
    + split; [done|]. right. done.
  - intros fuel2 s2 first2 arg2 rest2 Hq2 Heq2 Hsplit2 Hok2 Hrest2.
    rewrite (ap_parse_loop_round _ _ _ _ _ _ Hok2 Hrest2).
    rewrite (ap_parse_arg_equals _ _ _ _ arg2 "--" name v).
    + destruct (equals_rule parser "--" name v); simpl; try done.
      apply obind_ret_calls.
    + split; [done|]. left. done.
Qed.

(** C10. When the loop reads an argument of the equals form, with two
    dashes or with one, whose name is the name of a registered flag, it ends
    in the fatal error that a name which is not registered gives, whatever
    the value is; with an empty value too, where an option that takes a
    value gives the error of the missing value. *)
Theorem equals_flag_unrecognised fuel parser s is_first
    (arg dashes name v : string) (rest : list string) (ptr : Z) (opt : Option) :
  equals_form arg dashes name v ->
  stream_ok s -> stream_rest s = arg :: rest ->
  map_get (option_map parser) name = Some ptr ->
  option_at parser ptr = Ok opt ->
  opt_type opt = OPT_FLAG ->
  ap_parse_loop strtod (S fuel) parser s is_first
    = Fatal (dashes ++ name ++ " is not a recognised option name")%string /\
  (forall parser', map_get (option_map parser') name = None ->
     ap_parse_loop strtod (S fuel) parser' s is_first
       = Fatal (dashes ++ name ++ " is not a recognised option name")%string) /\
  (forall parser' ptr' opt',
     map_get (option_map parser') name = Some ptr' ->
     option_at parser' ptr' = Ok opt' -> opt_type opt' <> OPT_FLAG ->
     v = ""%string ->
     ap_parse_loop strtod (S fuel) parser' s is_first
       = Fatal ("missing value for the " ++ dashes ++ name ++ " option")%string).
Proof.
  intros Hform Hok Hrest Hget Hat Hflag.
  assert (forall p, ap_parse_loop strtod (S fuel) p s is_first
            = do parser' <- equals_rule p dashes name v;
              ap_parse_loop strtod fuel parser' (stream_advance s) false) as Hround.
  { intros p. rewrite (ap_parse_loop_round _ _ _ _ _ _ Hok Hrest).
    rewrite (ap_parse_arg_equals _ _ _ _ arg dashes name v Hform).
    destruct (equals_rule p dashes name v); simpl; try done.
    apply obind_ret_calls. }
  split_and!.
  - rewrite Hround. unfold equals_rule. rewrite Hget, Hat. simpl. by rewrite Hflag.
  - intros parser' Hmiss. rewrite Hround. unfold equals_rule. by rewrite Hmiss.
  - intros parser' ptr' opt' Hget' Hat' Hnf ->. rewrite Hround.
    unfold equals_rule. rewrite Hget', Hat'. simpl.
    by destruct (opt_type opt').
Qed.


(** *** What a run leaves unchanged, and why the loop returns *)

(** [m] does not run out of fuel, and when it returns its result has [P]. *)
Definition returns {A} (P : A -> Prop) (m : Outcome A) : Prop :=
  match m with
  | Ok a => P a
  | OutOfFuel => False
  | _ => True
  end.

Lemma returns_bind {A B} (P : A -> Prop) (Q : B -> Prop) m (f : A -> Outcome B) :
  returns P m -> (forall a, P a -> returns Q (f a)) -> returns Q (obind m f).
Proof. destruct m; simpl; auto. Qed.

Lemma returns_weaken {A} (P Q : A -> Prop) m :
  returns P m -> (forall a, P a -> Q a) -> returns Q m.
Proof. destruct m; simpl; auto. Qed.

Lemma returns_Ok {A} (P : A -> Prop) m a : returns P m -> m = Ok a -> P a.
Proof. by intros H ->. Qed.

(** [s'] is [s] after some reads. *)
Definition stream_step s s' : Prop :=
  stream_ok s' /\ as_count s' = as_count s /\ as_args s' = as_args s /\
  as_index s <= as_index s'.

Lemma stream_step_refl s : stream_ok s -> stream_step s s.
Proof. unfold stream_step. intros H. split_and!; try done. Qed.

Lemma stream_step_trans s1 s2 s3 :
  stream_step s1 s2 -> stream_step s2 s3 -> stream_step s1 s3.
Proof. unfold stream_step. intros (?&?&?&?) (?&?&?&?). split_and!; try congruence; lia. Qed.

Lemma argstream_next_returns s :
  stream_ok s -> argstream_has_next s = true ->
  returns (fun r => stream_step s (snd r) /\ as_index (snd r) = as_index s + 1)
    (argstream_next s).
Proof.
  intros Hok Hnext. destruct (stream_rest s) as [|arg rest] eqn:Hrest.
  { apply stream_rest_nil in Hrest; [congruence|done]. }
  destruct (stream_rest_cons s arg rest Hok Hrest) as (_ & -> & Hok' & _).
  simpl. unfold stream_step. simpl. split_and!; try done. lia.
Qed.

(** [v] holds the member of the union that options of type [t] store. *)
Definition value_of_type (t : OptionType) (v : OptionValue) : Prop :=
  match t, v with
  | OPT_STR, str_val _ | OPT_INT, int_val _ | OPT_DBL, dbl_val _ => True
  | _, _ => False
  end.

(** An option after a run: its type and its fallback are those it was
    registered with, its count has not gone down, and an option that takes
    a value is the option before the run with values of its type appended. *)
Definition option_kept (opt opt' : Option) : Prop :=
  opt_type opt' = opt_type opt /\
  opt_fallback opt' = opt_fallback opt /\
  opt_count opt <= opt_count opt' /\
  (opt_type opt <> OPT_FLAG ->
   exists vs, Forall (value_of_type (opt_type opt)) vs /\
              opt' = option_append_all opt vs).

(** What a run keeps of a parser: the maps, the texts and the callback, and
    behind every pointer to an option an option of the same type and
    fallback. *)
Definition same_setup parser parser' : Prop :=
  option_map parser' = option_map parser /\
  command_map parser' = command_map parser /\
  helptext parser' = helptext parser /\
  version parser' = version parser /\
  callback parser' = callback parser /\
  cmd_help parser' = cmd_help parser /\
  forall ptr opt, option_at parser ptr = Ok opt ->
    exists opt', option_at parser' ptr = Ok opt' /\ option_kept opt opt'.

Lemma option_kept_refl opt : option_kept opt opt.
Proof. unfold option_kept. split_and!; try done. intros _. by exists []. Qed.

Lemma option_kept_trans opt1 opt2 opt3 :
  option_kept opt1 opt2 -> option_kept opt2 opt3 -> option_kept opt1 opt3.
Proof.
  unfold option_kept. intros (T2 & F2 & C2 & A2) (T3 & F3 & C3 & A3).
  split_and!; try congruence; try lia.
  intros Hnf. destruct (A2 Hnf) as (vs2 & Hv2 & ->).
  destruct A3 as (vs3 & Hv3 & ->); [congruence|].
  exists (vs2 ++ vs3). split.
  - apply Forall_app. split; [done|]. by rewrite <- T2.
  - unfold option_append_all. by rewrite fold_left_app.
Qed.

Lemma same_setup_options parser parser' :
  option_vec parser' = option_vec parser ->
  option_map parser' = option_map parser ->
  command_map parser' = command_map parser ->
  helptext parser' = helptext parser ->
  version parser' = version parser ->
  callback parser' = callback parser ->
  cmd_help parser' = cmd_help parser ->
  same_setup parser parser'.
Proof.
  intros Hv ? ? ? ? ? ?. unfold same_setup. split_and!; try done.
  intros ptr opt Hat. exists opt. split; [|apply option_kept_refl].
  unfold option_at in *. by rewrite Hv.
Qed.

Lemma same_setup_refl parser : same_setup parser parser.
Proof. by apply same_setup_options. Qed.

Lemma same_setup_trans p1 p2 p3 :
  same_setup p1 p2 -> same_setup p2 p3 -> same_setup p1 p3.
Proof.
  unfold same_setup. intros (?&?&?&?&?&?&H12) (?&?&?&?&?&?&H23).
  split_and!; try congruence.
  intros ptr opt Hat. destruct (H12 ptr opt Hat) as (opt2 & Hat2 & K2).
  destruct (H23 ptr opt2 Hat2) as (opt3 & Hat3 & K3).
  exists opt3. split; [done|]. by eapply option_kept_trans.
Qed.

Lemma option_at_cases parser ptr :
  (exists opt, option_at parser ptr = Ok opt) \/ option_at parser ptr = Undefined.
Proof. unfold option_at. destruct (vec_at _ _); eauto. Qed.

Lemma option_at_Ok parser ptr opt :
  option_at parser ptr = Ok opt <-> vec_at (option_vec parser) ptr = Some opt.
Proof.
  unfold option_at. destruct (vec_at _ _); split; intros; simplify_eq; done.
Qed.

(** Writing back an option that kept its type and fallback. *)
Lemma same_setup_store parser ptr opt opt' :
  option_at parser ptr = Ok opt -> option_kept opt opt' ->
  same_setup parser (store_option parser ptr opt').
Proof.
  intros Hat Hkept. unfold same_setup. split_and!; try done.
  intros ptr0 opt0 Hat0. apply option_at_Ok in Hat.
  destruct (decide (ptr0 = ptr)) as [->|Hne].
  - exists opt'. split.
    + apply option_at_Ok. simpl. by eapply vec_at_store.
    + apply option_at_Ok in Hat0. by simplify_eq.
  - exists opt0. split; [|apply option_kept_refl].
    apply option_at_Ok. apply option_at_Ok in Hat0. simpl.
    by rewrite (vec_at_store_ne _ _ _ opt).
Qed.

Lemma OptionType_eqb_eq (a b : OptionType) : OptionType_eqb a b = true <-> a = b.
Proof. by destruct a, b. Qed.

Lemma bump_count_kept opt :
  OptionType_eqb (opt_type opt) OPT_FLAG = true -> option_kept opt (bump_count opt).
Proof.
  intros Hflag%OptionType_eqb_eq. unfold option_kept. simpl.
  split_and!; try done. lia.
Qed.

Lemma option_append_value_kept opt v :
  value_of_type (opt_type opt) v -> option_kept opt (option_append_value opt v).
Proof.
  intros Hv. unfold option_kept. split_and!.
  - unfold option_append_value. by destruct (_ >? _).
  - unfold option_append_value. by destruct (_ >? _).
  - unfold option_append_value. destruct (_ >? _); simpl; lia.
  - intros _. exists [v]. split; [by constructor|done].
Qed.

Lemma try_str_to_int_returns arg : returns (fun _ => True) (try_str_to_int arg).
Proof.
  unfold try_str_to_int. destruct (strtol arg) as [[r e] b].
  destruct (_ || _); [done|]. by destruct (negb _).
Qed.

Lemma try_str_to_double_returns arg :
  returns (fun _ => True) (try_str_to_double strtod arg).
Proof.
  unfold try_str_to_double. destruct (strtod arg) as [[r e] b].
  destruct b; [done|]. by destruct (negb _).
Qed.

Lemma option_try_set_returns opt arg :
  returns (option_kept opt) (option_try_set strtod opt arg).
Proof.
  unfold option_try_set. destruct (opt_type opt) eqn:Ht; simpl.
  - apply option_kept_refl.
  - apply option_append_value_kept. by rewrite Ht.
  - eapply returns_bind; [apply try_str_to_int_returns|].
    intros v _. apply option_append_value_kept. by rewrite Ht.
  - eapply returns_bind; [apply try_str_to_double_returns|].
    intros v _. apply option_append_value_kept. by rewrite Ht.
Qed.

Lemma ap_handle_equals_opt_returns parser dashes arg :
  returns (same_setup parser) (ap_handle_equals_opt strtod parser dashes arg).
Proof.
  unfold ap_handle_equals_opt.
  destruct (split_equals arg) as [[name v]|]; [|done].
  destruct (map_get _ name) as [ptr|]; [|done].
  destruct (option_at_cases parser ptr) as [[opt Hat]|Hat]; rewrite Hat; cbn [obind];
    [|done].
  destruct (OptionType_eqb _ _); [done|]. destruct (_ =? _)%nat; [done|].
  eapply returns_bind; [apply option_try_set_returns|]. intros opt' Hkept.
  by eapply same_setup_store.
Qed.

Lemma ap_handle_long_opt_returns parser arg s :
  stream_ok s ->
  returns (fun r => same_setup parser (fst r) /\ stream_step s (snd r))
    (ap_handle_long_opt strtod parser arg s).
Proof.
  intros Hok. unfold ap_handle_long_opt.
  destruct (map_get _ arg) as [ptr|].
  - destruct (option_at_cases parser ptr) as [[opt Hat]|Hat]; rewrite Hat; cbn [obind];
    [|done].
    destruct (OptionType_eqb _ _) eqn:Hflag.
    { simpl. split; [|by apply stream_step_refl].
      eapply same_setup_store; [done|by apply bump_count_kept]. }
    destruct (argstream_has_next s) eqn:Hnext; [|done].
    eapply returns_bind; [by apply argstream_next_returns|]. intros [v s'] [Hstep _].
    eapply returns_bind; [apply option_try_set_returns|]. intros opt' Hkept.
    simpl. split; [|done]. by eapply same_setup_store.
  - destruct (if String.eqb arg "help" then _ else _); [done|].
    by destruct (if String.eqb arg "version" then _ else _).
Qed.

Lemma ap_handle_short_loop_returns parser arg rest s :
  stream_ok s ->
  returns (fun r => same_setup parser (fst r) /\ stream_step s (snd r))
    (ap_handle_short_loop strtod parser arg rest s).
Proof.
  revert parser s. induction rest as [|c rest IH]; intros parser s Hok; simpl.
  { split; [apply same_setup_refl|by apply stream_step_refl]. }
  destruct (map_get _ _) as [ptr|].
  - destruct (option_at_cases parser ptr) as [[opt Hat]|Hat]; rewrite Hat; cbn [obind];
    [|done].
    destruct (OptionType_eqb _ _) eqn:Hflag.
    { eapply returns_weaken; [by apply IH|]. intros [p' s'] [Hs Hst].
      split; [|done]. eapply same_setup_trans; [|apply Hs].
      eapply same_setup_store; [done|by apply bump_count_kept]. }
    destruct (argstream_has_next s) eqn:Hnext.
    + eapply returns_bind; [by apply argstream_next_returns|]. intros [v s'] [Hstep _].
      eapply returns_bind; [apply option_try_set_returns|]. intros opt' Hkept.
      eapply returns_weaken; [apply IH, Hstep|]. intros [p'' s''] [Hs Hst].
      split; [|by eapply stream_step_trans].
      eapply same_setup_trans; [|apply Hs]. by eapply same_setup_store.
    + by destruct (_ <? _)%nat.
  - destruct (if Ascii.eqb c "h" then _ else _); [done|].
    destruct (if Ascii.eqb c "v" then _ else _); [done|].
    by destruct (_ <? _)%nat.
Qed.

Lemma ap_handle_help_cmd_returns parser s :
  stream_ok s ->
  returns (fun _ => False) (ap_handle_help_cmd parser s).
Proof.
  intros Hok. unfold ap_handle_help_cmd.
  destruct (argstream_has_next s) eqn:Hnext; [|done].
  eapply returns_bind; [by apply argstream_next_returns|]. intros [name s'] _.
  destruct (map_get _ name) as [ptr|]; [|done]. by destruct (vec_at _ ptr).
Qed.

(** One round of the loop, when the call for a command behaves as the loop
    does. *)
Lemma ap_parse_arg_returns recurse parser s is_first arg :
  stream_ok s ->
  (forall child,
     returns (fun r => stream_step s (snd (fst r)) /\
                       argstream_has_next (snd (fst r)) = false)
       (recurse child s)) ->
  returns (fun r => same_setup parser (fst (fst r)) /\ stream_step s (snd (fst r)))
    (ap_parse_arg strtod recurse parser s is_first arg).
Proof.
  intros Hok Hrec. unfold ap_parse_arg.
  destruct (String.eqb arg "--").
  { rewrite (add_remaining_spec _ _ _ Hok eq_refl). simpl.
    split; [by apply same_setup_options|].
    destruct Hok as [Hi Hc]. unfold stream_step, stream_ok. simpl. split_and!; try done; lia. }
  destruct (String.prefix "--" arg).
  { destruct (has_equals arg).
    - eapply returns_bind; [apply ap_handle_equals_opt_returns|]. intros p' Hs.
      simpl. split; [done|by apply stream_step_refl].
    - eapply returns_bind; [by apply ap_handle_long_opt_returns|]. by intros [p' s'] Hs. }
  destruct (String.prefix "-" arg).
  { destruct (_ || _).
    { simpl. split; [by apply same_setup_options|by apply stream_step_refl]. }
    destruct (has_equals arg).
    - eapply returns_bind; [apply ap_handle_equals_opt_returns|]. intros p' Hs.
      simpl. split; [done|by apply stream_step_refl].
    - eapply returns_bind; [by apply ap_handle_short_loop_returns|]. by intros [p' s'] Hs. }
  destruct (if is_first then _ else _) as [ptr|].
  - destruct (vec_at _ ptr) as [child|]; [|done].
    eapply returns_bind; [apply Hrec|]. intros [[c' s'] calls] [Hst _]. simpl.
    split; [by apply same_setup_options|done].
  - destruct (_ && _).
    + eapply returns_bind; [by apply ap_handle_help_cmd_returns|]. by intros [p' s'] [].
    + simpl. split; [by apply same_setup_options|by apply stream_step_refl].
Qed.

(** The loop returns when it is entered with more fuel than there are
    arguments left; it returns at the end of the stream, and it has not
    written the maps, the texts or the callback of the parser. *)
Lemma ap_parse_loop_fuel fuel parser s is_first :
  stream_ok s -> as_count s - as_index s < Z.of_nat fuel ->
  returns (fun r => same_setup parser (fst (fst r)) /\
                    stream_step s (snd (fst r)) /\
                    argstream_has_next (snd (fst r)) = false)
    (ap_parse_loop strtod fuel parser s is_first).
Proof.
  revert parser s is_first.
  induction fuel as [|fuel IH]; intros parser s is_first Hok Hfuel.
  { destruct Hok. lia. }
  destruct (argstream_has_next s) eqn:Hnext.
  2:{ rewrite ap_parse_loop_end by done. simpl.
      split; [apply same_setup_refl|]. split; [by apply stream_step_refl|done]. }
  destruct (stream_rest s) as [|arg rest] eqn:Hrest.
  { apply stream_rest_nil in Hrest; [congruence|done]. }
  rewrite (ap_parse_loop_round _ _ _ _ _ _ Hok Hrest).
  destruct (stream_rest_cons s arg rest Hok Hrest) as (_ & _ & Hok1 & _).
  assert (stream_step s (stream_advance s)) as Hadv.
  { unfold stream_step. simpl. split_and!; try done. lia. }
  eapply returns_bind.
  { apply ap_parse_arg_returns; [done|]. intros child.
    eapply returns_weaken; [apply IH; [done|simpl; lia]|].
    intros [[c' s'] calls] (_ & ? & ?). done. }
  intros [[p1 s1] calls] [Hs1 Hst1]. simpl in Hs1, Hst1.
  eapply returns_bind.
  { apply IH; [apply Hst1|]. destruct Hst1 as (_ & -> & _ & ?). simpl in *. lia. }
  intros [[p2 s2] later] (Hs2 & Hst2 & Hend). simpl in *.
  split; [by eapply same_setup_trans|]. split; [|done].
  eapply stream_step_trans; [apply Hadv|]. by eapply stream_step_trans.
Qed.

(** [ap_parse_array] returns, exits or stops at undefined behaviour of the C
    code; it is never short of fuel. *)
Lemma ap_parse_array_returns parser (args : list string) :
  returns (fun r => same_setup parser (fst r)) (ap_parse_array strtod parser args).
Proof.
  unfold ap_parse_array, ap_parse_stream.
  destruct (argstream_new_ok args) as [Hok _].
  eapply returns_bind.
  { apply ap_parse_loop_fuel; [done|]. simpl. lia. }
  by intros [[p s] calls] (Hs & _).
Qed.

(** *** Commands *)

Lemma not_dash_prefix (arg : string) :
  String.prefix "-" arg = false ->
  String.eqb arg "--" = false /\ String.prefix "--" arg = false.
Proof.
  destruct arg as [|a arg]; [done|].
  rewrite !prefix_cons, prefix_nil, andb_true_r. intros Ha.
  rewrite Ha. split; [|done]. apply String.eqb_neq. intros [= -> _]. done.
Qed.

Lemma map_set_all_get {V} (m : Map V) (ws : list string) (v : V) :
  map_ok m ->
  map_ok (fold_left (fun m k => map_set m k v) ws m) /\
  forall w, In w ws ->
    map_get (fold_left (fun m k => map_set m k v) ws m) w = Some v.
Proof.
  intros Hok. induction ws as [|k ws [IHok IH]] using rev_ind; [done|].
  rewrite fold_left_app. simpl. split; [by apply map_set_ok|].
  intros w Hw. rewrite map_get_set by done.
  destruct (String.eqb_spec k w) as [|Hne]; [done|].
  apply in_app_iff in Hw as [Hw|[->|[]]]; [by apply IH|done].
Qed.

(** A command that was just registered: each of its words is bound to the
    new parser, which [ap_cmd] returns. *)
Lemma ap_cmd_registered parser (names w : string) :
  map_ok (command_map parser) -> vec_ok (command_vec parser) ->
  In w (strtok names) ->
  map_get (command_map (fst (ap_cmd parser names))) w
    = Some (snd (ap_cmd parser names)) /\
  vec_at (command_vec (fst (ap_cmd parser names))) (snd (ap_cmd parser names))
    = Some ap_new.
Proof.
  intros Hmap Hvec Hw. unfold ap_cmd, map_set_splitkey. simpl. split.
  - by apply map_set_all_get.
  - by apply vec_at_add_new.
Qed.

(** C1. When the first argument does not start with a dash and is the name
    of a registered command, [ap_parse_array] on the parser is the run of
    the parser of the command on the same stream, one argument further: the
    parent records the name and the parser of the command and the state the
    run left the child in, the callback of the child is called after the
    run, the run ends at the end of the stream, so every argument after the
    name went to the child, and the positional arguments of the parent are
    what they were. *)
Theorem command_match_terminal parser (cmd : string) (rest : list string)
    (ptr : Z) (child : ArgParser) :
  String.prefix "-" cmd = false ->
  map_get (command_map parser) cmd = Some ptr ->
  vec_at (command_vec parser) ptr = Some child ->
  let args := cmd :: rest in
  let s1 := stream_advance (argstream_new (Z.of_nat (length args)) args) in
  let run_child := ap_parse_stream strtod (S (length rest)) child s1 in
  ap_parse_array strtod parser args
    = (do (child', _, calls) <- run_child;
       Ok (set_command_vec (set_cmd parser cmd ptr)
             (vec_store (command_vec parser) ptr child'),
           calls ++ match callback child' with
                    | Some fn => [mkCallbackCall fn cmd child']
                    | None => []
                    end)) /\
  returns (fun r => stream_rest (snd (fst r)) = []) run_child /\
  forall parser' calls,
    ap_parse_array strtod parser args = Ok (parser', calls) ->
    ap_cmd_name parser' = Some cmd /\
    positional_args parser' = positional_args parser /\
    exists child' s' calls',
      run_child = Ok (child', s', calls') /\
      ap_cmd_parser parser' = Some child'.
Proof.
  intros Hdash Hget Hchild args s1 run_child.
  destruct (argstream_new_ok args) as [Hok0 Hrest0].
  destruct (stream_rest_cons _ cmd rest Hok0 Hrest0) as (_ & _ & Hok1 & Hrest1).
  fold s1 in Hok1, Hrest1.
  assert (returns (fun r => same_setup child (fst (fst r)) /\
                            stream_step s1 (snd (fst r)) /\
                            argstream_has_next (snd (fst r)) = false) run_child) as Hrun.
  { apply ap_parse_loop_fuel; [done|]. simpl. lia. }
  assert (ap_parse_array strtod parser args
          = (do (child', _, calls) <- run_child;
             Ok (set_command_vec (set_cmd parser cmd ptr)
                   (vec_store (command_vec parser) ptr child'),
                 calls ++ match callback child' with
                          | Some fn => [mkCallbackCall fn cmd child']
                          | None => []
                          end))) as Heq.
  { unfold ap_parse_array, ap_parse_stream.
    rewrite (ap_parse_loop_round _ _ _ _ _ _ Hok0 Hrest0).
    unfold ap_parse_arg. destruct (not_dash_prefix cmd Hdash) as [-> ->].
    rewrite Hdash, Hget, Hchild. fold s1.
    change (length args) with (S (length rest)).
    fold (ap_parse_stream strtod (S (length rest)) child s1). fold run_child.
    clearbody run_child.
    destruct run_child as [[[child' s'] calls]| | | |]; cbn [obind]; try done.
    destruct Hrun as (_ & _ & Hend).
    rewrite ap_parse_loop_end by done. cbn [obind]. by rewrite app_nil_r. }
  split; [done|]. split.
  { eapply returns_weaken; [apply Hrun|]. intros [[c' s'] calls] (_ & Hst & Hend).
    apply stream_rest_nil; [apply Hst|done]. }
  intros parser' calls. rewrite Heq. clear Heq Hrun. clearbody run_child.
  destruct run_child as [[[child' s'] calls']| | | |]; cbn [obind]; try done.
  intros [= <- <-]. split; [done|]. split; [done|].
  exists child', s', calls'. split; [done|].
  unfold ap_cmd_parser. simpl. by eapply vec_at_store.
Qed.

(** *** Aliases *)

Lemma register_option_get parser (name : string) (opt : Option) (w : string) :
  map_ok (option_map parser) -> vec_ok (option_vec parser) ->
  In w (strtok name) ->
  map_get (option_map (register_option parser name opt)) w
    = Some (vec_count (option_vec parser)) /\
  option_at (register_option parser name opt) (vec_count (option_vec parser))
    = Ok opt.
Proof.
  intros Hmap Hvec Hw. unfold register_option, option_at, map_set_splitkey. simpl.
  split.
  - by apply map_set_all_get.
  - by rewrite vec_at_add_new.
Qed.

(** C5. After an option is registered under a string of words, by [ap_flag]
    or by one of the three functions for options that take a value, every
    word is bound to the one Option that was just created, and after any
    run of the parser that returns, a query gives the same answer under any
    two of the words. *)
Theorem alias_words_share parser (name : string) (opt : Option) (w1 w2 : string) :
  map_ok (option_map parser) -> vec_ok (option_vec parser) ->
  In w1 (strtok name) -> In w2 (strtok name) ->
  let parser1 := register_option parser name opt in
  let ptr := vec_count (option_vec parser) in
  map_get (option_map parser1) w1 = Some ptr /\
  map_get (option_map parser1) w2 = Some ptr /\
  option_at parser1 ptr = Ok opt /\
  forall (args : list string) parser2 calls,
    ap_parse_array strtod parser1 args = Ok (parser2, calls) ->
    ap_get_opt parser2 w1 = ap_get_opt parser2 w2 /\
    ap_found parser2 w1 = ap_found parser2 w2 /\
    ap_count parser2 w1 = ap_count parser2 w2 /\
    ap_str_value parser2 w1 = ap_str_value parser2 w2 /\
    ap_int_value parser2 w1 = ap_int_value parser2 w2 /\
    ap_dbl_value parser2 w1 = ap_dbl_value parser2 w2 /\
    ap_str_values parser2 w1 = ap_str_values parser2 w2 /\
    ap_int_values parser2 w1 = ap_int_values parser2 w2 /\
    ap_dbl_values parser2 w1 = ap_dbl_values parser2 w2.
Proof.
  intros Hmap Hvec Hw1 Hw2 parser1 ptr.
  destruct (register_option_get parser name opt w1 Hmap Hvec Hw1) as [H1 Hat].
  destruct (register_option_get parser name opt w2 Hmap Hvec Hw2) as [H2 _].
  split; [done|]. split; [done|]. split; [done|].
  intros args parser2 calls Hrun.
  pose proof (returns_Ok _ _ _ (ap_parse_array_returns parser1 args) Hrun) as Hsame.
  destruct Hsame as (Hopts & _). cbn [fst] in Hopts.
  assert (ap_get_opt parser2 w1 = ap_get_opt parser2 w2) as Hget.
  { unfold ap_get_opt. rewrite Hopts. unfold parser1. by rewrite H1, H2. }
  unfold ap_found, ap_count, ap_str_value, ap_int_value, ap_dbl_value,
    ap_str_values, ap_int_values, ap_dbl_values.
  rewrite Hget. done.
Qed.

(** *** The values of an option *)

Lemma values_of_type_int (vs : list OptionValue) :
  Forall (value_of_type OPT_INT) vs -> exists xs, vs = map int_val xs.
Proof.
  induction 1 as [|v vs Hv _ [xs ->]]; [by exists []|].
  destruct v as [|x|]; try done. by exists (x :: xs).
Qed.

(** An option registered with a fallback, to which values were appended:
    the scalar accessor returns the value appended last, or the fallback
    when none was; the list accessor returns all the values in the order in
    which they were appended, or NULL when there is none.  This holds for
    integer, string and floating-point options alike.  And after every run
    of a parser, an integer option that was registered on it is, under each
    of its words, the registered option with some integers appended. *)
Lemma accessors_of_history :
  (forall (fallback : Z) (xs : list Z),
     let opt := option_append_all (option_new_int fallback) (map int_val xs) in
     option_get_int opt = Ok (List.last xs fallback) /\
     option_get_int_list opt = Ok (match xs with [] => None | _ => Some xs end)) /\
  (forall (fallback : string) (xs : list string),
     let opt := option_append_all (option_new_str fallback) (map str_val xs) in
     option_get_str opt = Ok (List.last xs fallback) /\
     option_get_str_list opt = Ok (match xs with [] => None | _ => Some xs end)) /\
  (forall (fallback : float) (xs : list float),
     let opt := option_append_all (option_new_double fallback) (map dbl_val xs) in
     option_get_double opt = Ok (List.last xs fallback) /\
     option_get_double_list opt = Ok (match xs with [] => None | _ => Some xs end)) /\
  (forall parser (names : string) (fallback : Z) (w : string)
          (args : list string) parser' calls,
     map_ok (option_map parser) -> vec_ok (option_vec parser) ->
     In w (strtok names) ->
     ap_parse_array strtod (ap_int_opt parser names fallback) args
       = Ok (parser', calls) ->
     exists xs : list Z,
       ap_get_opt parser' w
         = Ok (option_append_all (option_new_int fallback) (map int_val xs)) /\
       ap_count parser' w = Ok (Z.of_nat (length xs)) /\
       ap_int_value parser' w = Ok (List.last xs fallback) /\
       ap_int_values parser' w
         = Ok (match xs with [] => None | _ => Some xs end)).
Proof.
  split_and!.
  - intros fallback xs opt.
    by destruct (option_accessors read_int_val int_val OPT_INT fallback xs) as (_ & H1 & H2).
  - intros fallback xs opt.
    by destruct (option_accessors read_str_val str_val OPT_STR fallback xs) as (_ & H1 & H2).
  - intros fallback xs opt.
    by destruct (option_accessors read_dbl_val dbl_val OPT_DBL fallback xs) as (_ & H1 & H2).
  - intros parser names fallback w args parser' calls Hmap Hvec Hw Hrun.
    destruct (register_option_get parser names (option_new_int fallback) w Hmap Hvec Hw)
      as [Hget Hat].
    pose proof (returns_Ok _ _ _ (ap_parse_array_returns _ args) Hrun) as Hsame.
    destruct Hsame as (Hopts & _ & _ & _ & _ & _ & Hkept). cbn [fst] in *.
    destruct (Hkept _ _ Hat) as (opt' & Hat' & _ & _ & _ & Happ).
    destruct Happ as (vs & Hvs & ->); [done|].
    apply values_of_type_int in Hvs as [xs ->].
    exists xs.
    assert (ap_get_opt parser' w
            = Ok (option_append_all (option_new_int fallback) (map int_val xs))) as Hopt.
    { unfold ap_get_opt. rewrite Hopts. unfold ap_int_opt. by rewrite Hget, Hat'. }
    destruct (option_accessors read_int_val int_val OPT_INT fallback xs) as (H0 & H1 & H2); [done|].
    unfold ap_count, ap_int_value, ap_int_values. rewrite Hopt. cbn [obind].
    split; [done|]. split; [by rewrite <- H0|]. done.
Qed.

(** *** The fallback *)

(** An option that was just registered reads as not found, and an integer
    option as its fallback, under each of its words. *)
Lemma ap_int_opt_not_found parser (name : string) (fallback : Z) (w : string) :
  map_ok (option_map parser) -> vec_ok (option_vec parser) ->
  In w (strtok name) ->
  ap_count (ap_int_opt parser name fallback) w = Ok 0 /\
  ap_int_value (ap_int_opt parser name fallback) w = Ok fallback.
Proof.
  intros Hmap Hvec Hw. unfold ap_count, ap_int_value, ap_get_opt, ap_int_opt.
  destruct (register_option_get parser name (option_new_int fallback) w Hmap Hvec Hw)
    as [-> ->].
  done.
Qed.

(** A registered integer option after a run: under each of its words it is
    an option with the fallback it was registered with. *)
Lemma ap_int_opt_after_run parser (names : string) (fallback : Z) (w : string)
    (args : list string) parser' calls :
  map_ok (option_map parser) -> vec_ok (option_vec parser) ->
  In w (strtok names) ->
  ap_parse_array strtod (ap_int_opt parser names fallback) args = Ok (parser', calls) ->
  exists opt, ap_get_opt parser' w = Ok opt /\
              opt_fallback opt = Some (int_val fallback) /\ opt_type opt = OPT_INT.
Proof.
  intros Hmap Hvec Hw Hrun.
  destruct (register_option_get parser names (option_new_int fallback) w Hmap Hvec Hw)
    as [Hget Hat].
  pose proof (returns_Ok _ _ _ (ap_parse_array_returns _ args) Hrun) as Hsame.
  destruct Hsame as (Hopts & _ & _ & _ & _ & _ & Hkept). cbn [fst] in *.
  destruct (Hkept _ _ Hat) as (opt' & Hat' & Ht & Hf & _ & _).
  exists opt'. unfold ap_get_opt. rewrite Hopts. unfold ap_int_opt.
  rewrite Hget, Hat'. done.
Qed.

(** C8. When the count of a name is zero, [ap_found] returns false and
    [ap_int_value] returns the fallback of the option the name is bound to
    (a name bound to no option has no count: [ap_count] is a fatal error).
    [ap_found] is the test that the count is positive.  And an integer
    option registered with a fallback reads as that fallback, under each of
    its words, after every run that left its count at zero. *)
Theorem fallback_when_not_found parser (name : string) :
  ap_count parser name = Ok 0 ->
  ap_found parser name = Ok false /\
  (exists opt,
     ap_get_opt parser name = Ok opt /\ opt_count opt = 0 /\
     forall fallback, opt_fallback opt = Some (int_val fallback) ->
       ap_int_value parser name = Ok fallback) /\
  (forall parser1 name1,
     ap_found parser1 name1 = (do c <- ap_count parser1 name1; Ok (c >? 0))) /\
  (forall parser0 names fallback w args parser' calls,
     map_ok (option_map parser0) -> vec_ok (option_vec parser0) ->
     In w (strtok names) ->
     ap_parse_array strtod (ap_int_opt parser0 names fallback) args
       = Ok (parser', calls) ->
     ap_count parser' w = Ok 0 ->
     ap_int_value parser' w = Ok fallback).
Proof.
  assert (forall p n, ap_count p n = Ok 0 ->
            exists opt, ap_get_opt p n = Ok opt /\ opt_count opt = 0 /\
              forall fallback, opt_fallback opt = Some (int_val fallback) ->
                ap_int_value p n = Ok fallback) as Hlaw.
  { intros p n Hcount. unfold ap_count, ap_int_value in *.
    destruct (ap_get_opt p n) as [opt| | | |]; try done.
    simpl in Hcount. injection Hcount as Hcount.
    exists opt. split; [done|]. split; [done|]. intros fallback Hfb. simpl.
    unfold option_get_int. by rewrite Hcount, Hfb. }
  intros Hcount. split_and!.
  - unfold ap_found, ap_count in *.
    destruct (ap_get_opt parser name) as [opt| | | |]; try done.
    simpl in *. by injection Hcount as ->.
  - by apply Hlaw.
  - intros parser1 name1. unfold ap_found, ap_count.
    by destruct (ap_get_opt parser1 name1).
  - intros parser0 names fallback w args parser' calls Hmap Hvec Hw Hrun Hzero.
    destruct (ap_int_opt_after_run parser0 names fallback w args parser' calls
                Hmap Hvec Hw Hrun) as (opt & Hopt & Hfb & _).
    destruct (Hlaw parser' w Hzero) as (opt' & Hopt' & _ & Hval).
    apply Hval. congruence.
Qed.

(** *** Parsers built through the interface, and runs without undefined
    behaviour *)

(** A pointer into a Vec: the index of a cell below [count] that was written. *)
Definition pointer_ok {A} (vec : Vec A) (ptr : Z) : Prop :=
  0 <= ptr < vec_count vec /\ is_Some (vec_at vec ptr).

(** A parser as the interface builds it: its maps and arrays are well formed,
    the maps hold pointers into the arrays, and the parsers of its commands
    are such parsers. *)
Inductive parser_ok : ArgParser -> Prop :=
  | parser_ok_intro parser :
      map_ok (option_map parser) -> map_ok (command_map parser) ->
      vec_ok (option_vec parser) -> vec_ok (command_vec parser) ->
      vec_ok (positional_args parser) ->
      (forall name ptr, map_get (option_map parser) name = Some ptr ->
                        pointer_ok (option_vec parser) ptr) ->
      (forall name ptr, map_get (command_map parser) name = Some ptr ->
                        pointer_ok (command_vec parser) ptr) ->
      (forall ptr child, 0 <= ptr < vec_count (command_vec parser) ->
                         vec_at (command_vec parser) ptr = Some child ->
                         parser_ok child) ->
      parser_ok parser.

(** [m] returns, exits or ends in a fatal error, and when it returns its
    result has [P]. *)
Definition defined {A} (P : A -> Prop) (m : Outcome A) : Prop :=
  match m with
  | Ok a => P a
  | Fatal _ | Exit0 _ => True
  | Undefined | OutOfFuel => False
  end.

Lemma defined_bind {A B} (P : A -> Prop) (Q : B -> Prop) m (f : A -> Outcome B) :
  defined P m -> (forall a, P a -> defined Q (f a)) -> defined Q (obind m f).
Proof. destruct m; simpl; auto. Qed.

Lemma defined_weaken {A} (P Q : A -> Prop) m :
  defined P m -> (forall a, P a -> Q a) -> defined Q m.
Proof. destruct m; simpl; auto. Qed.

(** Both at once: what [returns] and what [defined] say of a result. *)
Lemma defined_returns {A} (P Q : A -> Prop) m :
  defined P m -> returns Q m -> defined (fun a => P a /\ Q a) m.
Proof. destruct m; simpl; auto. Qed.

Lemma vec_store_ok {A} (vec : Vec A) (i : Z) (x : A) :
  vec_ok vec -> vec_ok (vec_store vec i x).
Proof. unfold vec_ok, vec_store. simpl. by rewrite length_insert. Qed.

Lemma pointer_ok_store {A} (vec : Vec A) (i j : Z) (x : A) :
  pointer_ok vec i -> pointer_ok vec j -> pointer_ok (vec_store vec i x) j.
Proof.
  intros [Hi [y Hy]] [Hj Hsome]. split; [done|].
  destruct (decide (j = i)) as [->|Hne].
  - rewrite (vec_at_store _ _ y); eauto.
  - by rewrite (vec_at_store_ne _ _ _ y).
Qed.

Lemma vec_at_add_old {A} (vec : Vec A) (x : A) (i : Z) :
  vec_ok vec -> 0 <= i < vec_count vec -> vec_at (vec_add vec x) i = vec_at vec i.
Proof.
  intros Hok Hi. destruct (vec_add_spec vec x Hok) as (_ & Hcount & Hcells).
  rewrite !vec_at_cells by lia. rewrite Hcells.
  rewrite lookup_app_l; [done|]. unfold vec_cells. rewrite length_take.
  destruct Hok. lia.
Qed.

Lemma pointer_ok_add {A} (vec : Vec A) (x : A) (i : Z) :
  vec_ok vec -> pointer_ok vec i -> pointer_ok (vec_add vec x) i.
Proof.
  intros Hok [Hi Hsome]. destruct (vec_add_spec vec x Hok) as (_ & Hcount & _).
  split; [lia|]. by rewrite vec_at_add_old.
Qed.

Lemma pointer_ok_add_new {A} (vec : Vec A) (x : A) :
  vec_ok vec -> pointer_ok (vec_add vec x) (vec_count vec).
Proof.
  intros Hok. destruct (vec_add_spec vec x Hok) as (_ & Hcount & _).
  pose proof Hok as [? _]. split; [lia|]. by rewrite vec_at_add_new.
Qed.

Lemma map_set_all_get_other {V} (m : Map V) (ws : list string) (v : V) (w : string) :
  map_ok m -> ~ In w ws ->
  map_get (fold_left (fun m k => map_set m k v) ws m) w = map_get m w.
Proof.
  intros Hok. induction ws as [|k ws IH] using rev_ind; [done|].
  rewrite in_app_iff, fold_left_app. simpl. intros Hw.
  rewrite map_get_set by (by apply map_set_all_get).
  destruct (String.eqb_spec k w) as [->|_].
  { exfalso. apply Hw. right. by left. }
  apply IH. intros Hin. apply Hw. by left.
Qed.

Lemma ap_new_ok : parser_ok ap_new.
Proof.
  constructor; simpl.
  - apply map_new_ok.
  - apply map_new_ok.
  - apply vec_new_ok.
  - apply vec_new_ok.
  - apply vec_new_ok.
  - intros name ptr Hget. discriminate Hget.
  - intros name ptr Hget. discriminate Hget.
  - intros ptr child Hptr. lia.
Qed.

(** The registration functions keep the parser well formed. *)
Lemma register_option_ok parser (name : string) (opt : Option) :
  parser_ok parser -> parser_ok (register_option parser name opt).
Proof.
  intros [p Hom Hcm Hov Hcv Hpa Hoptr Hcptr Hchildren].
  unfold register_option, map_set_splitkey, set_options.
  constructor;
    cbn [option_map command_map option_vec command_vec positional_args];
    try assumption.
  - by apply map_set_all_get.
  - by apply vec_add_ok.
  - intros w ptr Hget.
    destruct (in_dec String.string_dec w (strtok name)) as [Hin|Hout].
    + rewrite (proj2 (map_set_all_get _ _ _ Hom) w Hin) in Hget.
      injection Hget as <-. by apply pointer_ok_add_new.
    + rewrite map_set_all_get_other in Hget by done.
      apply pointer_ok_add; eauto.
Qed.

Lemma ap_flag_ok parser (name : string) :
  parser_ok parser -> parser_ok (ap_flag parser name).
Proof. apply register_option_ok. Qed.

Lemma ap_str_opt_ok parser (name fallback : string) :
  parser_ok parser -> parser_ok (ap_str_opt parser name fallback).
Proof. apply register_option_ok. Qed.

Lemma ap_int_opt_ok parser (name : string) (fallback : Z) :
  parser_ok parser -> parser_ok (ap_int_opt parser name fallback).
Proof. apply register_option_ok. Qed.

Lemma ap_dbl_opt_ok parser (name : string) (fallback : float) :
  parser_ok parser -> parser_ok (ap_dbl_opt parser name fallback).
Proof. apply register_option_ok. Qed.

Lemma ap_cmd_ok parser (name : string) :
  parser_ok parser -> parser_ok (fst (ap_cmd parser name)).
Proof.
  intros [p Hom Hcm Hov Hcv Hpa Hoptr Hcptr Hchildren].
  unfold ap_cmd, map_set_splitkey. cbn [fst].
  constructor;
    cbn [option_map command_map option_vec command_vec positional_args];
    try assumption.
  - by apply map_set_all_get.
  - by apply vec_add_ok.
  - intros w ptr Hget.
    destruct (in_dec String.string_dec w (strtok name)) as [Hin|Hout].
    + rewrite (proj2 (map_set_all_get _ _ _ Hcm) w Hin) in Hget.
      injection Hget as <-. by apply pointer_ok_add_new.
    + rewrite map_set_all_get_other in Hget by done.
      apply pointer_ok_add; eauto.
  - intros ptr child Hptr Hat.
    destruct (vec_add_spec (command_vec p) ap_new Hcv) as (_ & Hcount & _).
    destruct (decide (ptr = vec_count (command_vec p))) as [->|Hne].
    + rewrite vec_at_add_new in Hat by done. injection Hat as <-. apply ap_new_ok.
    + rewrite vec_at_add_old in Hat by (assumption || lia).
      apply (Hchildren ptr); [lia|assumption].
Qed.

Lemma parser_ok_child parser ptr child :
  parser_ok parser -> pointer_ok (command_vec parser) ptr ->
  vec_at (command_vec parser) ptr = Some child -> parser_ok child.
Proof. intros [p _ _ _ _ _ _ _ Hchildren] [Hptr _] Hat. eapply Hchildren; eassumption. Qed.

Lemma parser_ok_command parser (arg : string) ptr child' :
  parser_ok parser -> pointer_ok (command_vec parser) ptr -> parser_ok child' ->
  parser_ok (set_command_vec (set_cmd parser arg ptr)
               (vec_store (command_vec parser) ptr child')).
Proof.
  intros [p Hom Hcm Hov Hcv Hpa Hoptr Hcptr Hchildren] Hptr Hchild.
  constructor; simpl; try assumption.
  - by apply vec_store_ok.
  - intros w ptr0 Hget. apply pointer_ok_store; eauto.
  - intros ptr0 child Hptr0 Hat. destruct Hptr as [_ [c Hc]].
    destruct (decide (ptr0 = ptr)) as [->|Hne].
    + rewrite (vec_at_store _ _ c) in Hat by assumption. injection Hat as <-. assumption.
    + rewrite (vec_at_store_ne _ _ _ c) in Hat by assumption. eapply Hchildren; eassumption.
Qed.

Lemma on_cmd_ok parser ptr (f : ArgParser -> ArgParser) :
  parser_ok parser -> pointer_ok (command_vec parser) ptr ->
  (forall child, parser_ok child -> parser_ok (f child)) ->
  parser_ok (on_cmd parser ptr f).
Proof.
  intros Hok Hptr Hf. unfold on_cmd.
  destruct (vec_at (command_vec parser) ptr) as [child|] eqn:Hat; [|assumption].
  pose proof (parser_ok_child _ _ _ Hok Hptr Hat) as Hchild.
  pose proof (parser_ok_command parser "" ptr (f child) Hok Hptr (Hf _ Hchild)) as H.
  inversion H as [p Hom Hcm Hov Hcv Hpa Hoptr Hcptr Hchildren]. subst p.
  constructor; assumption.
Qed.

Lemma parser_ok_store parser ptr opt opt' :
  parser_ok parser -> option_at parser ptr = Ok opt ->
  0 <= ptr < vec_count (option_vec parser) ->
  parser_ok (store_option parser ptr opt').
Proof.
  intros [p Hom Hcm Hov Hcv Hpa Hoptr Hcptr Hchildren] Hat Hptr.
  apply option_at_Ok in Hat.
  constructor; simpl; try assumption.
  - by apply vec_store_ok.
  - intros w ptr0 Hget. apply pointer_ok_store; eauto. split; eauto.
Qed.

Lemma parser_ok_positional parser (vec : Vec string) :
  parser_ok parser -> vec_ok vec -> parser_ok (set_positional_args parser vec).
Proof.
  intros [p Hom Hcm Hov Hcv Hpa Hoptr Hcptr Hchildren] Hvec. constructor; assumption.
Qed.

Lemma option_at_pointer parser (name : string) ptr :
  parser_ok parser -> map_get (option_map parser) name = Some ptr ->
  0 <= ptr < vec_count (option_vec parser) /\ exists opt, option_at parser ptr = Ok opt.
Proof.
  intros [p _ _ _ _ _ Hoptr _ _] Hget. destruct (Hoptr _ _ Hget) as [Hptr [opt Hat]].
  split; [done|]. exists opt. by apply option_at_Ok.
Qed.

Lemma try_str_to_int_defined arg : defined (fun _ => True) (try_str_to_int arg).
Proof.
  unfold try_str_to_int. destruct (strtol arg) as [[r e] b].
  destruct (_ || _); [done|]. by destruct (negb _).
Qed.

Lemma option_try_set_defined opt arg :
  defined (fun _ => True) (option_try_set strtod opt arg).
Proof.
  unfold option_try_set. destruct (opt_type opt); simpl; try done.
  - eapply defined_bind; [apply try_str_to_int_defined|]. done.
  - eapply defined_bind; [|done]. instantiate (1 := fun _ => True).
    unfold try_str_to_double. destruct (strtod arg) as [[r e] b].
    destruct b; [done|]. by destruct (negb _).
Qed.

Lemma has_equals_split (arg : string) :
  has_equals arg = true -> is_Some (split_equals arg).
Proof.
  induction arg as [|c arg IH]; simpl; [done|].
  destruct (Ascii.eqb c "="); [done|]. simpl. intros H.
  destruct (IH H) as [[name v] ->]. done.
Qed.

Lemma ap_handle_equals_opt_defined parser dashes arg :
  parser_ok parser -> has_equals arg = true ->
  defined parser_ok (ap_handle_equals_opt strtod parser dashes arg).
Proof.
  intros Hok Heq. unfold ap_handle_equals_opt.
  destruct (has_equals_split arg Heq) as [[name v] ->].
  destruct (map_get _ name) as [ptr|] eqn:Hget; [|done].
  destruct (option_at_pointer _ _ _ Hok Hget) as [Hptr [opt Hat]].
  rewrite Hat. cbn [obind].
  destruct (OptionType_eqb _ _); [done|]. destruct (_ =? _)%nat; [done|].
  eapply defined_bind; [apply option_try_set_defined|]. intros opt' _.
  by eapply parser_ok_store.
Qed.

Lemma argstream_next_defined s :
  stream_ok s -> argstream_has_next s = true ->
  defined (fun r => stream_ok (snd r)) (argstream_next s).
Proof.
  intros Hok Hnext. destruct (stream_rest s) as [|arg rest] eqn:Hrest.
  { apply stream_rest_nil in Hrest; [congruence|done]. }
  by destruct (stream_rest_cons s arg rest Hok Hrest) as (_ & -> & Hok' & _).
Qed.

Lemma ap_handle_long_opt_defined parser arg s :
  parser_ok parser -> stream_ok s ->
  defined (fun r => parser_ok (fst r)) (ap_handle_long_opt strtod parser arg s).
Proof.
  intros Hok Hs. unfold ap_handle_long_opt.
  destruct (map_get _ arg) as [ptr|] eqn:Hget.
  - destruct (option_at_pointer _ _ _ Hok Hget) as [Hptr [opt Hat]].
    rewrite Hat. cbn [obind].
    destruct (OptionType_eqb _ _); [by eapply parser_ok_store|].
    destruct (argstream_has_next s) eqn:Hnext; [|done].
    eapply defined_bind; [by apply argstream_next_defined|]. intros [v s'] _.
    eapply defined_bind; [apply option_try_set_defined|]. intros opt' _.
    by eapply parser_ok_store.
  - destruct (if String.eqb arg "help" then _ else _); [done|].
    by destruct (if String.eqb arg "version" then _ else _).
Qed.

Lemma ap_handle_short_loop_defined parser arg rest s :
  parser_ok parser -> stream_ok s ->
  defined (fun r => parser_ok (fst r)) (ap_handle_short_loop strtod parser arg rest s).
Proof.
  revert parser s. induction rest as [|c rest IH]; intros parser s Hok Hs; simpl; [done|].
  destruct (map_get _ _) as [ptr|] eqn:Hget.
  - destruct (option_at_pointer _ _ _ Hok Hget) as [Hptr [opt Hat]].
    rewrite Hat. cbn [obind].
    destruct (OptionType_eqb _ _).
    { apply IH; [by eapply parser_ok_store|done]. }
    destruct (argstream_has_next s) eqn:Hnext.
    + eapply defined_bind; [by apply argstream_next_defined|]. intros [v s'] Hs'.
      eapply defined_bind; [apply option_try_set_defined|]. intros opt' _.
      apply IH; [by eapply parser_ok_store|done].
    + by destruct (_ <? _)%nat.
  - destruct (if Ascii.eqb c "h" then _ else _); [done|].
    destruct (if Ascii.eqb c "v" then _ else _); [done|].
    by destruct (_ <? _)%nat.
Qed.

Lemma ap_handle_help_cmd_defined parser s :
  parser_ok parser -> stream_ok s ->
  defined (fun _ => False) (ap_handle_help_cmd parser s).
Proof.
  intros Hok Hs. unfold ap_handle_help_cmd.
  destruct (argstream_has_next s) eqn:Hnext; [|done].
  eapply defined_bind; [by apply argstream_next_defined|]. intros [name s'] _.
  destruct (map_get _ name) as [ptr|] eqn:Hget; [|done].
  destruct Hok as [p _ _ _ _ _ _ Hcptr _].
  destruct (Hcptr _ _ Hget) as [_ [child ->]]. done.
Qed.

Lemma has_equals_offset1 (arg : string) :
  String.prefix "-" arg = true -> has_equals arg = true ->
  has_equals (str_offset arg 1) = true.
Proof.
  destruct arg as [|a arg]; [discriminate|].
  rewrite prefix_cons. intros [Ha%Ascii.eqb_eq _]%andb_true_iff. subst a.
  simpl. intros H. by destruct arg.
Qed.

Lemma has_equals_offset2 (arg : string) :
  String.prefix "--" arg = true -> has_equals arg = true ->
  has_equals (str_offset arg 2) = true.
Proof.
  destruct arg as [|a [|b arg]]; try discriminate.
  { rewrite prefix_cons. rewrite andb_false_r. discriminate. }
  rewrite !prefix_cons.
  intros [Ha%Ascii.eqb_eq [Hb%Ascii.eqb_eq _]%andb_true_iff]%andb_true_iff.
  subst a b. simpl. intros H. by destruct arg.
Qed.

(** One round of the loop on a well-formed parser. *)
Lemma ap_parse_arg_defined recurse parser s is_first arg :
  parser_ok parser -> stream_ok s ->
  (forall child, parser_ok child ->
     defined (fun r => parser_ok (fst (fst r))) (recurse child s)) ->
  defined (fun r => parser_ok (fst (fst r)))
    (ap_parse_arg strtod recurse parser s is_first arg).
Proof.
  intros Hok Hs Hrec. unfold ap_parse_arg.
  pose proof Hok as [p Hom Hcm Hov Hcv Hpa Hoptr Hcptr Hchildren].
  destruct (String.eqb arg "--").
  { rewrite (add_remaining_spec _ _ _ Hs eq_refl). simpl.
    apply parser_ok_positional; [done|]. by apply vec_add_all_spec. }
  destruct (String.prefix "--" arg) eqn:Hp2.
  { destruct (has_equals arg) eqn:Heq.
    - eapply defined_bind.
      + apply ap_handle_equals_opt_defined; [done|].
        by apply has_equals_offset2.
      + done.
    - eapply defined_bind; [by apply ap_handle_long_opt_defined|]. by intros [p' s']. }
  destruct (String.prefix "-" arg) eqn:Hp1.
  { destruct (_ || _).
    { simpl. apply parser_ok_positional; [done|]. by apply vec_add_ok. }
    destruct (has_equals arg) eqn:Heq.
    - eapply defined_bind.
      + apply ap_handle_equals_opt_defined; [done|].
        by apply has_equals_offset1.
      + done.
    - eapply defined_bind; [by apply ap_handle_short_loop_defined|]. by intros [p' s']. }
  destruct (if is_first then _ else _) as [ptr|] eqn:Hcmd.
  - assert (map_get (command_map p) arg = Some ptr) as Hget by (by destruct is_first).
    pose proof (Hcptr _ _ Hget) as Hptr. destruct (Hptr) as [Hrange [child Hat]].
    rewrite Hat. eapply defined_bind; [apply Hrec; by eapply Hchildren|].
    intros [[c' s'] calls] Hc'. simpl in *. by apply parser_ok_command.
  - destruct (_ && _).
    + eapply defined_bind; [by apply ap_handle_help_cmd_defined|]. by intros [p' s'] [].
    + simpl. apply parser_ok_positional; [done|]. by apply vec_add_ok.
Qed.

(** The loop on a well-formed parser returns a well-formed parser, or exits
    or ends in a fatal error: it does nothing that C leaves undefined. *)
Lemma ap_parse_loop_defined fuel parser s is_first :
  parser_ok parser -> stream_ok s -> as_count s - as_index s < Z.of_nat fuel ->
  defined (fun r => parser_ok (fst (fst r)))
    (ap_parse_loop strtod fuel parser s is_first).
Proof.
  revert parser s is_first.
  induction fuel as [|fuel IH]; intros parser s is_first Hok Hs Hfuel.
  { destruct Hs. lia. }
  destruct (argstream_has_next s) eqn:Hnext.
  2:{ by rewrite ap_parse_loop_end. }
  destruct (stream_rest s) as [|arg rest] eqn:Hrest.
  { apply stream_rest_nil in Hrest; [congruence|done]. }
  rewrite (ap_parse_loop_round _ _ _ _ _ _ Hs Hrest).
  destruct (stream_rest_cons s arg rest Hs Hrest) as (_ & _ & Hs1 & _).
  eapply defined_bind.
  { apply defined_returns.
    - apply ap_parse_arg_defined; [done|done|]. intros child Hchild.
      apply IH; [done|done|simpl; lia].
    - apply ap_parse_arg_returns; [done|]. intros child.
      eapply returns_weaken; [apply ap_parse_loop_fuel; [done|simpl; lia]|].
      intros [[c' s'] calls] (_ & ? & ?). done. }
  intros [[p1 s1] calls] [Hok1 [_ Hst1]]. simpl in Hok1, Hst1.
  eapply defined_bind.
  { apply IH; [done|apply Hst1|]. destruct Hst1 as (_ & -> & _ & ?). simpl in *. lia. }
  by intros [[p2 s2] later] Hok2.
Qed.

(** [ap_parse_array] on a parser built through the interface returns a
    parser of that kind with the same maps and texts, or it exits, or it ends
    in a fatal error. *)
Lemma ap_parse_array_defined parser (args : list string) :
  parser_ok parser ->
  defined (fun r => parser_ok (fst r) /\ same_setup parser (fst r))
    (ap_parse_array strtod parser args).
Proof.
  intros Hok. apply defined_returns; [|apply ap_parse_array_returns].
  unfold ap_parse_array, ap_parse_stream.
  destruct (argstream_new_ok args) as [Hs _].
  eapply defined_bind.
  { apply ap_parse_loop_defined; [done|done|]. simpl. lia. }
  by intros [[p s] calls].
Qed.

End parse_proofs.

(** ** The examples of the specification *)

(** A [strtod] that converts nothing: the examples use no floating-point
    option. *)
Definition strtod_none (s : string) : float * string * bool :=
  (PrimFloat.zero, s, false).

(** A parser with the command [run], whose parser has the flag [fast]. *)
Definition parser_with_run : ArgParser :=
  let '(parser, cmd) := ap_cmd ap_new "run" in
  on_cmd parser cmd (fun child => ap_flag child "fast").

Lemma parser_with_run_ok : parser_ok parser_with_run.
Proof.
  unfold parser_with_run.
  pose proof (ap_cmd_ok ap_new "run" ap_new_ok) as Hok.
  destruct (ap_cmd ap_new "run") as [parser cmd] eqn:Hcmd. simpl in Hok.
  apply on_cmd_ok; [assumption| |intros child; apply ap_flag_ok].
  injection Hcmd as <- <-. split; [by vm_compute|].
  exists ap_new. by vm_compute.
Qed.

(** Whatever the arguments and whatever [strtod] answers, a run of this
    parser returns, exits or ends in a fatal error. *)
Lemma parser_with_run_defined strtod (args : list string) :
  defined (fun r => parser_ok (fst r) /\ same_setup parser_with_run (fst r))
    (ap_parse_array strtod parser_with_run args).
Proof. apply ap_parse_array_defined, parser_with_run_ok. Qed.

(** [P.parse(["run","--fast","x"])]: the command is [run], its parser has
    the flag [fast] set and the positional argument [x], and [P] has no
    positional argument. *)
Example example_command_run :
  exists parser' child,
    ap_parse_array strtod_none parser_with_run ["run"; "--fast"; "x"]
      = Ok (parser', []) /\
    ap_cmd_name parser' = Some "run"%string /\
    ap_cmd_parser parser' = Some child /\
    ap_found child "fast" = Ok true /\
    ap_args child = [Some "x"%string] /\
    ap_count_args parser' = 0 /\ ap_args parser' = [].
Proof.
  destruct (ap_parse_array strtod_none parser_with_run ["run"; "--fast"; "x"])
    as [[parser' calls]| | | |] eqn:Hrun; try (vm_compute in Hrun; discriminate).
  destruct (ap_cmd_parser parser') as [child|] eqn:Hchild;
    [|vm_compute in Hrun; injection Hrun as <- _; vm_compute in Hchild; discriminate].
  exists parser', child.
  vm_compute in Hrun. injection Hrun as <- <-.
  vm_compute in Hchild. injection Hchild as <-.
  vm_compute. done.
Qed.

(** An integer option [n] with fallback 0 and [-n 5 -n 7]. *)
Example example_int_values :
  exists parser',
    ap_parse_array strtod_none (ap_int_opt ap_new "n" 0) ["-n"; "5"; "-n"; "7"]
      = Ok (parser', []) /\
    ap_int_values parser' "n" = Ok (Some [5; 7]) /\
    ap_int_value parser' "n" = Ok 7.
Proof.
  destruct (ap_parse_array strtod_none (ap_int_opt ap_new "n" 0) ["-n"; "5"; "-n"; "7"])
    as [[parser' calls]| | | |] eqn:Hrun; try (vm_compute in Hrun; discriminate).
  exists parser'. vm_compute in Hrun. injection Hrun as <- <-. vm_compute. done.
Qed.

(** [parse(["--","--foo","-b"])] and [parse(["-5"])]. *)
Example example_separator :
  exists parser',
    ap_parse_array strtod_none ap_new ["--"; "--foo"; "-b"] = Ok (parser', []) /\
    ap_args parser' = [Some "--foo"%string; Some "-b"%string].
Proof.
  destruct (ap_parse_array strtod_none ap_new ["--"; "--foo"; "-b"])
    as [[parser' calls]| | | |] eqn:Hrun; try (vm_compute in Hrun; discriminate).
  exists parser'. vm_compute in Hrun. injection Hrun as <- <-. vm_compute. done.
Qed.

Example example_negative_number :
  exists parser',
    ap_parse_array strtod_none ap_new ["-5"] = Ok (parser', []) /\
    ap_args parser' = [Some "-5"%string].
Proof.
  destruct (ap_parse_array strtod_none ap_new ["-5"])
    as [[parser' calls]| | | |] eqn:Hrun; try (vm_compute in Hrun; discriminate).
  exists parser'. vm_compute in Hrun. injection Hrun as <- <-. vm_compute. done.
Qed.

(** [register_flag("v verbose"); parse(["-v"]); found("verbose")]. *)
Example example_alias :
  exists parser',
    ap_parse_array strtod_none (ap_flag ap_new "v verbose") ["-v"] = Ok (parser', []) /\
    ap_found parser' "verbose" = Ok true /\
    ap_count parser' "verbose" = Ok 1 /\ ap_count parser' "v" = Ok 1.
Proof.
  destruct (ap_parse_array strtod_none (ap_flag ap_new "v verbose") ["-v"])
    as [[parser' calls]| | | |] eqn:Hrun; try (vm_compute in Hrun; discriminate).
  exists parser'. vm_compute in Hrun. injection Hrun as <- <-. vm_compute. done.
Qed.

(** ** The theorems at the inputs of the examples *)

(** C1 at [P.parse(["run","--fast","x"])]. *)
Lemma command_match_terminal_witness :
  let rest := ["--fast"; "x"]%string in
  let child := ap_flag ap_new "fast" in
  String.prefix "-" "run" = false /\
  map_get (command_map parser_with_run) "run" = Some 0 /\
  vec_at (command_vec parser_with_run) 0 = Some child /\
  forall parser' calls,
    ap_parse_array strtod_none parser_with_run ("run"%string :: rest)
      = Ok (parser', calls) ->
    ap_cmd_name parser' = Some "run"%string /\
    positional_args parser' = positional_args parser_with_run /\
    exists child' s' calls',
      ap_parse_stream strtod_none (S (length rest)) child
        (stream_advance
           (argstream_new (Z.of_nat (length ("run"%string :: rest)))
              ("run"%string :: rest)))
        = Ok (child', s', calls') /\
      ap_cmd_parser parser' = Some child'.
Proof.
  intros rest child.
  assert (String.prefix "-" "run" = false) as H1 by reflexivity.
  assert (map_get (command_map parser_with_run) "run" = Some 0) as H2
    by (vm_compute; reflexivity).
  assert (vec_at (command_vec parser_with_run) 0 = Some child) as H3
    by (vm_compute; reflexivity).
  split; [exact H1|]. split; [exact H2|]. split; [exact H3|].
  exact (proj2 (proj2 (command_match_terminal strtod_none parser_with_run
                         "run" rest 0 child H1 H2 H3))).
Defined.



(** C5 at [register_flag("v verbose")]. *)
Lemma alias_words_share_witness :
  let parser1 := ap_flag ap_new "v verbose" in
  map_ok (option_map ap_new) /\ vec_ok (option_vec ap_new) /\
  In "v"%string (strtok "v verbose") /\ In "verbose"%string (strtok "v verbose") /\
  map_get (option_map parser1) "v" = Some 0 /\
  map_get (option_map parser1) "verbose" = Some 0 /\
  forall (args : list string) parser2 calls,
    ap_parse_array strtod_none parser1 args = Ok (parser2, calls) ->
    ap_found parser2 "v" = ap_found parser2 "verbose" /\
    ap_count parser2 "v" = ap_count parser2 "verbose".
Proof.
  intros parser1.
  assert (map_ok (option_map ap_new)) as H1 by apply map_new_ok.
  assert (vec_ok (option_vec ap_new)) as H2 by (unfold vec_ok; simpl; lia).
  assert (In "v"%string (strtok "v verbose")) as H3 by (vm_compute; tauto).
  assert (In "verbose"%string (strtok "v verbose")) as H4 by (vm_compute; tauto).
  pose proof (alias_words_share strtod_none ap_new "v verbose" option_new_flag
                "v" "verbose" H1 H2 H3 H4) as (G1 & G2 & _ & G3).
  split; [exact H1|]. split; [exact H2|]. split; [exact H3|]. split; [exact H4|].
  split; [exact G1|]. split; [exact G2|].
  intros args parser2 calls Hrun.
  destruct (G3 args parser2 calls Hrun) as (_ & Hfound & Hcount & _).
  split; [exact Hfound|exact Hcount].
Defined.

(** C8 at an integer option registered with fallback 42 and not supplied. *)
Lemma fallback_when_not_found_witness :
  let parser := ap_int_opt ap_new "n num" 42 in
  ap_count parser "num" = Ok 0 /\
  ap_found parser "num" = Ok false /\
  exists opt,
    ap_get_opt parser "num" = Ok opt /\ opt_count opt = 0 /\
    forall fallback, opt_fallback opt = Some (int_val fallback) ->
      ap_int_value parser "num" = Ok fallback.
Proof.
  intros parser.
  assert (ap_count parser "num" = Ok 0) as H1 by (vm_compute; reflexivity).
  pose proof (fallback_when_not_found strtod_none parser "num" H1) as (G1 & G2 & _).
  split; [exact H1|]. split; [exact G1|exact G2].
Defined.

(** C9 at [-n=5] with an integer option [n]. *)
Lemma short_equals_form_witness :
  let parser := ap_int_opt ap_new "n" 0 in
  let s := argstream_new 1 ["-n=5"]%string in
  String.prefix "-" "-n=5" = true /\ String.prefix "--" "-n=5" = false /\
  isdigit (char_at "-n=5" 1) = false /\ has_equals "-n=5" = true /\
  split_equals (str_offset "-n=5" 1) = Some ("n"%string, "5"%string) /\
  stream_ok s /\ stream_rest s = ["-n=5"%string] /\
  ap_parse_loop strtod_none 2 parser s true
    = (do parser' <- equals_rule strtod_none parser "-" "n" "5";
       ap_parse_loop strtod_none 1 parser' (stream_advance s) false).
Proof.
  intros parser s.
  assert (String.prefix "-" "-n=5" = true) as H1 by reflexivity.
  assert (String.prefix "--" "-n=5" = false) as H2 by reflexivity.
  assert (isdigit (char_at "-n=5" 1) = false) as H3 by reflexivity.
  assert (has_equals "-n=5" = true) as H4 by reflexivity.
  assert (split_equals (str_offset "-n=5" 1) = Some ("n"%string, "5"%string)) as H5
    by reflexivity.
  assert (stream_ok s) as H6 by (unfold stream_ok; simpl; lia).
  assert (stream_rest s = ["-n=5"%string]) as H7 by reflexivity.
  split; [exact H1|]. split; [exact H2|]. split; [exact H3|]. split; [exact H4|].
  split; [exact H5|]. split; [exact H6|]. split; [exact H7|].
  exact (proj1 (short_equals_form strtod_none 1 parser s true "-n=5" "n" "5" []
                  H1 H2 H3 H4 H5 H6 H7)).
Defined.

(** C10 at [--v=] with a flag [v]. *)
Lemma equals_flag_unrecognised_witness :
  let parser := ap_flag ap_new "v" in
  let s := argstream_new 1 ["--v="]%string in
  equals_form "--v=" "--" "v" "" /\
  stream_ok s /\ stream_rest s = ["--v="%string] /\
  map_get (option_map parser) "v" = Some 0 /\
  option_at parser 0 = Ok option_new_flag /\
  opt_type option_new_flag = OPT_FLAG /\
  ap_parse_loop strtod_none 2 parser s true
    = Fatal "--v is not a recognised option name".
Proof.
  intros parser s.
  assert (equals_form "--v=" "--" "v" "") as H1.
  { split; [reflexivity|]. left. split; [reflexivity|]. split; reflexivity. }
  assert (stream_ok s) as H2 by (unfold stream_ok; simpl; lia).
  assert (stream_rest s = ["--v="%string]) as H3 by reflexivity.
  assert (map_get (option_map parser) "v" = Some 0) as H4 by (vm_compute; reflexivity).
  assert (option_at parser 0 = Ok option_new_flag) as H5 by (vm_compute; reflexivity).
  assert (opt_type option_new_flag = OPT_FLAG) as H6 by reflexivity.
  split; [exact H1|]. split; [exact H2|]. split; [exact H3|]. split; [exact H4|].
  split; [exact H5|]. split; [exact H6|].
  exact (proj1 (equals_flag_unrecognised strtod_none 1 parser s true
                  "--v=" "--" "v" "" [] 0 option_new_flag H1 H2 H3 H4 H5 H6)).
Defined.

(** * Further properties of the library and of the program *)

(** ** The containers *)

Section map_more.

Context {V : Type}.
Implicit Types (m : Map V) (kvs : list (string * V)).

(** The value of the last pair of [kvs] with the key [k]. *)
Definition last_value (k : string) kvs : option V :=
  fold_left (fun acc kv => if String.eqb (fst kv) k then Some (snd kv) else acc)
    kvs None.

Lemma map_get_of_list kvs k : map_get (map_of_list kvs) k = last_value k kvs.
Proof.
  induction kvs as [|[k0 v0] kvs IH] using rev_ind; [done|].
  rewrite map_of_list_snoc, map_get_set by apply map_of_list_ok.
  unfold last_value. rewrite fold_left_app. simpl.
  destruct (String.eqb k0 k); [done|]. exact IH.
Qed.

Lemma last_value_None k kvs : last_value k kvs = None <-> ~ In k (map fst kvs).
Proof.
  induction kvs as [|[k0 v0] kvs IH] using rev_ind; [simpl; tauto|].
  unfold last_value in *. rewrite fold_left_app, map_app, in_app_iff. simpl.
  destruct (String.eqb_spec k0 k) as [->|Hne].
  - split; [done|]. intros H. destruct H. right. by left.
  - rewrite IH. split.
    + intros H [?|[?|[]]]; [tauto|congruence].
    + tauto.
Qed.

(** [map_set] counts a key the first time it is stored. *)
Lemma map_set_count m k v :
  map_ok m ->
  map_count (map_set m k v)
  = map_count m + match map_get m k with Some _ => 0 | None => 1 end.
Proof.
  intros Hok. unfold map_set.
  set (m1 := if map_count m =? max_load_threshold m then map_grow m else m).
  assert (map_ok m1 /\ (forall e, map_contains m1 e <-> map_contains m e) /\
          map_count m1 < max_load_threshold m1 /\ map_count m1 = map_count m)
    as (Hok1 & Hcont1 & Hroom & Hcount1).
  { unfold m1. destruct (Z.eqb_spec (map_count m) (max_load_threshold m)) as [_|Hne].
    - destruct (map_grow_ok m Hok) as (? & ? & ? & _ & ?). done.
    - pose proof (ok_load _ Hok). split; [done|]. split; [done|]. lia. }
  assert (map_get m1 k = map_get m k) as Hget.
  { destruct (map_get m k) as [v0|] eqn:G.
    - apply map_get_Some in G as (e & He & Hk); [|done].
      apply map_get_Some; [done|]. exists e. split; [|done]. by apply Hcont1.
    - apply map_get_None; [done|]. intros e He. apply Hcont1 in He.
      by apply (map_get_None m k Hok). }
  rewrite <- Hget, <- Hcount1. clearbody m1.
  assert (0 < map_capacity m1) as Hcap.
  { pose proof (ok_threshold _ Hok1) as Hthr. pose proof (ok_count _ Hok1).
    pose proof (occupied_nonneg (map_entries m1)).
    destruct (ok_capacity _ Hok1) as [Hz|(n & Hn & ->)].
    - rewrite Hz in Hthr. change (0 / 2) with 0 in Hthr. lia.
    - apply Z.pow_pos_nonneg; lia. }
  destruct (map_get m1 k) as [v0|] eqn:G.
  - apply map_get_Some in G as (e & [i Hi] & Hk & _); [|done].
    pose proof (ok_find _ Hok1 _ _ Hi) as F.
    pose proof (ok_hash _ Hok1 _ _ Hi) as Hh.
    rewrite Hh, Hk in F. rewrite F, Nat2Z.id, Hi. simpl. lia.
  - pose proof (proj1 (map_get_None m1 k Hok1) G) as Hfresh.
    destruct (map_insert_fresh m1 k v Hok1 Hcap Hroom Hfresh)
      as (p & Hp & Hempty & _).
    by rewrite Hp, Hempty.
Qed.

Lemma remove_dups_snoc (l : list string) (k : string) :
  length (remove_dups (l ++ [k]))
  = (length (remove_dups l) + if bool_decide (k ∈ l) then 0 else 1)%nat.
Proof.
  case_bool_decide as Hk.
  - rewrite Nat.add_0_r. apply Permutation_length, NoDup_Permutation;
      try apply NoDup_remove_dups.
    intros x. rewrite !elem_of_remove_dups, elem_of_app, list_elem_of_singleton.
    split; [intros [? | ->]; done|by left].
  - rewrite Nat.add_1_r.
    change (S (length (remove_dups l))) with (length (k :: remove_dups l)).
    apply Permutation_length, NoDup_Permutation.
    + apply NoDup_remove_dups.
    + constructor; [by rewrite elem_of_remove_dups|apply NoDup_remove_dups].
    + intros x.
      rewrite elem_of_cons, !elem_of_remove_dups, elem_of_app, list_elem_of_singleton.
      tauto.
Qed.

Lemma map_count_of_list kvs :
  map_count (map_of_list kvs) = Z.of_nat (length (remove_dups (map fst kvs))).
Proof.
  induction kvs as [|[k0 v0] kvs IH] using rev_ind; [done|].
  rewrite map_of_list_snoc, map_set_count by apply map_of_list_ok.
  rewrite map_app. simpl. rewrite remove_dups_snoc, IH, map_get_of_list.
  case_bool_decide as Hk.
  - destruct (last_value k0 kvs) eqn:G; [lia|].
    apply last_value_None in G. destruct G. by apply list_elem_of_In.
  - destruct (last_value k0 kvs) eqn:G; [|lia].
    assert (last_value k0 kvs = None) as G'; [|congruence].
    apply last_value_None. intros Hin. by apply Hk, list_elem_of_In.
Qed.

(** A table that was written has room: its capacity is a power of two, at
    most half of its slots are taken, and a probe ends on a slot. *)
Lemma map_written_shape m k v (k' : string) (h : Z) :
  map_ok m ->
  let m' := map_set m k v in
  exists n i,
    3 <= n /\ map_capacity m' = 2 ^ n /\
    Z.of_nat (length (map_entries m')) = map_capacity m' /\
    0 < map_count m' /\ 2 * map_count m' <= map_capacity m' /\
    map_find m' k' h = Some i /\ 0 <= i < map_capacity m'.
Proof.
  intros Hok m'. pose proof (map_set_ok m k v Hok) as Hok'. fold m' in Hok'.
  pose proof (map_set_load m k v Hok) as Hload. fold m' in Hload.
  assert (0 < map_count m') as Hpos.
  { assert (map_get m' k = Some v) as G.
    { unfold m'. by rewrite map_get_set, String.eqb_refl. }
    apply map_get_Some in G as (e & [i Hi] & _); [|done].
    rewrite (ok_count _ Hok'). by eapply occupied_pos. }
  destruct (map_ok_pow m' Hok') as (n & Hn & Hcap); [lia|].
  destruct (map_find_free m' k' h Hok') as [i Hi]; [lia|lia|].
  exists n, i. split_and!; try done.
  - apply (ok_length _ Hok').
  - by apply (map_find_range m' k' h i Hok').
  - by apply (map_find_range m' k' h i Hok').
Qed.

Lemma map_grow_get m k :
  map_ok m -> map_get (map_grow m) k = map_get m k.
Proof.
  intros Hok. destruct (map_grow_ok m Hok) as (Hok' & Hcont & _).
  destruct (map_get m k) as [v0|] eqn:G.
  - apply map_get_Some in G as (e & He & Hk); [|done].
    apply map_get_Some; [done|]. exists e. split; [|done]. by apply Hcont.
  - apply map_get_None; [done|]. intros e He. apply Hcont in He.
    by apply (map_get_None m k Hok).
Qed.

(** X1. After any sequence of [map_set] on a new map, [map_get] finds for a
    key the value it was given last, and finds nothing for a key that was
    never given one. *)
Theorem map_get_last_set kvs (k : string) :
  map_get (map_of_list kvs) k = last_value k kvs /\
  (map_get (map_of_list kvs) k = None <-> ~ In k (map fst kvs)).
Proof.
  split; [apply map_get_of_list|].
  rewrite map_get_of_list. apply last_value_None.
Qed.

(** X2. [count] is the number of distinct keys that were stored, however
    often each was stored. *)
Theorem map_count_distinct_keys kvs :
  map_count (map_of_list kvs) = Z.of_nat (length (remove_dups (map fst kvs))).
Proof. apply map_count_of_list. Qed.

(** X3. After one [map_set] or more the capacity is a power of two, 8 at
    least, at most half of the slots are taken, and the probe of [map_find]
    for any key and hash ends on a slot of the table. *)
Theorem map_probe_ends kv kvs (k : string) (h : Z) :
  let m := map_of_list (kvs ++ [kv]) in
  exists n i,
    3 <= n /\ map_capacity m = 2 ^ n /\
    Z.of_nat (length (map_entries m)) = map_capacity m /\
    0 < map_count m /\ 2 * map_count m <= map_capacity m /\
    map_find m k h = Some i /\ 0 <= i < map_capacity m.
Proof.
  destruct kv as [k0 v0]. rewrite map_of_list_snoc.
  apply map_written_shape, map_of_list_ok.
Qed.

(** X4. [map_grow] keeps every binding and the count, and doubles the
    capacity, from 8. *)
Theorem map_grow_keeps_bindings kvs (k : string) :
  let m := map_of_list kvs in
  map_get (map_grow m) k = map_get m k /\
  map_count (map_grow m) = map_count m /\
  map_capacity (map_grow m)
    = (if map_capacity m <? 8 then 8 else map_capacity m * 2) /\
  2 * map_count (map_grow m) < map_capacity (map_grow m).
Proof.
  intros m. pose proof (map_of_list_ok kvs) as Hok. fold m in Hok.
  destruct (map_grow_ok m Hok) as (Hok' & _ & Hcount & Hcap & Hroom).
  split; [by apply map_grow_get|]. split; [done|]. split; [done|].
  pose proof (ok_threshold _ Hok') as Hthr.
  assert (0 <= map_capacity (map_grow m)) as Hnn.
  { rewrite Hcap. pose proof (ok_length _ Hok).
    destruct (map_capacity m <? 8); lia. }
  pose proof (Z.mul_div_le (map_capacity (map_grow m)) 2). lia.
Qed.

End map_more.

Section vec_more.

Context {A : Type}.

Lemma vec_add_all_capacity (xs : list A) :
  let vec := fold_left vec_add xs vec_new in
  vec_capacity vec <= Z.max 8 (2 * vec_count vec) /\
  (xs <> [] -> 8 <= vec_capacity vec).
Proof.
  induction xs as [|x xs IH] using rev_ind; [simpl; split; [lia|done]|].
  intros vec. unfold vec. rewrite fold_left_app. simpl.
  set (vec0 := fold_left vec_add xs vec_new) in *.
  destruct IH as [IH1 IH2].
  destruct (vec_add_all_spec (@vec_new A) xs vec_new_ok) as ([Hc _] & _).
  fold vec0 in Hc.
  assert (xs = [] \/ 8 <= vec_capacity vec0) as Hcases.
  { destruct xs; [by left|right; by apply IH2]. }
  unfold vec_add.
  destruct (Z.gtb_spec (vec_count vec0 + 1) (vec_capacity vec0)) as [Hgrow|Hroom];
    simpl.
  - destruct (Z.ltb_spec (vec_capacity vec0) 8); split; lia.
  - split; [lia|]. intros _. destruct Hcases as [->|?]; [|done].
    simpl in *. lia.
Qed.

(** X5. After [vec_add] of the elements of [xs] to a new array, [count] is
    their number, the cell [i] holds the [i]-th of them, and the capacity is
    at most the larger of 8 and twice the count. *)
Theorem vec_add_all_at (xs : list A) :
  let vec := fold_left vec_add xs vec_new in
  vec_count vec = Z.of_nat (length xs) /\
  (forall (i : nat) x, xs !! i = Some x -> vec_at vec (Z.of_nat i) = Some x) /\
  vec_count vec <= vec_capacity vec <= Z.max 8 (2 * vec_count vec) /\
  (xs <> [] -> 8 <= vec_capacity vec).
Proof.
  intros vec.
  destruct (vec_add_all_spec (@vec_new A) xs vec_new_ok) as (Hok & Hcount & Hcells).
  fold vec in Hok, Hcount, Hcells. simpl in Hcount, Hcells.
  destruct (vec_add_all_capacity xs) as [Hcap H8]. fold vec in Hcap, H8.
  split; [done|]. split; [|destruct Hok; split; [lia|done]].
  intros i x Hi. pose proof (lookup_lt_Some _ _ _ Hi).
  rewrite vec_at_cells by lia. rewrite Hcells, Nat2Z.id, list_lookup_fmap.
  by rewrite Hi.
Qed.

End vec_more.

(** ** Names and registration *)

Fixpoint spaceless (s : string) : bool :=
  match s with
  | EmptyString => true
  | String c s' => negb (Ascii.eqb c " ") && spaceless s'
  end.

(** A word: a string that is not empty and holds no space. *)
Definition is_word (w : string) : bool :=
  negb (String.eqb w "") && spaceless w.

Lemma append_cons (c : ascii) (a b : string) :
  (String c a ++ b)%string = String c (a ++ b)%string.
Proof. reflexivity. Qed.

Lemma append_nil_r (s : string) : (s ++ "")%string = s.
Proof. induction s as [|c s IH]; [done|]. by rewrite append_cons, IH. Qed.

Lemma append_assoc (a b c : string) : ((a ++ b) ++ c = a ++ (b ++ c))%string.
Proof. induction a as [|x a IH]; [done|]. by rewrite !append_cons, IH. Qed.

Lemma spaceless_app (a b : string) :
  spaceless (a ++ b) = spaceless a && spaceless b.
Proof.
  induction a as [|c a IH]; [done|]. rewrite append_cons. simpl.
  rewrite IH. by rewrite andb_assoc.
Qed.

Lemma strtok_from_app (word a b : string) :
  strtok_from word (a ++ String " " b) = strtok_from word a ++ strtok b.
Proof.
  revert word. induction a as [|c a IH]; intros word; simpl.
  - by destruct (String.eqb word "").
  - destruct (Ascii.eqb c " ").
    + rewrite IH. by destruct (String.eqb word "").
    + apply IH.
Qed.

Lemma strtok_from_word (word w : string) :
  spaceless w = true -> (word ++ w)%string <> ""%string ->
  strtok_from word w = [(word ++ w)%string].
Proof.
  revert word. induction w as [|c w IH]; intros word Hw Hne; simpl in *.
  - rewrite append_nil_r in *. by destruct (String.eqb_spec word "").
  - apply andb_true_iff in Hw as [Hc Hw]. apply negb_true_iff in Hc. rewrite Hc.
    rewrite IH; [|done|].
    + by rewrite append_assoc.
    + rewrite append_assoc. done.
Qed.

Lemma strtok_from_words (word s w : string) :
  spaceless word = true -> In w (strtok_from word s) -> is_word w = true.
Proof.
  revert word. induction s as [|c s IH]; intros word Hword; simpl.
  - destruct (String.eqb_spec word "") as [|Hne]; [done|].
    intros [<-|[]]. unfold is_word. rewrite Hword.
    by destruct (String.eqb_spec word "").
  - destruct (Ascii.eqb c " ") eqn:Hc.
    + destruct (String.eqb_spec word "") as [|Hne].
      * by apply IH.
      * intros [<-|Hin]; [|by apply (IH "")].
        unfold is_word. rewrite Hword. by destruct (String.eqb_spec word "").
    + apply IH. by rewrite spaceless_app, Hword; simpl; rewrite Hc.
Qed.

Lemma strtok_word (w : string) : is_word w = true -> strtok w = [w].
Proof.
  unfold is_word. intros [Hne Hw]%andb_true_iff.
  apply (strtok_from_word "" w Hw). simpl.
  by destruct (String.eqb_spec w "").
Qed.

Lemma strtok_concat (ws : list string) :
  Forall (fun w => is_word w = true) ws -> strtok (String.concat " " ws) = ws.
Proof.
  induction 1 as [|w ws Hw Hws IH]; [done|].
  destruct ws as [|w' ws]; [by apply strtok_word|].
  change (String.concat " " (w :: w' :: ws))
    with (w ++ String " " (String.concat " " (w' :: ws)))%string.
  unfold strtok at 1. rewrite strtok_from_app. fold (strtok w).
  by rewrite strtok_word, IH.
Qed.

(** X6. The names that [map_set_splitkey] binds are the words of the
    string: none of them is empty or holds a space, a space between two
    strings separates their words, and the words joined with single spaces
    are split into the same words.  After [map_set_splitkey], [map_get]
    finds the new value for each of these words, and for every other key
    what it found before. *)
Theorem strtok_splits_words :
  (forall s w : string, In w (strtok s) -> is_word w = true) /\
  (forall a b : string, strtok (a ++ String " " b) = strtok a ++ strtok b) /\
  (forall ws : list string,
     Forall (fun w => is_word w = true) ws -> strtok (String.concat " " ws) = ws) /\
  (forall (V : Type) (m : Map V) (keys : string) (v : V) (w : string),
     map_ok m ->
     (In w (strtok keys) -> map_get (map_set_splitkey m keys v) w = Some v) /\
     (~ In w (strtok keys) ->
      map_get (map_set_splitkey m keys v) w = map_get m w)).
Proof.
  split; [|split; [|split]].
  - intros s w. by apply strtok_from_words.
  - intros a b. apply strtok_from_app.
  - apply strtok_concat.
  - intros V m keys v w Hok. unfold map_set_splitkey. split.
    + apply (map_set_all_get m (strtok keys) v Hok).
    + by apply map_set_all_get_other.
Qed.

(** A name that is registered binds its words and no other: every other
    name reads as before. *)
Lemma register_option_other parser (name : string) (opt : Option) (w : string) :
  parser_ok parser -> ~ In w (strtok name) ->
  ap_get_opt (register_option parser name opt) w = ap_get_opt parser w.
Proof.
  intros Hok Hw. pose proof Hok as [p Hom _ Hov _ _ Hoptr _ _].
  unfold ap_get_opt, register_option, map_set_splitkey, set_options.
  cbn [option_map]. rewrite map_set_all_get_other by done.
  destruct (map_get (option_map p) w) as [ptr|] eqn:Hget; [|done].
  destruct (Hoptr _ _ Hget) as [Hptr _].
  unfold option_at. cbn [option_vec]. by rewrite vec_at_add_old.
Qed.

(** X7. Registering a flag or an option leaves every name that is not one of
    its words as it was: the same option with the same count and values, or
    no option. *)
Theorem registration_keeps_other_names parser (name w : string) :
  parser_ok parser -> ~ In w (strtok name) ->
  ap_get_opt (ap_flag parser name) w = ap_get_opt parser w /\
  (forall fallback,
     ap_get_opt (ap_str_opt parser name fallback) w = ap_get_opt parser w) /\
  (forall fallback,
     ap_get_opt (ap_int_opt parser name fallback) w = ap_get_opt parser w) /\
  (forall fallback,
     ap_get_opt (ap_dbl_opt parser name fallback) w = ap_get_opt parser w) /\
  ap_count (ap_flag parser name) w = ap_count parser w /\
  ap_found (ap_flag parser name) w = ap_found parser w.
Proof.
  intros Hok Hw. split_and!; try intros fallback;
    unfold ap_count, ap_found, ap_flag, ap_str_opt, ap_int_opt, ap_dbl_opt;
    by rewrite register_option_other.
Qed.

Lemma registration_keeps_other_names_witness :
  let parser := ap_int_opt ap_new "n num" 42 in
  parser_ok parser /\ ~ In "num"%string (strtok "v verbose") /\
  ap_get_opt (ap_flag parser "v verbose") "num" = ap_get_opt parser "num".
Proof.
  intros parser.
  assert (parser_ok parser) as H1 by apply ap_int_opt_ok, ap_new_ok.
  assert (~ In "num"%string (strtok "v verbose")) as H2.
  { vm_compute. intros [H|[H|[]]]; discriminate H. }
  split; [exact H1|]. split; [exact H2|].
  exact (proj1 (registration_keeps_other_names parser "v verbose" "num" H1 H2)).
Defined.

(** ** The parsing loop *)

Lemma set_positional_args_same parser :
  set_positional_args parser (positional_args parser) = parser.
Proof. by destruct parser. Qed.

Lemma stream_end_same s :
  stream_ok s -> argstream_has_next s = false -> stream_end s = s.
Proof.
  intros [Hidx _]. unfold argstream_has_next, stream_end.
  intros Hnext%Z.ltb_ge. destruct s as [count index args]. simpl in *.
  f_equal. lia.
Qed.

Section parser_more.

Variable strtod : string -> float * string * bool.

(** After the first argument a word with no dash in front is a positional
    argument, whatever it is. *)
Lemma ap_parse_arg_plain recurse parser s (arg : string) :
  String.prefix "-" arg = false ->
  ap_parse_arg strtod recurse parser s false arg
  = Ok (set_positional_args parser (vec_add (positional_args parser) arg), s, []).
Proof.
  intros Hdash. unfold ap_parse_arg.
  destruct (not_dash_prefix arg Hdash) as [-> ->]. by rewrite Hdash.
Qed.

Lemma plain_words_loop (rest : list string) fuel parser s :
  stream_ok s -> stream_rest s = rest ->
  Forall (fun a => String.prefix "-" a = false) rest ->
  (length rest < fuel)%nat ->
  ap_parse_loop strtod fuel parser s false
  = Ok (set_positional_args parser (fold_left vec_add rest (positional_args parser)),
        stream_end s, []).
Proof.
  revert fuel parser s.
  induction rest as [|arg rest IH]; intros fuel parser s Hok Hrest Hplain Hfuel.
  - apply stream_rest_nil in Hrest; [|done].
    rewrite ap_parse_loop_end by done. simpl.
    by rewrite set_positional_args_same, stream_end_same.
  - destruct fuel as [|fuel]; [simpl in Hfuel; lia|].
    destruct (stream_rest_cons s arg rest Hok Hrest) as (_ & _ & Hok' & Hrest').
    rewrite (ap_parse_loop_round strtod _ _ _ _ _ _ Hok Hrest).
    rewrite ap_parse_arg_plain by (by inversion Hplain). cbn [obind].
    rewrite (IH fuel _ (stream_advance s)); try done.
    + by inversion Hplain.
    + simpl in Hfuel. lia.
Qed.

Lemma plain_words_run parser (args : list string) :
  Forall (fun a => String.prefix "-" a = false) args ->
  map_get (command_map parser) (hd ""%string args) = None ->
  cmd_help parser && String.eqb (hd ""%string args) "help" = false ->
  vec_ok (positional_args parser) ->
  let vec := fold_left vec_add args (positional_args parser) in
  ap_parse_array strtod parser args = Ok (set_positional_args parser vec, []) /\
  ap_args (set_positional_args parser vec) = ap_args parser ++ map Some args /\
  ap_count_args (set_positional_args parser vec)
    = ap_count_args parser + Z.of_nat (length args).
Proof.
  intros Hplain Hcmd Hhelp Hvec vec.
  destruct (vec_add_all_spec _ args Hvec) as (_ & Hcount & Hcells).
  split; [|done].
  unfold ap_parse_array, ap_parse_stream.
  destruct (argstream_new_ok args) as [Hok Hrest].
  destruct args as [|arg rest].
  { rewrite ap_parse_loop_end by done. simpl.
    unfold vec. simpl. by rewrite set_positional_args_same. }
  destruct (stream_rest_cons _ arg rest Hok Hrest) as (_ & _ & Hok' & Hrest').
  rewrite (ap_parse_loop_round strtod _ _ _ _ _ _ Hok Hrest).
  simpl in Hcmd, Hhelp.
  assert (String.prefix "-" arg = false) as Hdash by (by inversion Hplain).
  unfold ap_parse_arg at 1. destruct (not_dash_prefix arg Hdash) as [-> ->].
  rewrite Hdash, Hcmd. simpl andb. rewrite Hhelp. cbn [obind].
  rewrite (plain_words_loop rest); try done.
  - by inversion Hplain.
  - simpl. lia.
Qed.

(** X8. When no argument starts with a dash, and the first one is neither a
    command nor the [help] of a parser with commands, every argument becomes
    a positional argument, in order; only the first one is looked up as a
    command. *)
Theorem plain_words_positional parser (args : list string) :
  Forall (fun a => String.prefix "-" a = false) args ->
  map_get (command_map parser) (hd ""%string args) = None ->
  cmd_help parser && String.eqb (hd ""%string args) "help" = false ->
  vec_ok (positional_args parser) ->
  let vec := fold_left vec_add args (positional_args parser) in
  ap_parse_array strtod parser args = Ok (set_positional_args parser vec, []) /\
  ap_args (set_positional_args parser vec) = ap_args parser ++ map Some args /\
  ap_count_args (set_positional_args parser vec)
    = ap_count_args parser + Z.of_nat (length args).
Proof. apply plain_words_run. Qed.

(** *** Options and their values *)

(** The tests of [ap_parse_stream] on [--name] with no ['=']. *)
Lemma ap_parse_arg_long recurse parser s is_first (name : string) :
  name <> ""%string -> has_equals name = false ->
  ap_parse_arg strtod recurse parser s is_first ("--" ++ name)
  = do (parser', s') <- ap_handle_long_opt strtod parser name s;
    Ok (parser', s', []).
Proof.
  intros Hname Heq. unfold ap_parse_arg.
  assert (String.eqb ("--" ++ name) "--" = false) as ->.
  { apply String.eqb_neq. intros [= H]. done. }
  change ("--" ++ name)%string with (String "-" (String "-" name)).
  assert (String.prefix "--" (String "-" (String "-" name)) = true) as ->.
  { by rewrite !prefix_cons, prefix_nil. }
  change (has_equals (String "-" (String "-" name))) with (has_equals name).
  rewrite Heq.
  assert (str_offset (String "-" (String "-" name)) 2 = name) as ->
    by (by destruct name).
  done.
Qed.

(** The tests on [-c...] with no ['=']: [c] is no digit and no dash. *)
Lemma ap_parse_arg_short recurse parser s is_first (c : ascii) (tl : string) :
  isdigit c = false -> c <> "-"%char -> has_equals (String c tl) = false ->
  ap_parse_arg strtod recurse parser s is_first (String "-" (String c tl))
  = do (parser', s') <- ap_handle_short_opt strtod parser (String c tl) s;
    Ok (parser', s', []).
Proof.
  intros Hdigit Hdash Heq. unfold ap_parse_arg.
  assert (String.eqb (String "-" (String c tl)) "--" = false) as ->.
  { apply String.eqb_neq. intros [= -> _]. done. }
  assert (Ascii.eqb "-" c = false) as Hc.
  { apply Ascii.eqb_neq. congruence. }
  assert (String.prefix "--" (String "-" (String c tl)) = false) as ->.
  { by rewrite !prefix_cons, Hc, andb_false_r. }
  assert (String.prefix "-" (String "-" (String c tl)) = true) as ->.
  { by rewrite prefix_cons, prefix_nil. }
  change (char_at (String "-" (String c tl)) 1) with c. rewrite Hdigit.
  assert ((String.length (String "-" (String c tl)) =? 1)%nat = false) as ->
    by (by destruct tl).
  change (has_equals (String "-" (String c tl))) with (has_equals (String c tl)).
  rewrite Heq.
  assert (str_offset (String "-" (String c tl)) 1 = String c tl) as ->
    by (by destruct tl).
  done.
Qed.

(** A round followed by the rest of the loop, for a handler that makes no
    call of a callback. *)
Lemma ap_parse_loop_handler fuel parser s is_first (arg : string)
    (rest : list string) (handler : Outcome (ArgParser * ArgStream)) :
  stream_ok s -> stream_rest s = arg :: rest ->
  (forall recurse,
     ap_parse_arg strtod recurse parser (stream_advance s) is_first arg
     = do (parser', s') <- handler; Ok (parser', s', [])) ->
  ap_parse_loop strtod (S fuel) parser s is_first
  = do (parser', s') <- handler; ap_parse_loop strtod fuel parser' s' false.
Proof.
  intros Hok Hrest Harg.
  rewrite (ap_parse_loop_round strtod _ _ _ _ _ _ Hok Hrest), Harg.
  destruct handler as [[parser' s']| | | |]; cbn [obind]; try done.
  apply obind_ret_calls.
Qed.

Lemma ap_handle_long_opt_value parser s (name v : string) (rest : list string)
    ptr opt :
  map_get (option_map parser) name = Some ptr -> option_at parser ptr = Ok opt ->
  opt_type opt <> OPT_FLAG ->
  stream_ok s -> stream_rest s = v :: rest ->
  ap_handle_long_opt strtod parser name s
  = do opt' <- option_try_set strtod opt v;
    Ok (store_option parser ptr opt', stream_advance s).
Proof.
  intros Hget Hat Htype Hok Hrest. unfold ap_handle_long_opt.
  rewrite Hget, Hat. cbn [obind].
  destruct (OptionType_eqb (opt_type opt) OPT_FLAG) eqn:Hflag.
  { by apply OptionType_eqb_eq in Hflag. }
  destruct (stream_rest_cons s v rest Hok Hrest) as (-> & -> & _). done.
Qed.

Lemma ap_handle_short_opt_value parser s (c : ascii) (v : string)
    (rest : list string) ptr opt :
  map_get (option_map parser) (String c "") = Some ptr ->
  option_at parser ptr = Ok opt -> opt_type opt <> OPT_FLAG ->
  stream_ok s -> stream_rest s = v :: rest ->
  ap_handle_short_opt strtod parser (String c "") s
  = do opt' <- option_try_set strtod opt v;
    Ok (store_option parser ptr opt', stream_advance s).
Proof.
  intros Hget Hat Htype Hok Hrest. unfold ap_handle_short_opt. simpl.
  rewrite Hget, Hat. cbn [obind].
  destruct (OptionType_eqb (opt_type opt) OPT_FLAG) eqn:Hflag.
  { by apply OptionType_eqb_eq in Hflag. }
  destruct (stream_rest_cons s v rest Hok Hrest) as (-> & -> & _). cbn [obind].
  by destruct (option_try_set strtod opt v).
Qed.

Lemma option_value_round fuel parser s is_first (name v : string)
    (rest : list string) (ptr : Z) (opt : Option) :
  name <> ""%string -> has_equals name = false ->
  map_get (option_map parser) name = Some ptr ->
  option_at parser ptr = Ok opt -> opt_type opt <> OPT_FLAG ->
  stream_ok s -> stream_rest s = ("--" ++ name)%string :: v :: rest ->
  ap_parse_loop strtod (S fuel) parser s is_first
    = (do opt' <- option_try_set strtod opt v;
       ap_parse_loop strtod fuel (store_option parser ptr opt')
         (stream_advance (stream_advance s)) false) /\
  (opt_type opt = OPT_STR ->
   option_try_set strtod opt v = Ok (option_append_value opt (str_val v))) /\
  (forall (c : ascii) s2 first2,
     name = String c "" -> isdigit c = false -> c <> "-"%char ->
     stream_ok s2 -> stream_rest s2 = ("-" ++ name)%string :: v :: rest ->
     ap_parse_loop strtod (S fuel) parser s2 first2
       = (do opt' <- option_try_set strtod opt v;
          ap_parse_loop strtod fuel (store_option parser ptr opt')
            (stream_advance (stream_advance s2)) false)).
Proof.
  intros Hname Heq Hget Hat Htype Hok Hrest. split; [|split].
  - destruct (stream_rest_cons s _ _ Hok Hrest) as (_ & _ & Hok1 & Hrest1).
    rewrite (ap_parse_loop_handler fuel parser s is_first _ _
               (ap_handle_long_opt strtod parser name (stream_advance s)) Hok Hrest).
    + rewrite (ap_handle_long_opt_value _ _ _ v rest ptr opt) by done.
      by destruct (option_try_set strtod opt v).
    + intros recurse. by apply ap_parse_arg_long.
  - intros Hstr. unfold option_try_set. by rewrite Hstr.
  - intros c s2 first2 -> Hdigit Hdash Hok2 Hrest2.
    destruct (stream_rest_cons s2 _ _ Hok2 Hrest2) as (_ & _ & Hok1 & Hrest1).
    rewrite (ap_parse_loop_handler fuel parser s2 first2 _ _
               (ap_handle_short_opt strtod parser (String c "") (stream_advance s2))
               Hok2 Hrest2).
    + rewrite (ap_handle_short_opt_value _ _ _ v rest ptr opt) by done.
      by destruct (option_try_set strtod opt v).
    + intros recurse. by apply ap_parse_arg_short.
Qed.

(** X9. An option that takes a value takes the next argument as it is,
    whether it starts with a dash or not, in the long form and in the short
    form alike; a string option stores it unchanged. *)
Theorem option_takes_next_word fuel parser s is_first (name v : string)
    (rest : list string) (ptr : Z) (opt : Option) :
  name <> ""%string -> has_equals name = false ->
  map_get (option_map parser) name = Some ptr ->
  option_at parser ptr = Ok opt -> opt_type opt <> OPT_FLAG ->
  stream_ok s -> stream_rest s = ("--" ++ name)%string :: v :: rest ->
  ap_parse_loop strtod (S fuel) parser s is_first
    = (do opt' <- option_try_set strtod opt v;
       ap_parse_loop strtod fuel (store_option parser ptr opt')
         (stream_advance (stream_advance s)) false) /\
  (opt_type opt = OPT_STR ->
   option_try_set strtod opt v = Ok (option_append_value opt (str_val v))) /\
  (forall (c : ascii) s2 first2,
     name = String c "" -> isdigit c = false -> c <> "-"%char ->
     stream_ok s2 -> stream_rest s2 = ("-" ++ name)%string :: v :: rest ->
     ap_parse_loop strtod (S fuel) parser s2 first2
       = (do opt' <- option_try_set strtod opt v;
          ap_parse_loop strtod fuel (store_option parser ptr opt')
            (stream_advance (stream_advance s2)) false)).
Proof. apply option_value_round. Qed.

(** X10. An option that takes a value and is the last argument ends the run
    with the error that names it. *)
Theorem option_missing_argument fuel parser s is_first (name : string)
    (ptr : Z) (opt : Option) :
  name <> ""%string -> has_equals name = false ->
  map_get (option_map parser) name = Some ptr ->
  option_at parser ptr = Ok opt -> opt_type opt <> OPT_FLAG ->
  stream_ok s -> stream_rest s = [("--" ++ name)%string] ->
  ap_parse_loop strtod (S fuel) parser s is_first
    = Fatal ("missing argument for the --" ++ name ++ " option")%string /\
  (forall (c : ascii) s2 first2,
     name = String c "" -> isdigit c = false -> c <> "-"%char ->
     stream_ok s2 -> stream_rest s2 = [("-" ++ name)%string] ->
     ap_parse_loop strtod (S fuel) parser s2 first2
       = Fatal ("missing argument for the -" ++ name ++ " option")%string).
Proof.
  intros Hname Heq Hget Hat Htype Hok Hrest.
  assert (OptionType_eqb (opt_type opt) OPT_FLAG = false) as Hflag.
  { destruct (OptionType_eqb (opt_type opt) OPT_FLAG) eqn:E; [|done].
    by apply OptionType_eqb_eq in E. }
  split.
  - destruct (stream_rest_cons s _ _ Hok Hrest) as (_ & _ & Hok1 & Hrest1).
    apply stream_rest_nil in Hrest1; [|done].
    rewrite (ap_parse_loop_handler fuel parser s is_first _ _
               (ap_handle_long_opt strtod parser name (stream_advance s)) Hok Hrest).
    + unfold ap_handle_long_opt. rewrite Hget, Hat. cbn [obind].
      by rewrite Hflag, Hrest1.
    + intros recurse. by apply ap_parse_arg_long.
  - intros c s2 first2 -> Hdigit Hdash Hok2 Hrest2.
    destruct (stream_rest_cons s2 _ _ Hok2 Hrest2) as (_ & _ & Hok1 & Hrest1).
    apply stream_rest_nil in Hrest1; [|done].
    rewrite (ap_parse_loop_handler fuel parser s2 first2 _ _
               (ap_handle_short_opt strtod parser (String c "") (stream_advance s2))
               Hok2 Hrest2).
    + unfold ap_handle_short_opt. simpl. rewrite Hget, Hat. cbn [obind].
      by rewrite Hflag, Hrest1.
    + intros recurse. by apply ap_parse_arg_short.
Qed.

(** *** Help and version *)

Lemma ap_parse_loop_exit fuel parser s is_first (arg : string)
    (rest : list string) (handler : Outcome (ArgParser * ArgStream)) out :
  stream_ok s -> stream_rest s = arg :: rest ->
  (forall recurse,
     ap_parse_arg strtod recurse parser (stream_advance s) is_first arg
     = do (parser', s') <- handler; Ok (parser', s', [])) ->
  handler = out -> (forall r, out <> Ok r) ->
  ap_parse_loop strtod (S fuel) parser s is_first
  = match out with
    | Ok _ => OutOfFuel
    | Fatal msg => Fatal msg
    | Exit0 text => Exit0 text
    | Undefined => Undefined
    | OutOfFuel => OutOfFuel
    end.
Proof.
  intros Hok Hrest Harg <- Hout.
  rewrite (ap_parse_loop_handler fuel parser s is_first arg rest handler Hok Hrest Harg).
  destruct handler as [r| | | |]; try done. by destruct (Hout r).
Qed.

Lemma help_and_version_rounds fuel parser s is_first (rest : list string) :
  (forall text, helptext parser = Some text ->
     map_get (option_map parser) "help" = None ->
     stream_ok s -> stream_rest s = "--help"%string :: rest ->
     ap_parse_loop strtod (S fuel) parser s is_first = Exit0 (Some text)) /\
  (forall text, helptext parser = Some text ->
     map_get (option_map parser) "h" = None ->
     stream_ok s -> stream_rest s = "-h"%string :: rest ->
     ap_parse_loop strtod (S fuel) parser s is_first = Exit0 (Some text)) /\
  (forall text, version parser = Some text ->
     map_get (option_map parser) "version" = None ->
     stream_ok s -> stream_rest s = "--version"%string :: rest ->
     ap_parse_loop strtod (S fuel) parser s is_first = Exit0 (Some text)) /\
  (forall text, version parser = Some text ->
     map_get (option_map parser) "v" = None ->
     stream_ok s -> stream_rest s = "-v"%string :: rest ->
     ap_parse_loop strtod (S fuel) parser s is_first = Exit0 (Some text)) /\
  (helptext parser = None ->
   map_get (option_map parser) "help" = None ->
   stream_ok s -> stream_rest s = "--help"%string :: rest ->
   ap_parse_loop strtod (S fuel) parser s is_first
     = Fatal "--help is not a recognised flag or option name").
Proof.
  split_and!.
  - intros text Htext Hget Hok Hrest.
    rewrite (ap_parse_loop_exit fuel parser s is_first _ _
               (ap_handle_long_opt strtod parser "help" (stream_advance s))
               (Exit0 (Some text)) Hok Hrest); [done| | |done].
    + intros recurse. by apply (ap_parse_arg_long recurse parser _ is_first "help").
    + unfold ap_handle_long_opt. by rewrite Hget, Htext.
  - intros text Htext Hget Hok Hrest.
    rewrite (ap_parse_loop_exit fuel parser s is_first _ _
               (ap_handle_short_opt strtod parser "h" (stream_advance s))
               (Exit0 (Some text)) Hok Hrest); [done| | |done].
    + intros recurse. by apply (ap_parse_arg_short recurse parser _ is_first "h" "").
    + unfold ap_handle_short_opt. simpl. by rewrite Hget, Htext.
  - intros text Htext Hget Hok Hrest.
    rewrite (ap_parse_loop_exit fuel parser s is_first _ _
               (ap_handle_long_opt strtod parser "version" (stream_advance s))
               (Exit0 (Some text)) Hok Hrest); [done| | |done].
    + intros recurse. by apply (ap_parse_arg_long recurse parser _ is_first "version").
    + unfold ap_handle_long_opt. by rewrite Hget, Htext.
  - intros text Htext Hget Hok Hrest.
    rewrite (ap_parse_loop_exit fuel parser s is_first _ _
               (ap_handle_short_opt strtod parser "v" (stream_advance s))
               (Exit0 (Some text)) Hok Hrest); [done| | |done].
    + intros recurse. by apply (ap_parse_arg_short recurse parser _ is_first "v" "").
    + unfold ap_handle_short_opt. simpl. by rewrite Hget, Htext.
  - intros Htext Hget Hok Hrest.
    rewrite (ap_parse_loop_exit fuel parser s is_first _ _
               (ap_handle_long_opt strtod parser "help" (stream_advance s))
               (Fatal "--help is not a recognised flag or option name")
               Hok Hrest); [done| | |done].
    + intros recurse. by apply (ap_parse_arg_long recurse parser _ is_first "help").
    + unfold ap_handle_long_opt. rewrite Hget, Htext. simpl.
      by destruct (version parser).
Qed.

(** X11. With a help text and no option named [help], [--help] writes the
    text and exits with 0 whatever follows it, and so does [-h] when no
    option is named [h]; [--version] and [-v] do the same with the version;
    without a help text, [--help] is an unknown option. *)
Theorem help_and_version fuel parser s is_first (rest : list string) :
  (forall text, helptext parser = Some text ->
     map_get (option_map parser) "help" = None ->
     stream_ok s -> stream_rest s = "--help"%string :: rest ->
     ap_parse_loop strtod (S fuel) parser s is_first = Exit0 (Some text)) /\
  (forall text, helptext parser = Some text ->
     map_get (option_map parser) "h" = None ->
     stream_ok s -> stream_rest s = "-h"%string :: rest ->
     ap_parse_loop strtod (S fuel) parser s is_first = Exit0 (Some text)) /\
  (forall text, version parser = Some text ->
     map_get (option_map parser) "version" = None ->
     stream_ok s -> stream_rest s = "--version"%string :: rest ->
     ap_parse_loop strtod (S fuel) parser s is_first = Exit0 (Some text)) /\
  (forall text, version parser = Some text ->
     map_get (option_map parser) "v" = None ->
     stream_ok s -> stream_rest s = "-v"%string :: rest ->
     ap_parse_loop strtod (S fuel) parser s is_first = Exit0 (Some text)) /\
  (helptext parser = None ->
   map_get (option_map parser) "help" = None ->
   stream_ok s -> stream_rest s = "--help"%string :: rest ->
   ap_parse_loop strtod (S fuel) parser s is_first
     = Fatal "--help is not a recognised flag or option name").
Proof. apply help_and_version_rounds. Qed.

(** X12. The automatic [help] command of a parser with commands, as the
    first argument: with the name of a command it writes the help text of
    that command, if it has one, and exits with 0; with another name, or
    with no name, it ends the run with an error. *)
Theorem help_command fuel parser s (rest : list string) :
  cmd_help parser = true ->
  map_get (command_map parser) "help" = None ->
  stream_ok s ->
  (forall (name : string) ptr child,
     stream_rest s = "help"%string :: name :: rest ->
     map_get (command_map parser) name = Some ptr ->
     vec_at (command_vec parser) ptr = Some child ->
     ap_parse_loop strtod (S fuel) parser s true = Exit0 (helptext child)) /\
  (forall name : string,
     stream_rest s = "help"%string :: name :: rest ->
     map_get (command_map parser) name = None ->
     ap_parse_loop strtod (S fuel) parser s true
       = Fatal ("'" ++ name ++ "' is not a recognised command")%string) /\
  (stream_rest s = ["help"%string] ->
   ap_parse_loop strtod (S fuel) parser s true
     = Fatal "the help command requires an argument").
Proof.
  intros Hhelp Hnone Hok.
  assert (forall recurse s1,
            ap_parse_arg strtod recurse parser s1 true "help"
            = do (parser', s') <- ap_handle_help_cmd parser s1;
              Ok (parser', s', [])) as Harg.
  { intros recurse s1. unfold ap_parse_arg. simpl String.eqb.
    change (String.prefix "--" "help") with false.
    change (String.prefix "-" "help") with false. cbv iota.
    by rewrite Hnone, Hhelp. }
  split_and!.
  - intros name ptr child Hrest Hget Hchild.
    destruct (stream_rest_cons s _ _ Hok Hrest) as (_ & _ & Hok1 & Hrest1).
    destruct (stream_rest_cons _ _ _ Hok1 Hrest1) as (Hnext & Hread & _).
    rewrite (ap_parse_loop_exit fuel parser s true _ _
               (ap_handle_help_cmd parser (stream_advance s))
               (Exit0 (helptext child)) Hok Hrest); try done.
    unfold ap_handle_help_cmd. rewrite Hnext, Hread. cbn [obind].
    by rewrite Hget, Hchild.
  - intros name Hrest Hget.
    destruct (stream_rest_cons s _ _ Hok Hrest) as (_ & _ & Hok1 & Hrest1).
    destruct (stream_rest_cons _ _ _ Hok1 Hrest1) as (Hnext & Hread & _).
    rewrite (ap_parse_loop_exit fuel parser s true _ _
               (ap_handle_help_cmd parser (stream_advance s))
               (Fatal ("'" ++ name ++ "' is not a recognised command")%string)
               Hok Hrest); try done.
    unfold ap_handle_help_cmd. rewrite Hnext, Hread. cbn [obind].
    by rewrite Hget.
  - intros Hrest.
    destruct (stream_rest_cons s _ _ Hok Hrest) as (_ & _ & Hok1 & Hrest1).
    apply stream_rest_nil in Hrest1; [|done].
    rewrite (ap_parse_loop_exit fuel parser s true _ _
               (ap_handle_help_cmd parser (stream_advance s))
               (Fatal "the help command requires an argument") Hok Hrest);
      try done.
    unfold ap_handle_help_cmd. by rewrite Hrest1.
Qed.

(** *** Flags in one argument *)

(** The character [c] names a flag, and [-c] is a short-form argument. *)
Definition flag_char parser (c : ascii) : Prop :=
  (exists ptr opt,
     map_get (option_map parser) (String c "") = Some ptr /\
     option_at parser ptr = Ok opt /\ opt_type opt = OPT_FLAG) /\
  isdigit c = false /\ c <> "-"%char /\ c <> "="%char.

(** [option->count++] on the flag that [c] names. *)
Definition count_flag parser (c : ascii) : ArgParser :=
  match map_get (option_map parser) (String c "") with
  | Some ptr =>
      match vec_at (option_vec parser) ptr with
      | Some opt => store_option parser ptr (bump_count opt)
      | None => parser
      end
  | None => parser
  end.

Lemma flag_char_count parser (c c' : ascii) :
  flag_char parser c -> flag_char parser c' -> flag_char (count_flag parser c') c.
Proof.
  intros [(ptr & opt & Hget & Hat & Htype) Hc] [(ptr' & opt' & Hget' & Hat' & Htype') _].
  split; [|done]. unfold count_flag. rewrite Hget'.
  apply option_at_Ok in Hat, Hat'. rewrite Hat'.
  destruct (decide (ptr = ptr')) as [->|Hne].
  - exists ptr', (bump_count opt'). split; [done|]. split; [|done].
    apply option_at_Ok. simpl. by eapply vec_at_store.
  - exists ptr, opt. split; [done|]. split; [|done].
    apply option_at_Ok. simpl. by rewrite (vec_at_store_ne _ _ _ opt').
Qed.

Lemma flag_chars_count parser (c : ascii) (cs : list ascii) :
  flag_char parser c -> Forall (flag_char parser) cs ->
  Forall (flag_char (count_flag parser c)) cs.
Proof.
  intros Hc Hcs. eapply Forall_impl; [exact Hcs|].
  intros c' Hc'. by apply flag_char_count.
Qed.

Lemma has_equals_flag_chars parser (cs : list ascii) :
  Forall (flag_char parser) cs -> has_equals (string_of_list_ascii cs) = false.
Proof.
  induction 1 as [|c cs (_ & _ & _ & Hc) _ IH]; [done|]. simpl.
  rewrite IH, orb_false_r. by apply Ascii.eqb_neq.
Qed.

Lemma ap_handle_short_loop_flags parser (arg : string) (cs : list ascii) s :
  Forall (flag_char parser) cs ->
  ap_handle_short_loop strtod parser arg (string_of_list_ascii cs) s
  = Ok (fold_left count_flag cs parser, s).
Proof.
  revert parser. induction cs as [|c cs IH]; intros parser Hcs; [done|].
  inversion Hcs as [|? ? Hc Hcs']; subst.
  pose proof Hc as [(ptr & opt & Hget & Hat & Htype) _].
  assert (count_flag parser c = store_option parser ptr (bump_count opt)) as Hcount.
  { unfold count_flag. rewrite Hget. apply option_at_Ok in Hat. by rewrite Hat. }
  simpl. rewrite Hget, Hat. cbn [obind]. rewrite Htype. simpl.
  rewrite <- Hcount. apply IH. by apply flag_chars_count.
Qed.

Lemma flags_cluster_round fuel parser s is_first (c : ascii) (cs : list ascii)
    (rest : list string) :
  Forall (flag_char parser) (c :: cs) ->
  stream_ok s ->
  stream_rest s = String "-" (string_of_list_ascii (c :: cs)) :: rest ->
  ap_parse_loop strtod (S fuel) parser s is_first
  = ap_parse_loop strtod fuel (fold_left count_flag (c :: cs) parser)
      (stream_advance s) false.
Proof.
  intros Hcs Hok Hrest.
  pose proof (has_equals_flag_chars parser _ Hcs) as Heq.
  inversion Hcs as [|? ? (_ & Hdigit & Hdash & _) _]; subst.
  rewrite (ap_parse_loop_handler fuel parser s is_first _ _
             (ap_handle_short_opt strtod parser (string_of_list_ascii (c :: cs))
                (stream_advance s)) Hok Hrest).
  - unfold ap_handle_short_opt. by rewrite ap_handle_short_loop_flags.
  - intros recurse. by apply (ap_parse_arg_short recurse parser _ is_first c).
Qed.

Lemma flags_separate_rounds (cs : list ascii) fuel parser s is_first
    (rest : list string) :
  Forall (flag_char parser) cs ->
  stream_ok s ->
  stream_rest s = map (fun c => String "-" (String c "")) cs ++ rest ->
  ap_parse_loop strtod (length cs + fuel) parser s is_first
  = ap_parse_loop strtod fuel (fold_left count_flag cs parser)
      (Nat.iter (length cs) stream_advance s)
      (match cs with [] => is_first | _ => false end).
Proof.
  revert parser s is_first.
  induction cs as [|c cs IH]; intros parser s is_first Hcs Hok Hrest; [done|].
  inversion Hcs as [|? ? Hc Hcs']; subst.
  change (map (fun c => String "-" (String c "")) (c :: cs) ++ rest)
    with (String "-" (String c "")
          :: (map (fun c => String "-" (String c "")) cs ++ rest)) in Hrest.
  destruct (stream_rest_cons s _ _ Hok Hrest) as (_ & _ & Hok1 & Hrest1).
  change (length (c :: cs) + fuel)%nat with (S (length cs + fuel)).
  rewrite (flags_cluster_round _ parser s is_first c []
             (map (fun c => String "-" (String c "")) cs ++ rest));
    [|by constructor|done|done].
  simpl fold_left at 1.
  rewrite (IH (count_flag parser c) (stream_advance s) false);
    [|by apply flag_chars_count|done|done].
  change (length (c :: cs)) with (S (length cs)).
  rewrite Nat.iter_succ_r. simpl fold_left. by destruct cs.
Qed.

(** X13. Flags written in one argument count as the same flags written one
    by one: after [-abc] and after [-a -b -c] the loop goes on with the same
    parser, in which each of the flags was counted once for each time it is
    written. *)
Theorem short_flags_combine fuel parser s s2 is_first (c : ascii)
    (cs : list ascii) (rest : list string) :
  Forall (flag_char parser) (c :: cs) ->
  stream_ok s ->
  stream_rest s = String "-" (string_of_list_ascii (c :: cs)) :: rest ->
  stream_ok s2 ->
  stream_rest s2 = map (fun c => String "-" (String c "")) (c :: cs) ++ rest ->
  let parser' := fold_left count_flag (c :: cs) parser in
  ap_parse_loop strtod (S fuel) parser s is_first
    = ap_parse_loop strtod fuel parser' (stream_advance s) false /\
  ap_parse_loop strtod (length (c :: cs) + fuel) parser s2 is_first
    = ap_parse_loop strtod fuel parser'
        (Nat.iter (length (c :: cs)) stream_advance s2) false /\
  stream_rest (stream_advance s) = rest /\
  stream_rest (Nat.iter (length (c :: cs)) stream_advance s2) = rest.
Proof.
  intros Hcs Hok Hrest Hok2 Hrest2 parser'. split_and!.
  - by apply (flags_cluster_round fuel parser s is_first c cs rest).
  - by rewrite (flags_separate_rounds (c :: cs) fuel parser s2 is_first rest).
  - by destruct (stream_rest_cons s _ _ Hok Hrest) as (_ & _ & _ & ?).
  - clear Hcs Hrest Hok s parser'. revert s2 Hok2 Hrest2.
    generalize (c :: cs). clear c cs.
    induction l as [|c cs IH]; intros s2 Hok2 Hrest2; [done|].
    change (map (fun c => String "-" (String c "")) (c :: cs) ++ rest)
      with (String "-" (String c "")
            :: (map (fun c => String "-" (String c "")) cs ++ rest)) in Hrest2.
    destruct (stream_rest_cons s2 _ _ Hok2 Hrest2) as (_ & _ & Hok1 & Hrest1).
    simpl length. rewrite Nat.iter_succ_r. by apply IH.
Qed.

(** *** What a run keeps *)

Lemma parser_ok_fields parser parser' :
  parser_ok parser ->
  option_vec parser' = option_vec parser -> option_map parser' = option_map parser ->
  command_vec parser' = command_vec parser ->
  command_map parser' = command_map parser ->
  positional_args parser' = positional_args parser ->
  parser_ok parser'.
Proof.
  intros [p Hom Hcm Hov Hcv Hpa Hoptr Hcptr Hchildren] H1 H2 H3 H4 H5.
  constructor; rewrite ?H1, ?H2, ?H3, ?H4, ?H5; assumption.
Qed.

(** X14. [ap_new] makes a well-formed parser and every function of the
    set-up interface keeps a parser well formed: the maps are hash tables
    with room, the arrays hold as many cells as they count, each name is
    bound to an option or a command that exists, and the parsers of the
    commands are well formed in turn. *)
Theorem setup_keeps_parser_ok :
  parser_ok ap_new /\
  (forall parser (name : string), parser_ok parser ->
     parser_ok (ap_flag parser name) /\
     (forall fallback, parser_ok (ap_str_opt parser name fallback)) /\
     (forall fallback, parser_ok (ap_int_opt parser name fallback)) /\
     (forall fallback, parser_ok (ap_dbl_opt parser name fallback)) /\
     parser_ok (fst (ap_cmd parser name)) /\
     pointer_ok (command_vec (fst (ap_cmd parser name))) (snd (ap_cmd parser name)) /\
     parser_ok (ap_helptext parser name) /\
     parser_ok (ap_version parser name)) /\
  (forall parser, parser_ok parser ->
     (forall fn, parser_ok (ap_callback parser fn)) /\
     (forall enable, parser_ok (ap_cmd_help parser enable)) /\
     (forall ptr f, pointer_ok (command_vec parser) ptr ->
        (forall child, parser_ok child -> parser_ok (f child)) ->
        parser_ok (on_cmd parser ptr f))).
Proof.
  split; [apply ap_new_ok|]. split.
  - intros parser name Hok. split_and!.
    + apply ap_flag_ok, Hok.
    + intros fallback. apply ap_str_opt_ok, Hok.
    + intros fallback. apply ap_int_opt_ok, Hok.
    + intros fallback. apply ap_dbl_opt_ok, Hok.
    + apply ap_cmd_ok, Hok.
    + destruct Hok as [p _ _ _ Hcv _ _ _ _]. apply pointer_ok_add_new, Hcv.
    + apply (parser_ok_fields parser); [exact Hok|reflexivity..].
    + apply (parser_ok_fields parser); [exact Hok|reflexivity..].
  - intros parser Hok. split_and!.
    + intros fn. apply (parser_ok_fields parser); [exact Hok|reflexivity..].
    + intros enable. apply (parser_ok_fields parser); [exact Hok|reflexivity..].
    + intros ptr f Hptr Hf. apply on_cmd_ok; assumption.
Qed.

(** X15. A run on a well-formed parser does nothing that C leaves
    undefined and comes to an end: it returns, or it exits with 0 or with
    an error.  When it returns, the parser is well formed, it has the names,
    the texts and the callback it had, and every option has its type, its
    fallback and the values it had, with the values of the run after them. *)
Theorem parse_is_defined parser (args : list string) :
  parser_ok parser ->
  ap_parse_array strtod parser args <> Undefined /\
  ap_parse_array strtod parser args <> OutOfFuel /\
  forall parser' calls,
    ap_parse_array strtod parser args = Ok (parser', calls) ->
    parser_ok parser' /\ same_setup parser parser'.
Proof.
  intros Hok. pose proof (ap_parse_array_defined strtod parser args Hok) as H.
  destruct (ap_parse_array strtod parser args) as [[p c]| | | |];
    simpl in H; try contradiction.
  - split; [discriminate|]. split; [discriminate|].
    intros parser' calls [= <- <-]. exact H.
  - split; [discriminate|]. split; [discriminate|]. discriminate.
  - split; [discriminate|]. split; [discriminate|]. discriminate.
Qed.

(** X16. A run registers nothing and forgets nothing: after it, a name that
    was not registered ends every accessor with the error that names it,
    and a name that was registered on a well-formed parser has a count,
    which is not less than before. *)
Theorem names_fixed_by_run parser (args : list string) parser' calls
    (name : string) :
  ap_parse_array strtod parser args = Ok (parser', calls) ->
  (map_get (option_map parser) name = None ->
   let msg := ("'" ++ name ++ "' is not a registered flag or option name")%string in
   ap_count parser' name = Fatal msg /\ ap_found parser' name = Fatal msg /\
   ap_str_value parser' name = Fatal msg /\ ap_int_value parser' name = Fatal msg /\
   ap_dbl_value parser' name = Fatal msg /\ ap_str_values parser' name = Fatal msg /\
   ap_int_values parser' name = Fatal msg /\ ap_dbl_values parser' name = Fatal msg) /\
  (forall n, parser_ok parser -> ap_count parser name = Ok n ->
   exists n', ap_count parser' name = Ok n' /\ n <= n').
Proof.
  intros Hrun.
  pose proof (returns_Ok _ _ _ (ap_parse_array_returns strtod parser args) Hrun)
    as (Hopts & _ & _ & _ & _ & _ & Hkept). cbn [fst] in *.
  split.
  - intros Hget. cbv zeta.
    unfold ap_count, ap_found, ap_str_value, ap_int_value, ap_dbl_value,
      ap_str_values, ap_int_values, ap_dbl_values, ap_get_opt.
    rewrite Hopts, Hget. done.
  - intros n Hok. unfold ap_count, ap_get_opt. rewrite Hopts.
    destruct (map_get (option_map parser) name) as [ptr|] eqn:Hget; [|done].
    destruct (option_at parser ptr) as [opt| | | |] eqn:Hat; try done.
    cbn [obind]. intros [= <-].
    destruct (Hkept _ _ Hat) as (opt' & -> & _ & _ & Hle & _).
    exists (opt_count opt'). done.
Qed.

End parser_more.

Lemma plain_words_positional_witness :
  let parser := ap_flag ap_new "v" in
  let args := ["a"; "help"; "b"]%string in
  Forall (fun a => String.prefix "-" a = false) args /\
  ap_parse_array strtod_none parser args
    = Ok (set_positional_args parser
            (fold_left vec_add args (positional_args parser)), []).
Proof.
  intros parser args.
  assert (Forall (fun a => String.prefix "-" a = false) args) as H1
    by (repeat constructor).
  assert (map_get (command_map parser) (hd ""%string args) = None) as H2
    by reflexivity.
  assert (cmd_help parser && String.eqb (hd ""%string args) "help" = false) as H3
    by reflexivity.
  assert (vec_ok (positional_args parser)) as H4 by apply vec_new_ok.
  split; [exact H1|].
  exact (proj1 (plain_words_positional strtod_none parser args H1 H2 H3 H4)).
Defined.

(** ** The positional arguments of a run *)

(** The arguments read between the stream [s] and the stream [s'] after
    it. *)
Definition consumed (s s' : ArgStream) : list string :=
  take (Z.to_nat (as_index s' - as_index s)) (stream_rest s).

(** The positional arguments of [parser'] are those of [parser] followed by
    some of [words], in their order. *)
Definition positionals_grow parser parser' (words : list string) : Prop :=
  vec_ok (positional_args parser') /\
  exists extra,
    sublist extra words /\
    vec_cells (positional_args parser')
      = vec_cells (positional_args parser) ++ map Some extra /\
    vec_count (positional_args parser')
      = vec_count (positional_args parser) + Z.of_nat (length extra).

Lemma positionals_grow_same parser parser' words :
  vec_ok (positional_args parser) ->
  positional_args parser' = positional_args parser ->
  positionals_grow parser parser' words.
Proof.
  intros Hok Heq. unfold positionals_grow. rewrite Heq.
  split; [done|]. exists []. split; [apply sublist_nil_l|].
  simpl. rewrite app_nil_r. split; [done|lia].
Qed.

Lemma positionals_grow_trans p1 p2 p3 w1 w2 :
  positionals_grow p1 p2 w1 -> positionals_grow p2 p3 w2 ->
  positionals_grow p1 p3 (w1 ++ w2).
Proof.
  intros (_ & e1 & Hs1 & Hc1 & Hn1) (Hok & e2 & Hs2 & Hc2 & Hn2).
  split; [done|]. exists (e1 ++ e2). split; [by apply sublist_app|].
  rewrite Hc2, Hc1, Hn2, Hn1, map_app, length_app, app_assoc. split; [done|lia].
Qed.

Lemma consumed_same s : consumed s s = [].
Proof. unfold consumed. by rewrite Z.sub_diag. Qed.

Lemma consumed_end s : stream_ok s -> consumed s (stream_end s) = stream_rest s.
Proof.
  intros [Hidx Hcount]. unfold consumed, stream_rest. simpl.
  apply take_ge. rewrite length_drop. lia.
Qed.

Lemma consumed_trans s1 s2 s3 :
  stream_ok s1 -> stream_step s1 s2 -> stream_step s2 s3 ->
  consumed s1 s3 = consumed s1 s2 ++ consumed s2 s3.
Proof.
  intros [Hidx _] (_ & _ & Hargs2 & Hle2) (_ & _ & Hargs3 & Hle3).
  unfold consumed, stream_rest. rewrite Hargs2.
  replace (Z.to_nat (as_index s3 - as_index s1))
    with (Z.to_nat (as_index s2 - as_index s1)
          + Z.to_nat (as_index s3 - as_index s2))%nat by lia.
  rewrite <- take_take_drop, drop_drop. do 3 f_equal. lia.
Qed.

Lemma consumed_advance s (arg : string) (rest : list string) s' :
  stream_ok s -> stream_rest s = arg :: rest -> stream_step (stream_advance s) s' ->
  consumed s s' = arg :: consumed (stream_advance s) s'.
Proof.
  intros Hok Hrest Hstep.
  destruct (stream_rest_cons s arg rest Hok Hrest) as (_ & _ & Hok1 & Hrest1).
  assert (stream_step s (stream_advance s)) as Hadv.
  { unfold stream_step. simpl. split_and!; try done. lia. }
  rewrite (consumed_trans s (stream_advance s) s') by done.
  unfold consumed at 1. simpl.
  replace (as_index s + 1 - as_index s) with 1 by lia. by rewrite Hrest.
Qed.

Lemma returns_and {A} (P Q : A -> Prop) m :
  returns P m -> returns Q m -> returns (fun a => P a /\ Q a) m.
Proof. destruct m; simpl; auto. Qed.

Section positionals.

Variable strtod : string -> float * string * bool.

Lemma ap_handle_equals_opt_positionals parser dashes arg :
  returns (fun parser' => positional_args parser' = positional_args parser)
    (ap_handle_equals_opt strtod parser dashes arg).
Proof.
  unfold ap_handle_equals_opt.
  destruct (split_equals arg) as [[name v]|]; [|done].
  destruct (map_get _ name) as [ptr|]; [|done].
  destruct (option_at_cases parser ptr) as [[opt Hat]|Hat]; rewrite Hat; cbn [obind];
    [|done].
  destruct (OptionType_eqb _ _); [done|]. destruct (_ =? _)%nat; [done|].
  eapply returns_bind; [apply option_try_set_returns|]. by intros opt' _.
Qed.

Lemma ap_handle_long_opt_positionals parser arg s :
  stream_ok s ->
  returns (fun r => positional_args (fst r) = positional_args parser)
    (ap_handle_long_opt strtod parser arg s).
Proof.
  intros Hok. unfold ap_handle_long_opt.
  destruct (map_get _ arg) as [ptr|].
  - destruct (option_at_cases parser ptr) as [[opt Hat]|Hat]; rewrite Hat; cbn [obind];
      [|done].
    destruct (OptionType_eqb _ _); [done|].
    destruct (argstream_has_next s) eqn:Hnext; [|done].
    eapply returns_bind; [by apply argstream_next_returns|]. intros [v s'] _.
    eapply returns_bind; [apply option_try_set_returns|]. by intros opt' _.
  - destruct (if String.eqb arg "help" then _ else _); [done|].
    by destruct (if String.eqb arg "version" then _ else _).
Qed.

Lemma ap_handle_short_loop_positionals parser arg rest s :
  stream_ok s ->
  returns (fun r => positional_args (fst r) = positional_args parser)
    (ap_handle_short_loop strtod parser arg rest s).
Proof.
  revert parser s. induction rest as [|c rest IH]; intros parser s Hok; simpl; [done|].
  destruct (map_get _ _) as [ptr|].
  - destruct (option_at_cases parser ptr) as [[opt Hat]|Hat]; rewrite Hat; cbn [obind];
      [|done].
    destruct (OptionType_eqb _ _).
    { eapply returns_weaken; [by apply IH|]. by intros [p' s']. }
    destruct (argstream_has_next s) eqn:Hnext.
    + eapply returns_bind; [by apply argstream_next_returns|]. intros [v s'] [Hstep _].
      eapply returns_bind; [apply option_try_set_returns|]. intros opt' _.
      eapply returns_weaken; [apply IH, Hstep|]. by intros [p'' s''].
    + by destruct (_ <? _)%nat.
  - destruct (if Ascii.eqb c "h" then _ else _); [done|].
    destruct (if Ascii.eqb c "v" then _ else _); [done|].
    by destruct (_ <? _)%nat.
Qed.

(** One round: the positional arguments grow by the argument read, by the
    arguments after [--], or not at all. *)
Lemma ap_parse_arg_positionals recurse parser s is_first arg :
  stream_ok s -> vec_ok (positional_args parser) ->
  (forall child, returns (fun _ => True) (recurse child s)) ->
  returns (fun r => stream_step s (snd (fst r)) ->
                    positionals_grow parser (fst (fst r))
                      (arg :: consumed s (snd (fst r))))
    (ap_parse_arg strtod recurse parser s is_first arg).
Proof.
  intros Hok Hvec Hrec. unfold ap_parse_arg.
  assert (forall parser' s', positional_args parser' = positional_args parser ->
            positionals_grow parser parser' (arg :: consumed s s')) as Hsame.
  { intros parser' s' Heq. by apply positionals_grow_same. }
  assert (positionals_grow parser
            (set_positional_args parser (vec_add (positional_args parser) arg))
            (arg :: consumed s s)) as Hadd.
  { destruct (vec_add_spec _ arg Hvec) as (Hok' & Hcount & Hcells).
    split; [exact Hok'|]. exists [arg]. rewrite consumed_same.
    split; [done|]. cbn [set_positional_args positional_args].
    split; [exact Hcells|]. rewrite Hcount. simpl length. lia. }
  destruct (String.eqb arg "--").
  { rewrite (add_remaining_spec _ _ _ Hok eq_refl). simpl. intros _.
    destruct (vec_add_all_spec _ (stream_rest s) Hvec) as (Hok' & Hcount & Hcells).
    split; [exact Hok'|]. exists (stream_rest s). rewrite consumed_end by done.
    split; [by apply sublist_cons|]. split; [exact Hcells|exact Hcount]. }
  destruct (String.prefix "--" arg).
  { destruct (has_equals arg).
    - eapply returns_bind; [apply ap_handle_equals_opt_positionals|].
      intros p' Hp. simpl. intros _. by apply Hsame.
    - eapply returns_bind; [by apply ap_handle_long_opt_positionals|].
      intros [p' s'] Hp. simpl. intros _. by apply Hsame. }
  destruct (String.prefix "-" arg).
  { destruct (_ || _); [by simpl|].
    destruct (has_equals arg).
    - eapply returns_bind; [apply ap_handle_equals_opt_positionals|].
      intros p' Hp. simpl. intros _. by apply Hsame.
    - eapply returns_bind; [by apply ap_handle_short_loop_positionals|].
      intros [p' s'] Hp. simpl. intros _. by apply Hsame. }
  destruct (if is_first then _ else _) as [ptr|].
  - destruct (vec_at _ ptr) as [child|]; [|done].
    eapply returns_bind; [apply Hrec|]. intros [[c' s'] calls] _. simpl.
    intros _. by apply Hsame.
  - destruct (_ && _).
    + eapply returns_bind; [by apply ap_handle_help_cmd_returns|]. by intros [p' s'] [].
    + by simpl.
Qed.

Lemma ap_parse_loop_positionals fuel parser s is_first :
  stream_ok s -> vec_ok (positional_args parser) ->
  as_count s - as_index s < Z.of_nat fuel ->
  returns (fun r => positionals_grow parser (fst (fst r)) (consumed s (snd (fst r))))
    (ap_parse_loop strtod fuel parser s is_first).
Proof.
  revert parser s is_first.
  induction fuel as [|fuel IH]; intros parser s is_first Hok Hvec Hfuel.
  { destruct Hok. lia. }
  destruct (argstream_has_next s) eqn:Hnext.
  2:{ rewrite ap_parse_loop_end by done. simpl. rewrite consumed_same.
      by apply positionals_grow_same. }
  destruct (stream_rest s) as [|arg rest] eqn:Hrest.
  { apply stream_rest_nil in Hrest; [congruence|done]. }
  rewrite (ap_parse_loop_round strtod _ _ _ _ _ _ Hok Hrest).
  destruct (stream_rest_cons s arg rest Hok Hrest) as (_ & _ & Hok1 & _).
  assert (forall child,
            returns (fun r => stream_step (stream_advance s) (snd (fst r)) /\
                              argstream_has_next (snd (fst r)) = false)
              (ap_parse_loop strtod fuel child (stream_advance s) true)) as Hrec.
  { intros child.
    eapply returns_weaken; [apply ap_parse_loop_fuel; [done|simpl; lia]|].
    intros [[c' s'] calls] (_ & ? & ?). done. }
  eapply returns_bind.
  { apply returns_and.
    - apply (ap_parse_arg_returns strtod _ parser _ is_first arg Hok1 Hrec).
    - apply (ap_parse_arg_positionals _ parser _ is_first arg Hok1 Hvec).
      intros child. eapply returns_weaken; [apply Hrec|]. done. }
  intros [[p1 s1] calls] [[_ Hst1] Hgrow1]. simpl in Hst1, Hgrow1.
  specialize (Hgrow1 Hst1).
  assert (as_count s1 - as_index s1 < Z.of_nat fuel) as Hfuel1.
  { destruct Hst1 as (_ & -> & _ & ?). simpl in *. lia. }
  eapply returns_bind.
  { apply returns_and.
    - apply (ap_parse_loop_fuel strtod fuel p1 s1 false); [apply Hst1|done].
    - apply (IH p1 s1 false); [apply Hst1|apply Hgrow1|done]. }
  intros [[p2 s2] later] [(_ & Hst2 & _) Hgrow2]. simpl in *.
  rewrite (consumed_advance s arg rest s2 Hok Hrest)
    by (by eapply stream_step_trans).
  rewrite (consumed_trans (stream_advance s) s1 s2) by done.
  by apply (positionals_grow_trans parser p1 p2 (arg :: _)).
Qed.

Lemma positionals_of_run parser (args : list string) parser' calls :
  vec_ok (positional_args parser) ->
  ap_parse_array strtod parser args = Ok (parser', calls) ->
  exists extra,
    sublist extra args /\
    ap_args parser' = ap_args parser ++ map Some extra /\
    ap_count_args parser' = ap_count_args parser + Z.of_nat (length extra).
Proof.
  intros Hvec. unfold ap_parse_array, ap_parse_stream.
  destruct (argstream_new_ok args) as [Hok Hrest].
  set (s := argstream_new (Z.of_nat (length args)) args) in *.
  pose proof (ap_parse_loop_positionals (S (length args)) parser s true Hok Hvec)
    as Hloop.
  destruct (ap_parse_loop strtod (S (length args)) parser s true)
    as [[[p s'] c]| | | |]; cbn [obind]; try done.
  intros [= <- <-]. simpl in Hloop.
  destruct Hloop as (_ & extra & Hsub & Hcells & Hcount); [simpl; lia|].
  exists extra. split; [|done].
  etrans; [exact Hsub|]. unfold consumed. rewrite Hrest. apply sublist_take.
Qed.

(** X17. The positional arguments after a run are those before it followed
    by arguments of the run, in the order of the command line: none is lost
    or changed, and none is made up. *)
Theorem positionals_come_from_arguments parser (args : list string) parser' calls :
  vec_ok (positional_args parser) ->
  ap_parse_array strtod parser args = Ok (parser', calls) ->
  exists extra,
    sublist extra args /\
    ap_args parser' = ap_args parser ++ map Some extra /\
    ap_count_args parser' = ap_count_args parser + Z.of_nat (length extra).
Proof. apply positionals_of_run. Qed.

End positionals.

(** ** Numbers as text *)

Lemma digit_of_dec (v : Z) :
  0 <= v < 10 -> digit_of (ascii_of_N (Z.to_N (48 + v))) = Some v.
Proof.
  intros Hv.
  assert (v = 0 \/ v = 1 \/ v = 2 \/ v = 3 \/ v = 4 \/ v = 5 \/ v = 6 \/ v = 7
          \/ v = 8 \/ v = 9) as Hcases by lia.
  repeat (destruct Hcases as [->|Hcases]; [reflexivity|]). by subst.
Qed.

Lemma digit_of_hex (upper : bool) (v : Z) :
  0 <= v < 16 -> digit_of (hex_digit upper v) = Some v.
Proof.
  intros Hv.
  assert (v = 0 \/ v = 1 \/ v = 2 \/ v = 3 \/ v = 4 \/ v = 5 \/ v = 6 \/ v = 7
          \/ v = 8 \/ v = 9 \/ v = 10 \/ v = 11 \/ v = 12 \/ v = 13 \/ v = 14
          \/ v = 15) as Hcases by lia.
  repeat (destruct Hcases as [->|Hcases]; [by destruct upper|]).
  subst. by destruct upper.
Qed.

Lemma strtol_digits_cons (base a d : Z) (c : ascii) (s : string) :
  digit_of c = Some d -> d < base ->
  strtol_digits base a (String c s) = strtol_digits base (a * base + d) s.
Proof.
  intros Hc Hd. simpl. rewrite Hc.
  by destruct (Z.ltb_spec d base); [|lia].
Qed.

(** *** Decimal *)

Lemma strtol_dec_digits (fuel : nat) (n : Z) (acc : string) (k m : Z) :
  0 <= n < 10 ^ Z.of_nat fuel -> 0 <= k ->
  (forall a, strtol_digits 10 a acc = (a * 10 ^ k + m, ""%string)) ->
  strtol_digits 10 0 (dec_digits fuel n acc) = (n * 10 ^ k + m, ""%string).
Proof.
  revert n acc k m. induction fuel as [|fuel IH]; intros n acc k m Hn Hk Hacc.
  { simpl in *. rewrite Hacc. do 2 f_equal. lia. }
  simpl dec_digits.
  assert (0 <= n mod 10 < 10) as Hd by (apply Z.mod_pos_bound; lia).
  destruct (Z.ltb_spec n 10) as [Hsmall|Hbig].
  - rewrite (strtol_digits_cons 10 0 (n mod 10)); [|by apply digit_of_dec|lia].
    rewrite Hacc, Z.mod_small by lia. do 2 f_equal.
  - rewrite (IH (n / 10) _ (k + 1) (n mod 10 * 10 ^ k + m)).
    + f_equal. rewrite Z.pow_add_r by lia. change (10 ^ 1) with 10.
      pose proof (Z.div_mod n 10). lia.
    + rewrite Nat2Z.inj_succ, Z.pow_succ_r in Hn by lia.
      split; [apply Z.div_pos; lia|]. apply Z.div_lt_upper_bound; lia.
    + lia.
    + intros a.
      rewrite (strtol_digits_cons 10 a (n mod 10)); [|by apply digit_of_dec|lia].
      rewrite Hacc. f_equal. rewrite Z.pow_add_r by lia. change (10 ^ 1) with 10.
      lia.
Qed.

Lemma dec_digits_head (fuel : nat) (n : Z) (acc : string) :
  0 < n < 10 ^ Z.of_nat fuel ->
  exists v tl, 1 <= v <= 9 /\
    dec_digits fuel n acc = String (ascii_of_N (Z.to_N (48 + v))) tl.
Proof.
  revert n acc. induction fuel as [|fuel IH]; intros n acc Hn.
  { simpl in Hn. lia. }
  simpl dec_digits. destruct (Z.ltb_spec n 10) as [Hsmall|Hbig].
  - exists n, acc. rewrite Z.mod_small by lia. split; [lia|done].
  - apply IH. rewrite Nat2Z.inj_succ, Z.pow_succ_r in Hn by lia.
    split; [apply Z.div_str_pos; lia|]. apply Z.div_lt_upper_bound; lia.
Qed.

Lemma fmt_int_fuel (n : Z) :
  0 < n -> n < 10 ^ Z.of_nat (S (Z.to_nat (Z.log2 n))).
Proof.
  intros Hn. pose proof (Z.log2_spec n Hn) as [_ Hlt].
  pose proof (Z.log2_nonneg n).
  rewrite Nat2Z.inj_succ, Z2Nat.id by lia.
  eapply Z.lt_le_trans; [exact Hlt|].
  apply Z.pow_le_mono_l. lia.
Qed.

(** [strtol] on a decimal number that does not start with 0, with or
    without a minus sign in front. *)
Lemma strtol_decimal (v : Z) (tl : string) (n : Z) (negative : bool) :
  1 <= v <= 9 ->
  let digits := String (ascii_of_N (Z.to_N (48 + v))) tl in
  strtol_digits 10 0 digits = (n, ""%string) ->
  0 <= n -> n <= LONG_MAX ->
  strtol (if negative then String "-" digits else digits)
  = (if negative then - n else n, ""%string, false).
Proof.
  intros Hv digits Hdigits Hmin Hmax.
  assert (v = 1 \/ v = 2 \/ v = 3 \/ v = 4 \/ v = 5 \/ v = 6 \/ v = 7
          \/ v = 8 \/ v = 9) as Hcases by lia.
  assert (forall s, s = digits ->
            strtol (if negative then String "-" s else s)
            = (let '(magnitude, rest) := strtol_digits 10 0 s in
               let x := if negative then - magnitude else magnitude in
               if x >? LONG_MAX then (LONG_MAX, rest, true)
               else if x <? LONG_MIN then (LONG_MIN, rest, true)
               else (x, rest, false))) as Hstrtol.
  { intros s ->. unfold digits.
    repeat (destruct Hcases as [->|Hcases]; [by destruct negative|]).
    subst. by destruct negative. }
  rewrite (Hstrtol digits eq_refl), Hdigits. cbv zeta.
  unfold LONG_MAX, LONG_MIN in *.
  destruct negative.
  - destruct (Z.gtb_spec (- n) 9223372036854775807); [lia|].
    by destruct (Z.ltb_spec (- n) (-9223372036854775808)); [lia|].
  - destruct (Z.gtb_spec n 9223372036854775807); [lia|].
    by destruct (Z.ltb_spec n (-9223372036854775808)); [lia|].
Qed.

Lemma try_str_to_int_fmt_int (n : Z) :
  INT_MIN <= n <= INT_MAX -> try_str_to_int (fmt_int n) = Ok n.
Proof.
  intros Hn. destruct (decide (n = 0)) as [->|Hne]; [done|].
  assert (0 < Z.abs n) as Habs by lia.
  pose proof (fmt_int_fuel (Z.abs n) Habs) as Hfuel.
  destruct (dec_digits_head (S (Z.to_nat (Z.log2 (Z.abs n)))) (Z.abs n) "")
    as (v & tl & Hv & Hhead); [lia|].
  pose proof (strtol_dec_digits (S (Z.to_nat (Z.log2 (Z.abs n)))) (Z.abs n) "" 0 0)
    as Hdigits.
  rewrite Hhead in Hdigits.
  assert (strtol_digits 10 0 (String (ascii_of_N (Z.to_N (48 + v))) tl)
          = (Z.abs n, ""%string)) as Hparse.
  { rewrite Hdigits; [do 2 f_equal; lia|lia|lia|].
    intros a. simpl. do 2 f_equal. lia. }
  unfold try_str_to_int, fmt_int. cbv zeta. rewrite Hhead.
  rewrite (strtol_decimal v tl (Z.abs n) (n <? 0) Hv Hparse);
    [|lia|unfold INT_MIN, INT_MAX, LONG_MAX in *; lia].
  assert ((if n <? 0 then - Z.abs n else Z.abs n) = n) as ->.
  { destruct (Z.ltb_spec n 0); lia. }
  simpl orb.
  destruct (Z.gtb_spec n INT_MAX); [lia|].
  by destruct (Z.ltb_spec n INT_MIN); [lia|].
Qed.

(** *** Hexadecimal *)

Lemma strtol_hex_digits (upper : bool) (n : nat) (v a : Z) (rest : string) :
  strtol_digits 16 a (hex_digits upper n v ++ rest)
  = strtol_digits 16 (a * 16 ^ Z.of_nat n + v mod 16 ^ Z.of_nat n) rest.
Proof.
  revert v a rest. induction n as [|n IH]; intros v a rest.
  { simpl. rewrite Z.mod_1_r. do 2 f_equal. lia. }
  simpl hex_digits. rewrite append_assoc, IH. rewrite append_cons.
  assert (0 <= v mod 16 < 16) as Hd by (apply Z.mod_pos_bound; lia).
  rewrite (strtol_digits_cons 16 _ (v mod 16)); [|by apply digit_of_hex|lia].
  change ("" ++ rest)%string with rest. f_equal.
  rewrite Nat2Z.inj_succ, Z.pow_succ_r by lia.
  rewrite (Z.rem_mul_r v 16 (16 ^ Z.of_nat n)) by lia. lia.
Qed.

Lemma hex_digits_head (upper : bool) (n : nat) (v : Z) :
  exists c tl, hex_digits upper (S n) v = String c tl /\
               exists d, digit_of c = Some d /\ 0 <= d < 16.
Proof.
  revert v. induction n as [|n IH]; intros v.
  - exists (hex_digit upper (v mod 16)), ""%string. split; [done|].
    exists (v mod 16).
    assert (0 <= v mod 16 < 16) by (apply Z.mod_pos_bound; lia).
    split; [by apply digit_of_hex|done].
  - destruct (IH (v / 16)) as (c & tl & Heq & Hc).
    change (hex_digits upper (S (S n)) v)
      with (hex_digits upper (S n) (v / 16)
            ++ String (hex_digit upper (v mod 16)) "")%string.
    rewrite Heq. by eexists _, _.
Qed.

Lemma try_str_to_int_hex (v : Z) :
  0 <= v <= INT_MAX -> try_str_to_int ("0x" ++ fmt_08x v) = Ok v.
Proof.
  intros Hv. unfold try_str_to_int, fmt_08x.
  assert (v mod 2 ^ 32 = v) as -> by (apply Z.mod_small; unfold INT_MAX in *; lia).
  destruct (hex_digits_head false 7 v) as (c & tl & Heq & d & Hc & Hd).
  pose proof (strtol_hex_digits false 8 v 0 "") as Hparse.
  rewrite append_nil_r, Heq in Hparse.
  assert (strtol ("0x" ++ hex_digits false 8 v) = (v, ""%string, false)) as ->.
  { rewrite Heq. unfold strtol.
    change (skip_spaces ("0x" ++ String c tl)) with ("0x" ++ String c tl)%string.
    change ("0x" ++ String c tl)%string with (String "0" (String "x" (String c tl))).
    cbv iota beta. simpl Ascii.eqb. simpl orb.
    assert (starts_with_digit 16 (String c tl) = true) as Hstart.
    { simpl. unfold is_digit_in. rewrite Hc. apply Z.ltb_lt. lia. }
    rewrite Hstart. simpl andb. cbv iota beta. rewrite Hstart, Hparse.
    change (0 * 16 ^ Z.of_nat 8) with 0. rewrite Z.add_0_l.
    rewrite Z.mod_small by (unfold INT_MAX in *; simpl; lia).
    change (strtol_digits 16 v "") with (v, ""%string).
    unfold INT_MAX, LONG_MAX, LONG_MIN in *.
    destruct (Z.gtb_spec v 9223372036854775807); [lia|].
    by destruct (Z.ltb_spec v (-9223372036854775808)); [lia|]. }
  simpl orb. destruct (Z.gtb_spec v INT_MAX); [lia|].
  by destruct (Z.ltb_spec v INT_MIN); [unfold INT_MIN in *; lia|].
Qed.

Lemma byte_val_range (b : Byte.byte) : 0 <= byte_val b < 256.
Proof. unfold byte_val. pose proof (Byte.to_N_bounded b). lia. Qed.

(** X18. Every [int] written in decimal, as [%d] writes it, is read back
    by [try_str_to_int] as the same [int]; so is an offset from 0 on written
    as [0x] and the eight digits of the offset column of a dump; and the two
    digits that a dump writes for a byte are read back in base 16 as the
    byte. *)
Theorem numbers_read_back :
  (forall n, INT_MIN <= n <= INT_MAX -> try_str_to_int (fmt_int n) = Ok n) /\
  (forall v, 0 <= v <= INT_MAX -> try_str_to_int ("0x" ++ fmt_08x v) = Ok v) /\
  (forall b, strtol_digits 16 0 (fmt_02X b) = (byte_val b, ""%string)).
Proof.
  split; [apply try_str_to_int_fmt_int|]. split; [apply try_str_to_int_hex|].
  intros b. unfold fmt_02X.
  pose proof (strtol_hex_digits true 2 (byte_val b) 0 "") as H.
  rewrite append_nil_r in H. rewrite H.
  change (16 ^ Z.of_nat 2) with 256.
  pose proof (byte_val_range b). rewrite Z.mod_small by lia.
  change (strtol_digits 16 (0 * 256 + byte_val b) "")
    with (0 * 256 + byte_val b, ""%string).
  by rewrite Z.add_0_l.
Qed.

(** *** The positional arguments as numbers *)

Lemma args_as_ok {A} (conv : string -> Outcome A) vec (l : list string)
    (xs : list A) (i : Z) :
  Forall2 (fun s x => conv s = Ok x) l xs ->
  (forall (j : nat) s, l !! j = Some s -> vec_at vec (i + Z.of_nat j) = Some s) ->
  args_as conv vec i (length l) = Ok xs.
Proof.
  intros Hconv. revert i. induction Hconv as [|s x l xs Hs _ IH]; intros i Hcells.
  { done. }
  pose proof (Hcells 0%nat s eq_refl) as H0. rewrite Z.add_0_r in H0.
  simpl. rewrite H0, Hs. cbn [obind]. rewrite IH; [done|].
  intros j s' Hj. rewrite <- Z.add_assoc.
  replace (1 + Z.of_nat j) with (Z.of_nat (S j)) by lia. by apply Hcells.
Qed.

Lemma args_as_fatal {A} (conv : string -> Outcome A) vec (pre : list string)
    (a : string) (post : list string) (xs : list A) (msg : string) (i : Z) :
  Forall2 (fun s x => conv s = Ok x) pre xs -> conv a = Fatal msg ->
  (forall (j : nat) s, (pre ++ a :: post) !! j = Some s ->
     vec_at vec (i + Z.of_nat j) = Some s) ->
  args_as conv vec i (length (pre ++ a :: post)) = Fatal msg.
Proof.
  intros Hconv Ha. revert i. induction Hconv as [|s x l xs Hs _ IH]; intros i Hcells.
  { pose proof (Hcells 0%nat a eq_refl) as H0. rewrite Z.add_0_r in H0.
    simpl. by rewrite H0, Ha. }
  pose proof (Hcells 0%nat s eq_refl) as H0. rewrite Z.add_0_r in H0.
  simpl. rewrite H0, Hs. cbn [obind]. rewrite IH; [done|].
  intros j s' Hj. rewrite <- Z.add_assoc.
  replace (1 + Z.of_nat j) with (Z.of_nat (S j)) by lia. by apply Hcells.
Qed.

Lemma ap_args_cells parser (args : list string) :
  vec_ok (positional_args parser) -> ap_args parser = map Some args ->
  Z.to_nat (ap_count_args parser) = length args /\
  forall (j : nat) s, args !! j = Some s ->
    vec_at (positional_args parser) (0 + Z.of_nat j) = Some s.
Proof.
  intros [Hcount Hlen] Hargs. unfold ap_args, ap_count_args in *.
  assert (length (vec_cells (positional_args parser)) = length args) as Hl.
  { by rewrite Hargs, length_map. }
  unfold vec_cells in Hl. rewrite length_take in Hl.
  split; [lia|]. intros j s Hj. pose proof (lookup_lt_Some _ _ _ Hj).
  rewrite vec_at_cells by lia. rewrite Z.add_0_l, Nat2Z.id, Hargs, list_lookup_fmap.
  by rewrite Hj.
Qed.

(** X19. [ap_args_as_ints] converts the positional arguments that [ap_args]
    returns, in their order: when each of them is an [int], the result holds
    these, and otherwise the run ends with the error of the first that is
    not.  [ap_args_as_doubles] does the same with [try_str_to_double]. *)
Theorem positionals_as_numbers parser (args : list string) :
  vec_ok (positional_args parser) -> ap_args parser = map Some args ->
  (forall ns, Forall2 (fun a n => try_str_to_int a = Ok n) args ns ->
     ap_args_as_ints parser = Ok ns) /\
  (forall pre a post ns msg,
     args = pre ++ a :: post ->
     Forall2 (fun a n => try_str_to_int a = Ok n) pre ns ->
     try_str_to_int a = Fatal msg ->
     ap_args_as_ints parser = Fatal msg) /\
  (forall strtod ds,
     Forall2 (fun a d => try_str_to_double strtod a = Ok d) args ds ->
     ap_args_as_doubles strtod parser = Ok ds) /\
  (forall strtod pre a post ds msg,
     args = pre ++ a :: post ->
     Forall2 (fun a d => try_str_to_double strtod a = Ok d) pre ds ->
     try_str_to_double strtod a = Fatal msg ->
     ap_args_as_doubles strtod parser = Fatal msg).
Proof.
  intros Hvec Hargs. destruct (ap_args_cells parser args Hvec Hargs) as [Hn Hcells].
  unfold ap_args_as_ints, ap_args_as_doubles. rewrite Hn. split_and!.
  - intros ns Hns. by apply args_as_ok.
  - intros pre a post ns msg -> Hns Ha. by eapply args_as_fatal.
  - intros strtod ds Hds. by apply args_as_ok.
  - intros strtod pre a post ds msg -> Hds Ha. by eapply args_as_fatal.
Qed.

(** ** The dump *)

(** *** One line *)

Lemma buffer_at_data (data : list Byte.byte) (rest : list (option Byte.byte))
    (i : Z) (b : Byte.byte) :
  0 <= i -> data !! Z.to_nat i = Some b ->
  buffer_at (map Some data ++ rest) i = Ok b.
Proof.
  intros Hi Hb. unfold buffer_at. destruct (Z.ltb_spec i 0); [lia|].
  rewrite lookup_app_l by (rewrite length_map; by eapply lookup_lt_Some).
  by rewrite list_lookup_fmap, Hb.
Qed.

Lemma print_hex_loop_data (data : list Byte.byte)
    (rest : list (option Byte.byte)) (rounds : nat) (i : Z) :
  0 <= i ->
  exists text,
    print_hex_loop (map Some data ++ rest) (Z.of_nat (length data)) i rounds
    = Ok text /\
    print_hex_loop (map Some data) (Z.of_nat (length data)) i rounds = Ok text.
Proof.
  revert i. induction rounds as [|rounds IH]; intros i Hi; simpl.
  { by exists ""%string. }
  destruct (IH (i + 1)) as (text & -> & ->); [lia|].
  destruct (Z.ltb_spec i (Z.of_nat (length data))) as [Hin|Hout].
  - destruct (lookup_lt_is_Some_2 data (Z.to_nat i)) as [b Hb]; [lia|].
    rewrite (buffer_at_data data rest i b Hi Hb).
    pose proof (buffer_at_data data [] i b Hi Hb) as Hclean.
    rewrite app_nil_r in Hclean. rewrite Hclean. cbn [obind]. by eexists.
  - cbn [obind]. by eexists.
Qed.

Lemma print_ascii_loop_data (data : list Byte.byte)
    (rest : list (option Byte.byte)) (rounds : nat) (i : Z) :
  0 <= i -> i + Z.of_nat rounds <= Z.of_nat (length data) ->
  exists text,
    print_ascii_loop (map Some data ++ rest) i rounds = Ok text /\
    print_ascii_loop (map Some data) i rounds = Ok text.
Proof.
  revert i. induction rounds as [|rounds IH]; intros i Hi Hn; simpl.
  { by exists ""%string. }
  destruct (IH (i + 1)) as (text & -> & ->); [lia|lia|].
  destruct (lookup_lt_is_Some_2 data (Z.to_nat i)) as [b Hb]; [lia|].
  rewrite (buffer_at_data data rest i b Hi Hb).
  pose proof (buffer_at_data data [] i b Hi Hb) as Hclean.
  rewrite app_nil_r in Hclean. rewrite Hclean. cbn [obind]. by eexists.
Qed.

(** The text of the line for the bytes [data], which [print_line] writes
    when the buffer starts with them. *)
Definition line_text (data : list Byte.byte) (offset line_length : Z) : string :=
  match print_line (map Some data) (Z.of_nat (length data)) offset line_length with
  | Ok text => text
  | _ => ""%string
  end.

Lemma print_line_data (data : list Byte.byte) (rest : list (option Byte.byte))
    (offset line_length : Z) :
  print_line (map Some data ++ rest) (Z.of_nat (length data)) offset line_length
  = Ok (line_text data offset line_length).
Proof.
  unfold line_text, print_line.
  destruct (print_hex_loop_data data rest (Z.to_nat line_length) 0)
    as (hex & -> & ->); [lia|].
  rewrite Nat2Z.id.
  destruct (print_ascii_loop_data data rest (length data) 0)
    as (text & -> & ->); [lia|lia|].
  done.
Qed.

Lemma print_line_clean (data : list Byte.byte) (offset line_length : Z) :
  print_line (map Some data) (Z.of_nat (length data)) offset line_length
  = Ok (line_text data offset line_length).
Proof.
  pose proof (print_line_data data [] offset line_length) as H.
  by rewrite app_nil_r in H.
Qed.

(** *** The lines of a dump *)

(** The bytes that a dump shows: all of them when [bytes_to_read] is
    negative, that many at the start of the file otherwise. *)
Definition shown (file : list Byte.byte) (bytes_to_read : Z) : list Byte.byte :=
  if bytes_to_read <? 0 then file else take (Z.to_nat bytes_to_read) file.

(** The number of lines for [n] bytes, [len] to a line. *)
Definition lines_of (n len : nat) : nat := (n + len - 1) / len.

(** The text of a dump of [data] from [offset] on: the line [k] holds the
    bytes from [k * line_length] on, [line_length] of them or those that are
    left, and starts with the offset of the first of them. *)
Definition dump_text (data : list Byte.byte) (offset line_length : Z) : string :=
  let len := Z.to_nat line_length in
  fold_right String.append ""%string
    (map (fun k : nat =>
            line_text (take len (drop (k * len) data))
              (offset + Z.of_nat k * line_length) line_length)
       (seq 0 (lines_of (length data) len))).

(** The same text, line after line. *)
Fixpoint dump_lines (n : nat) (data : list Byte.byte) (offset line_length : Z)
    : string :=
  match n, data with
  | S n', _ :: _ =>
      let chunk := take (Z.to_nat line_length) data in
      (line_text chunk offset line_length
       ++ dump_lines n' (drop (Z.to_nat line_length) data)
            (offset + Z.of_nat (length chunk)) line_length)%string
  | _, _ => ""%string
  end.

Lemma lines_of_0 (len : nat) : (0 < len)%nat -> lines_of 0 len = 0%nat.
Proof. intros Hlen. unfold lines_of. apply Nat.div_small. lia. Qed.

Lemma lines_of_short (n len : nat) :
  (0 < n <= len)%nat -> lines_of n len = 1%nat.
Proof.
  intros Hn. unfold lines_of.
  replace (n + len - 1)%nat with (1 * len + (n - 1))%nat by lia.
  rewrite Nat.div_add_l by lia. rewrite Nat.div_small; lia.
Qed.

Lemma lines_of_long (n len : nat) :
  (0 < len <= n)%nat -> lines_of n len = S (lines_of (n - len) len).
Proof.
  intros Hn. unfold lines_of.
  replace (n + len - 1)%nat with (1 * len + (n - len + len - 1))%nat by lia.
  rewrite Nat.div_add_l by lia. lia.
Qed.

Lemma dump_lines_text (n : nat) (data : list Byte.byte) (offset line_length : Z) :
  0 < line_length -> (length data <= n)%nat ->
  dump_lines n data offset line_length = dump_text data offset line_length.
Proof.
  intros Hlen. revert data offset.
  induction n as [|n IH]; intros data offset Hn.
  { destruct data; [|simpl in Hn; lia]. unfold dump_text. simpl.
    by rewrite lines_of_0 by lia. }
  destruct data as [|b data].
  { unfold dump_text. simpl. by rewrite lines_of_0 by lia. }
  cbn [dump_lines]. cbv zeta.
  set (len := Z.to_nat line_length).
  set (all := b :: data) in *.
  assert (0 < length all)%nat as Hpos by (unfold all; simpl; lia).
  rewrite IH by (rewrite length_drop; lia).
  unfold dump_text. fold len.
  destruct (decide (length all <= len)%nat) as [Hshort|Hlong].
  - rewrite (lines_of_short (length all)) by lia.
    rewrite length_drop.
    replace (length all - len)%nat with 0%nat by lia.
    rewrite lines_of_0 by lia. simpl.
    by rewrite Z.add_0_r.
  - rewrite (lines_of_long (length all)) by lia.
    rewrite length_drop. cbn [seq map fold_right].
    change (0 * len)%nat with 0%nat. cbn [drop].
    rewrite Z.add_0_r. f_equal.
    rewrite <- seq_shift, map_map. f_equal. apply map_ext. intros k.
    rewrite drop_drop, length_take.
    replace (length all `min` len)%nat with len by lia.
    replace (len + k * len)%nat with (S k * len)%nat by lia.
    f_equal. lia.
Qed.

(** [max_bytes] of a round. *)
Definition max_bytes_of (bytes_to_read line_length : Z) : Z :=
  if bytes_to_read <? 0 then line_length
  else if line_length <? bytes_to_read then line_length
  else bytes_to_read.

Lemma dump_loop_round (fuel : nat) buffer file offset bytes_to_read line_length :
  dump_loop (S fuel) buffer file offset bytes_to_read line_length
  = do (buffer, num_bytes, file) <-
      fread buffer (max_bytes_of bytes_to_read line_length) file;
    if num_bytes >? 0 then
      do line <- print_line buffer num_bytes offset line_length;
      do offset <- int_add offset num_bytes;
      do bytes_to_read <- int_sub bytes_to_read num_bytes;
      do rest <- dump_loop fuel buffer file offset bytes_to_read line_length;
      Ok (line ++ rest)%string
    else Ok ""%string.
Proof. reflexivity. Qed.

Lemma take_max_bytes (file : list Byte.byte) (bytes_to_read line_length : Z) :
  0 <= line_length ->
  take (Z.to_nat (max_bytes_of bytes_to_read line_length)) file
  = take (Z.to_nat line_length) (shown file bytes_to_read) /\
  0 <= max_bytes_of bytes_to_read line_length <= line_length.
Proof.
  intros Hlen. unfold max_bytes_of, shown.
  destruct (Z.ltb_spec bytes_to_read 0) as [Hneg|Hpos]; [split; [done|lia]|].
  rewrite take_take.
  destruct (Z.ltb_spec line_length bytes_to_read).
  - split; [f_equal; lia|lia].
  - split; [f_equal; lia|lia].
Qed.

Lemma take_0_eq {A} (l : list A) (n : nat) : n = 0%nat -> take n l = [].
Proof. by intros ->. Qed.

Lemma shown_rest (file : list Byte.byte) (bytes_to_read line_length : Z) :
  0 < line_length ->
  let data := take (Z.to_nat line_length) (shown file bytes_to_read) in
  shown (drop (Z.to_nat (max_bytes_of bytes_to_read line_length)) file)
    (bytes_to_read - Z.of_nat (length data))
  = drop (Z.to_nat line_length) (shown file bytes_to_read).
Proof.
  intros Hlen data. unfold data, max_bytes_of, shown.
  destruct (Z.ltb_spec bytes_to_read 0) as [Hneg|Hpos].
  { destruct (_ <? 0) eqn:E; [done|]. apply Z.ltb_ge in E. lia. }
  rewrite take_take, length_take, skipn_firstn_comm.
  destruct (_ <? 0) eqn:E; [apply Z.ltb_lt in E; lia|clear E].
  destruct (Z.ltb_spec line_length bytes_to_read) as [Hlt|Hge].
  - destruct (decide (Z.to_nat line_length <= length file)%nat) as [Hfile|Hfile].
    + f_equal. lia.
    + rewrite (drop_ge file) by lia. by rewrite !take_nil.
  - replace (Z.to_nat bytes_to_read - Z.to_nat line_length)%nat with 0%nat by lia.
    destruct (decide (Z.to_nat bytes_to_read <= length file)%nat) as [Hfile|Hfile].
    + rewrite take_0. apply take_0_eq. lia.
    + rewrite (drop_ge file (Z.to_nat bytes_to_read)) by lia.
      by rewrite take_nil, take_0.
Qed.

Lemma dump_loop_lines (fuel : nat) buffer file offset bytes_to_read line_length :
  0 < line_length -> length buffer = Z.to_nat line_length ->
  (length (shown file bytes_to_read) < fuel)%nat ->
  INT_MIN <= offset ->
  offset + Z.of_nat (length (shown file bytes_to_read)) <= INT_MAX ->
  bytes_to_read <= INT_MAX ->
  (bytes_to_read < 0 -> INT_MIN <= bytes_to_read - Z.of_nat (length file)) ->
  dump_loop fuel buffer file offset bytes_to_read line_length
  = Ok (dump_lines fuel (shown file bytes_to_read) offset line_length).
Proof.
  intros Hlen. revert buffer file offset bytes_to_read.
  induction fuel as [|fuel IH];
    intros buffer file offset bytes_to_read Hbuf Hfuel Hoff Hend Hmax Hmin.
  { lia. }
  rewrite dump_loop_round.
  destruct (take_max_bytes file bytes_to_read line_length) as [Htake Hrange]; [lia|].
  set (data := take (Z.to_nat line_length) (shown file bytes_to_read)) in *.
  assert (length data <= Z.to_nat line_length)%nat as Hdata.
  { unfold data. rewrite length_take. lia. }
  assert (length data <= length (shown file bytes_to_read))%nat as Hdata'.
  { unfold data. rewrite length_take. lia. }
  assert (length (shown file bytes_to_read) <= length file)%nat as Hshown.
  { unfold shown. destruct (_ <? _); [done|]. rewrite length_take. lia. }
  unfold fread.
  destruct (Z.ltb_spec (max_bytes_of bytes_to_read line_length) 0) as [?|_]; [lia|].
  rewrite Htake.
  destruct (Nat.ltb_spec (length buffer) (length data)) as [?|_]; [lia|].
  cbn [obind].
  destruct (Z.gtb_spec (Z.of_nat (length data)) 0) as [Hsome|Hnone].
  - rewrite print_line_data. cbn [obind]. unfold int_add, int_sub.
    assert ((INT_MIN <=? offset + Z.of_nat (length data))
            && (offset + Z.of_nat (length data) <=? INT_MAX) = true) as ->.
    { apply andb_true_iff. split; [apply Z.leb_le|apply Z.leb_le]; lia. }
    assert ((INT_MIN <=? bytes_to_read - Z.of_nat (length data))
            && (bytes_to_read - Z.of_nat (length data) <=? INT_MAX) = true) as ->.
    { apply andb_true_iff. split; [apply Z.leb_le|apply Z.leb_le; lia].
      destruct (Z.lt_ge_cases bytes_to_read 0) as [Hneg|Hpos]; [lia|].
      assert (Z.of_nat (length data) <= bytes_to_read); [|unfold INT_MIN; lia].
      unfold data, shown. destruct (Z.ltb_spec bytes_to_read 0); [lia|].
      rewrite !length_take. lia. }
    cbn [obind].
    pose proof (shown_rest file bytes_to_read line_length Hlen) as Hrest.
    fold data in Hrest. cbv zeta in Hrest.
    rewrite IH.
    + rewrite Hrest. destruct (shown file bytes_to_read) as [|b l] eqn:Hs.
      { unfold data in Hsome. rewrite take_nil in Hsome. simpl in Hsome. lia. }
      done.
    + rewrite length_app, length_map, length_drop. lia.
    + rewrite Hrest, length_drop. unfold data in Hsome.
      rewrite length_take in Hsome. lia.
    + lia.
    + rewrite Hrest, length_drop. unfold data. rewrite length_take. lia.
    + lia.
    + intros Hneg. rewrite length_drop.
      assert (length data
              = (Z.to_nat (max_bytes_of bytes_to_read line_length) `min` length file)%nat)
        as Hlength by (by rewrite <- Htake, length_take).
      destruct (Z.lt_ge_cases bytes_to_read 0) as [Hneg'|Hpos].
      * specialize (Hmin Hneg'). lia.
      * assert (Z.of_nat (length data) <= bytes_to_read); [|lia].
        unfold data, shown. destruct (Z.ltb_spec bytes_to_read 0); [lia|].
        rewrite !length_take. lia.
  - assert (shown file bytes_to_read = []) as ->.
    { destruct (shown file bytes_to_read) as [|b l]; [done|].
      unfold data in Hnone.
      destruct (Z.to_nat line_length) eqn:E; [lia|]. simpl in Hnone. lia. }
    by destruct fuel.
Qed.

(** *** What a dump writes *)

(** A character that a terminal shows, or one of the two control characters
    of a dump: the escape that starts a colour and the end of the line. *)
Definition tty_safe (c : ascii) : bool :=
  let b := byte_of c in
  (b =? 27) || (b =? 10) || ((32 <=? b) && (b <=? 126)).

Fixpoint string_all (p : ascii -> bool) (s : string) : bool :=
  match s with
  | EmptyString => true
  | String c s' => p c && string_all p s'
  end.

Lemma string_all_app (p : ascii -> bool) (a b : string) :
  string_all p (a ++ b) = string_all p a && string_all p b.
Proof.
  induction a as [|c a IH]; [done|]. rewrite append_cons. simpl.
  by rewrite IH, andb_assoc.
Qed.

Lemma hex_digit_safe (upper : bool) (v : Z) :
  0 <= v < 16 -> tty_safe (hex_digit upper v) = true.
Proof.
  intros Hv.
  assert (v = 0 \/ v = 1 \/ v = 2 \/ v = 3 \/ v = 4 \/ v = 5 \/ v = 6 \/ v = 7
          \/ v = 8 \/ v = 9 \/ v = 10 \/ v = 11 \/ v = 12 \/ v = 13 \/ v = 14
          \/ v = 15) as Hcases by lia.
  repeat (destruct Hcases as [->|Hcases]; [by destruct upper|]).
  subst. by destruct upper.
Qed.

Lemma hex_digits_safe (upper : bool) (n : nat) (v : Z) :
  string_all tty_safe (hex_digits upper n v) = true.
Proof.
  revert v. induction n as [|n IH]; intros v; [done|].
  simpl hex_digits. rewrite string_all_app, IH. simpl.
  rewrite hex_digit_safe; [done|]. apply Z.mod_pos_bound. lia.
Qed.

Lemma byte_of_ascii_of_byte (b : Byte.byte) :
  byte_of (ascii_of_byte b) = byte_val b.
Proof.
  unfold byte_of, byte_val. rewrite ascii_of_byte_via_N, N_ascii_embedding; [done|].
  pose proof (Byte.to_N_bounded b). lia.
Qed.

Lemma print_hex_loop_safe buffer (num_bytes : Z) (rounds : nat) (i : Z) text :
  print_hex_loop buffer num_bytes i rounds = Ok text ->
  string_all tty_safe text = true.
Proof.
  revert i text. induction rounds as [|rounds IH]; intros i text; simpl.
  { by intros [= <-]. }
  destruct (print_hex_loop buffer num_bytes (i + 1) rounds) as [rest| | | |] eqn:Hrest.
  2-5: by destruct (if i <? num_bytes then _ else _).
  specialize (IH _ _ Hrest).
  assert (string_all tty_safe
            (if (i >? 0) && (Z.rem i 4 =? 0) then " "%string else ""%string)
          = true) as Hgap.
  { by destruct ((i >? 0) && (Z.rem i 4 =? 0)). }
  destruct (i <? num_bytes).
  - destruct (buffer_at buffer i) as [b| | | |]; cbn [obind]; try done.
    intros [= <-]. rewrite !string_all_app, Hgap, IH.
    unfold fmt_02X. by rewrite hex_digits_safe.
  - cbn [obind]. intros [= <-]. by rewrite !string_all_app, Hgap, IH.
Qed.

Lemma print_ascii_loop_safe buffer (rounds : nat) (i : Z) text :
  print_ascii_loop buffer i rounds = Ok text ->
  string_all tty_safe text = true.
Proof.
  revert i text. induction rounds as [|rounds IH]; intros i text; simpl.
  { by intros [= <-]. }
  destruct (buffer_at buffer i) as [b| | | |]; cbn [obind]; try done.
  destruct (print_ascii_loop buffer (i + 1) rounds) as [rest| | | |] eqn:Hrest;
    cbn [obind]; try done.
  intros [= <-]. rewrite string_all_app, (IH _ _ Hrest), andb_true_r.
  destruct ((byte_val b >? 31) && (byte_val b <? 127)) eqn:Hb; [|done].
  apply andb_true_iff in Hb as [Hlo%Z.gtb_lt Hhi%Z.ltb_lt].
  simpl. unfold tty_safe. rewrite byte_of_ascii_of_byte.
  rewrite andb_true_r. apply orb_true_iff. right.
  apply andb_true_iff. split; apply Z.leb_le; lia.
Qed.

Lemma print_line_safe buffer (num_bytes offset line_length : Z) text :
  print_line buffer num_bytes offset line_length = Ok text ->
  string_all tty_safe text = true.
Proof.
  unfold print_line.
  destruct (print_hex_loop _ _ _ _) as [hex| | | |] eqn:Hhex; cbn [obind]; try done.
  destruct (print_ascii_loop _ _ _) as [txt| | | |] eqn:Htxt; cbn [obind]; try done.
  intros [= <-]. rewrite !string_all_app.
  rewrite (print_hex_loop_safe _ _ _ _ _ Hhex), (print_ascii_loop_safe _ _ _ _ Htxt).
  unfold fmt_08x. by rewrite hex_digits_safe.
Qed.

Lemma dump_loop_safe (fuel : nat) buffer file offset bytes_to_read line_length out :
  dump_loop fuel buffer file offset bytes_to_read line_length = Ok out ->
  string_all tty_safe out = true.
Proof.
  revert buffer file offset bytes_to_read out.
  induction fuel as [|fuel IH]; intros buffer file offset bytes_to_read out; [done|].
  rewrite dump_loop_round.
  destruct (fread _ _ _) as [[[buffer' num_bytes] file']| | | |]; cbn [obind]; try done.
  destruct (num_bytes >? 0); [|by intros [= <-]].
  destruct (print_line _ _ _ _) as [line| | | |] eqn:Hline; cbn [obind]; try done.
  destruct (int_add _ _) as [offset'| | | |]; cbn [obind]; try done.
  destruct (int_sub _ _) as [bytes'| | | |]; cbn [obind]; try done.
  destruct (dump_loop fuel _ _ _ _ _) as [rest| | | |] eqn:Hrest; cbn [obind]; try done.
  intros [= <-]. by rewrite string_all_app, (print_line_safe _ _ _ _ _ Hline), (IH _ _ _ _ _ Hrest).
Qed.

Section dump_more.

Variable malloc_fails : Z -> bool.

Lemma dump_file_text (file : list Byte.byte) (offset bytes_to_read line_length : Z) :
  malloc_fails line_length = false -> 0 < line_length ->
  INT_MIN <= offset ->
  offset + Z.of_nat (length (shown file bytes_to_read)) <= INT_MAX ->
  bytes_to_read <= INT_MAX ->
  (bytes_to_read < 0 -> INT_MIN <= bytes_to_read - Z.of_nat (length file)) ->
  dump_file malloc_fails file offset bytes_to_read line_length
  = Returns (dump_text (shown file bytes_to_read) offset line_length).
Proof.
  intros Hmalloc Hlen Hoff Hend Hmax Hmin. unfold dump_file. rewrite Hmalloc.
  assert (length (shown file bytes_to_read) <= length file)%nat as Hshown.
  { unfold shown. destruct (_ <? _); [done|]. rewrite length_take. lia. }
  rewrite (dump_loop_lines (S (length file))); try done.
  - rewrite (dump_lines_text (S (length file))) by (done || lia). done.
  - by rewrite length_replicate.
  - lia.
Qed.

Lemma dump_file_empty (file : list Byte.byte) (offset bytes_to_read line_length : Z) :
  malloc_fails line_length = false -> 0 <= line_length ->
  bytes_to_read = 0 \/ line_length = 0 \/ file = [] ->
  dump_file malloc_fails file offset bytes_to_read line_length = Returns ""%string.
Proof.
  intros Hmalloc Hlen Hcases. unfold dump_file. rewrite Hmalloc.
  rewrite dump_loop_round. unfold fread.
  assert (0 <= max_bytes_of bytes_to_read line_length) as Hmax.
  { unfold max_bytes_of. destruct (Z.ltb_spec bytes_to_read 0); [done|].
    destruct (Z.ltb_spec line_length bytes_to_read); lia. }
  destruct (Z.ltb_spec (max_bytes_of bytes_to_read line_length) 0) as [?|_]; [lia|].
  assert (take (Z.to_nat (max_bytes_of bytes_to_read line_length)) file = []) as ->.
  { destruct Hcases as [-> | [-> | ->]]; [| |apply take_nil].
    - assert (max_bytes_of 0 line_length = 0) as ->; [|done].
      unfold max_bytes_of. simpl. destruct (Z.ltb_spec line_length 0); [lia|done].
    - assert (max_bytes_of bytes_to_read 0 = 0) as ->; [|done].
      unfold max_bytes_of. destruct (Z.ltb_spec bytes_to_read 0); [done|].
      destruct (Z.ltb_spec 0 bytes_to_read); lia. }
  done.
Qed.

(** X20. A dump of a file with lines of [line_length] bytes, when the
    buffer can be allocated and no [int] overflows: it shows the first
    [bytes_to_read] bytes of the file, or all of them when [bytes_to_read] is
    negative; every line but the last holds [line_length] of them, the last
    one those that are left; and the line [k] starts with [offset] plus
    [k * line_length].  The text of a line is what [print_line] writes for
    its bytes. *)
Theorem dump_file_lines (file : list Byte.byte)
    (offset bytes_to_read line_length : Z) :
  malloc_fails line_length = false -> 0 < line_length ->
  INT_MIN <= offset ->
  offset + Z.of_nat (length (shown file bytes_to_read)) <= INT_MAX ->
  bytes_to_read <= INT_MAX ->
  (bytes_to_read < 0 -> INT_MIN <= bytes_to_read - Z.of_nat (length file)) ->
  dump_file malloc_fails file offset bytes_to_read line_length
    = Returns (dump_text (shown file bytes_to_read) offset line_length) /\
  (forall (chunk : list Byte.byte) (rest : list (option Byte.byte)) at_offset,
     print_line (map Some chunk ++ rest) (Z.of_nat (length chunk)) at_offset
       line_length
     = Ok (line_text chunk at_offset line_length)).
Proof.
  intros Hmalloc Hlen Hoff Hend Hmax Hmin.
  split; [by apply dump_file_text|]. intros chunk rest at_offset.
  apply print_line_data.
Qed.

(** X21. Whatever the bytes of the file, every character of the text of a
    dump is a printable ASCII character (32 to 126), the escape character or
    the end of line: no other control character and no byte above 126 is
    written. *)
Theorem dump_output_safe (file : list Byte.byte)
    (offset bytes_to_read line_length : Z) (out : string) :
  dump_file malloc_fails file offset bytes_to_read line_length = Returns out ->
  string_all tty_safe out = true.
Proof.
  unfold dump_file. destruct (malloc_fails line_length); [done|].
  destruct (dump_loop _ _ _ _ _ _) as [text|msg|[t|]| |] eqn:Hloop; simpl; try done.
  intros [= <-]. by eapply dump_loop_safe.
Qed.

(** X22. A dump of nothing writes nothing: with no byte to read, with lines
    of no byte, or with an empty file, [dump_file] returns without a line.
    When the buffer cannot be allocated it exits with 1 and the message of
    the program. *)
Theorem dump_of_nothing (file : list Byte.byte)
    (offset bytes_to_read line_length : Z) :
  (malloc_fails line_length = false -> 0 <= line_length ->
   bytes_to_read = 0 \/ line_length = 0 \/ file = [] ->
   dump_file malloc_fails file offset bytes_to_read line_length
     = Returns ""%string) /\
  (malloc_fails line_length = true ->
   dump_file malloc_fails file offset bytes_to_read line_length
     = Exits 1 "" ("Error: Insufficient Memory " ++ LF)%string).
Proof.
  split; [apply dump_file_empty|]. intros Hmalloc. unfold dump_file.
  by rewrite Hmalloc.
Qed.

End dump_more.

(** ** The program *)

Lemma parser_of_dmp_ok : parser_ok parser_of_dmp.
Proof.
  unfold parser_of_dmp. cbv zeta. do 3 apply ap_int_opt_ok.
  apply (parser_ok_fields (ap_helptext ap_new helptext_of_dmp));
    [|reflexivity..].
  apply (parser_ok_fields ap_new); [apply ap_new_ok|reflexivity..].
Qed.

Lemma parser_of_dmp_fields :
  command_map parser_of_dmp = map_new /\
  positional_args parser_of_dmp = vec_new /\
  cmd_help parser_of_dmp = false /\
  helptext parser_of_dmp = Some helptext_of_dmp /\
  version parser_of_dmp = Some "0.1.0"%string.
Proof. by vm_compute. Qed.

Lemma parser_of_dmp_names :
  map_get (option_map parser_of_dmp) "line" = Some 0 /\
  map_get (option_map parser_of_dmp) "l" = Some 0 /\
  map_get (option_map parser_of_dmp) "num" = Some 1 /\
  map_get (option_map parser_of_dmp) "n" = Some 1 /\
  map_get (option_map parser_of_dmp) "offset" = Some 2 /\
  map_get (option_map parser_of_dmp) "o" = Some 2 /\
  map_get (option_map parser_of_dmp) "help" = None /\
  map_get (option_map parser_of_dmp) "h" = None /\
  map_get (option_map parser_of_dmp) "version" = None /\
  map_get (option_map parser_of_dmp) "v" = None /\
  option_at parser_of_dmp 0 = Ok (option_new_int 16) /\
  option_at parser_of_dmp 1 = Ok (option_new_int (-1)) /\
  option_at parser_of_dmp 2 = Ok (option_new_int 0).
Proof. by vm_compute. Qed.

Section main_more.

Variable malloc_fails : Z -> bool.
Variable fopen : string -> option File.
Variable stdin : File.
Variable strtod : string -> float * string * bool.

(** [main] after [ap_parse] has returned. *)
Definition main_after_parse (parser : ArgParser) : Run string :=
  rbind
    (if ap_has_args parser then
       match ap_arg parser 0 with
       | None => RunUndefined
       | Some filename =>
           match fopen filename with
           | Some file => Returns file
           | None =>
               Exits 1 ""
                 ("Error: Could not open file '" ++ filename ++ " " ++ LF)%string
           end
       end
     else Returns stdin) (fun file =>
  rbind (of_outcome (ap_int_value parser "offset")) (fun offset =>
  rbind
    (if negb (offset =? 0) then
       match fseek file offset with
       | Some file => Returns file
       | None =>
           Exits 1 ""
             ("Error: Could not seek to offset " ++ fmt_int offset ++ LF)%string
       end
     else Returns file) (fun file =>
  rbind (of_outcome (ap_int_value parser "num")) (fun bytes_to_read =>
  rbind (of_outcome (ap_int_value parser "line")) (fun line_length =>
  dump_file malloc_fails (file_data file) offset bytes_to_read line_length))))).

Lemma main_parse (argv : list string) :
  main malloc_fails fopen stdin strtod argv
  = rbind (of_outcome (ap_parse strtod parser_of_dmp argv))
      (fun r => main_after_parse (fst r)).
Proof.
  unfold main.
  by destruct (ap_parse strtod parser_of_dmp argv) as [[p c]|msg|[text|]| |].
Qed.

(** The file that [main] dumps and how, from the values of the options. *)
Definition dump_from (file : File) (offset bytes_to_read line_length : Z)
    : Run string :=
  if offset =? 0 then
    dump_file malloc_fails (file_data file) offset bytes_to_read line_length
  else
    match fseek file offset with
    | Some file =>
        dump_file malloc_fails (file_data file) offset bytes_to_read line_length
    | None =>
        Exits 1 ""
          ("Error: Could not seek to offset " ++ fmt_int offset ++ LF)%string
    end.

Lemma main_after_parse_values parser (offset bytes_to_read line_length : Z) :
  ap_int_value parser "offset" = Ok offset ->
  ap_int_value parser "num" = Ok bytes_to_read ->
  ap_int_value parser "line" = Ok line_length ->
  main_after_parse parser
  = rbind
      (if ap_has_args parser then
         match ap_arg parser 0 with
         | None => RunUndefined
         | Some filename =>
             match fopen filename with
             | Some file => Returns file
             | None =>
                 Exits 1 ""
                   ("Error: Could not open file '" ++ filename ++ " " ++ LF)%string
             end
         end
       else Returns stdin)
      (fun file => dump_from file offset bytes_to_read line_length).
Proof.
  intros Hoffset Hnum Hline. unfold main_after_parse, dump_from.
  rewrite Hoffset, Hnum, Hline.
  destruct (if ap_has_args parser then _ else _) as [file| | |]; simpl; try done.
  destruct (offset =? 0); simpl; [done|].
  by destruct (fseek file offset).
Qed.

(** The values of the options after a run that gave none. *)
Lemma default_values (vec : Vec string) :
  ap_int_value (set_positional_args parser_of_dmp vec) "offset" = Ok 0 /\
  ap_int_value (set_positional_args parser_of_dmp vec) "num" = Ok (-1) /\
  ap_int_value (set_positional_args parser_of_dmp vec) "line" = Ok 16.
Proof. by vm_compute. Qed.

Lemma first_positional (name : string) (more : list string) :
  let parser :=
    set_positional_args parser_of_dmp (fold_left vec_add (name :: more) vec_new) in
  ap_has_args parser = true /\ ap_arg parser 0 = Some name.
Proof.
  intros parser.
  destruct (vec_add_all_spec (@vec_new string) (name :: more) vec_new_ok)
    as (Hok & Hcount & Hcells).
  unfold parser, ap_has_args, ap_arg. cbn [positional_args set_positional_args].
  split.
  - rewrite Hcount. apply Z.gtb_lt. simpl. lia.
  - rewrite vec_at_cells by (rewrite Hcount; simpl; lia).
    by rewrite Hcells.
Qed.

Lemma run_plain_words (prog : string) (args : list string) :
  Forall (fun a => String.prefix "-" a = false) args ->
  ap_parse strtod parser_of_dmp (prog :: args)
  = Ok (set_positional_args parser_of_dmp (fold_left vec_add args vec_new), []).
Proof.
  intros Hplain. unfold ap_parse. simpl tail.
  destruct parser_of_dmp_fields as (Hcm & Hpos & Hhelp & _).
  destruct (plain_words_run strtod parser_of_dmp args) as [-> _];
    [done|by rewrite Hcm|by rewrite Hhelp|rewrite Hpos; apply vec_new_ok|].
  by rewrite Hpos.
Qed.

(** X23. With no option, the program dumps the file that its first argument
    names, all of it, 16 bytes to a line, from the offset 0; the arguments
    after the first are not read.  With no argument at all it dumps the
    standard input.  A file that cannot be opened ends the run with 1 and a
    message. *)
Theorem main_dumps_whole_file (prog name : string) (more : list string) :
  Forall (fun a => String.prefix "-" a = false) (name :: more) ->
  (forall file, fopen name = Some file ->
     main malloc_fails fopen stdin strtod (prog :: name :: more)
       = dump_file malloc_fails (file_data file) 0 (-1) 16) /\
  (fopen name = None ->
   main malloc_fails fopen stdin strtod (prog :: name :: more)
     = Exits 1 "" ("Error: Could not open file '" ++ name ++ " " ++ LF)%string) /\
  main malloc_fails fopen stdin strtod [prog]
    = dump_file malloc_fails (file_data stdin) 0 (-1) 16 /\
  (forall data : list Byte.byte,
     malloc_fails 16 = false -> Z.of_nat (length data) <= INT_MAX ->
     dump_file malloc_fails data 0 (-1) 16 = Returns (dump_text data 0 16)).
Proof.
  intros Hplain.
  pose proof (run_plain_words prog (name :: more) Hplain) as Hrun.
  assert (Forall (fun a => String.prefix "-" a = false) []) as Hnil by constructor.
  pose proof (run_plain_words prog [] Hnil) as Hrun0.
  destruct (first_positional name more) as [Hargs Harg].
  destruct (default_values (fold_left vec_add (name :: more) vec_new))
    as (Hoffset & Hnum & Hline).
  destruct (default_values (fold_left vec_add [] vec_new))
    as (Hoffset0 & Hnum0 & Hline0).
  assert (ap_has_args (set_positional_args parser_of_dmp
                         (fold_left vec_add [] vec_new)) = false) as Hargs0
    by reflexivity.
  set (parser := set_positional_args parser_of_dmp
                   (fold_left vec_add (name :: more) vec_new)) in *.
  set (parser0 := set_positional_args parser_of_dmp (fold_left vec_add [] vec_new))
    in *.
  clearbody parser parser0.
  split_and!.
  - intros file Hfile. rewrite main_parse, Hrun. cbn [of_outcome rbind fst].
    rewrite (main_after_parse_values parser 0 (-1) 16 Hoffset Hnum Hline).
    rewrite Hargs, Harg, Hfile. reflexivity.
  - intros Hfile. rewrite main_parse, Hrun. cbn [of_outcome rbind fst].
    rewrite (main_after_parse_values parser 0 (-1) 16 Hoffset Hnum Hline).
    rewrite Hargs, Harg, Hfile. reflexivity.
  - rewrite main_parse, Hrun0. cbn [of_outcome rbind fst].
    rewrite (main_after_parse_values parser0 0 (-1) 16 Hoffset0 Hnum0 Hline0).
    rewrite Hargs0. reflexivity.
  - intros data Hmalloc Hdata. unfold INT_MAX in Hdata.
    rewrite dump_file_text; [done|done|lia|unfold INT_MIN; lia| |unfold INT_MAX; lia|].
    + change (shown data (-1)) with data. unfold INT_MAX. lia.
    + intros _. unfold INT_MIN. lia.
Qed.

Lemma run_exits (prog arg text : string) (rest : list string) :
  (forall s, stream_ok s -> stream_rest s = arg :: rest ->
     ap_parse_loop strtod (S (length (arg :: rest))) parser_of_dmp s true
     = Exit0 (Some text)) ->
  main malloc_fails fopen stdin strtod (prog :: arg :: rest)
  = Exits 0 (text ++ LF)%string "".
Proof.
  intros Hloop. rewrite main_parse. unfold ap_parse, ap_parse_array, ap_parse_stream.
  simpl tail. destruct (argstream_new_ok (arg :: rest)) as [Hok Hrest].
  by rewrite (Hloop _ Hok Hrest).
Qed.

(** X24. [--help] or [-h] as the first argument writes the help text of the
    program and exits with 0, [--version] or [-v] writes the version, and
    nothing after them is read: no file is opened. *)
Theorem main_help_and_version (prog : string) (rest : list string) :
  main malloc_fails fopen stdin strtod (prog :: "--help"%string :: rest)
    = Exits 0 (helptext_of_dmp ++ LF)%string "" /\
  main malloc_fails fopen stdin strtod (prog :: "-h"%string :: rest)
    = Exits 0 (helptext_of_dmp ++ LF)%string "" /\
  main malloc_fails fopen stdin strtod (prog :: "--version"%string :: rest)
    = Exits 0 ("0.1.0" ++ LF)%string "" /\
  main malloc_fails fopen stdin strtod (prog :: "-v"%string :: rest)
    = Exits 0 ("0.1.0" ++ LF)%string "".
Proof.
  destruct parser_of_dmp_fields as (_ & _ & _ & Htext & Hversion).
  destruct parser_of_dmp_names
    as (_ & _ & _ & _ & _ & _ & Hhelp & Hh & Hver & Hv & _).
  split_and!; apply run_exits; intros s Hok Hrest.
  - destruct (help_and_version_rounds strtod (length ("--help"%string :: rest))
                parser_of_dmp s true rest) as (H & _).
    exact (H _ Htext Hhelp Hok Hrest).
  - destruct (help_and_version_rounds strtod (length ("-h"%string :: rest))
                parser_of_dmp s true rest) as (_ & H & _).
    exact (H _ Htext Hh Hok Hrest).
  - destruct (help_and_version_rounds strtod (length ("--version"%string :: rest))
                parser_of_dmp s true rest) as (_ & _ & H & _).
    exact (H _ Hversion Hver Hok Hrest).
  - destruct (help_and_version_rounds strtod (length ("-v"%string :: rest))
                parser_of_dmp s true rest) as (_ & _ & _ & H & _).
    exact (H _ Hversion Hv Hok Hrest).
Qed.

(** The run on an integer option, its value and the name of a file. *)
Lemma run_option_file (prog arg so fname : string) (name : string) (ptr v fallback : Z) :
  (arg = ("--" ++ name)%string \/
   exists c, name = String c "" /\ arg = ("-" ++ name)%string /\
             isdigit c = false /\ c <> "-"%char) ->
  name <> ""%string -> has_equals name = false ->
  map_get (option_map parser_of_dmp) name = Some ptr ->
  option_at parser_of_dmp ptr = Ok (option_new_int fallback) ->
  try_str_to_int so = Ok v ->
  String.prefix "-" fname = false ->
  ap_parse strtod parser_of_dmp [prog; arg; so; fname]
  = Ok (set_positional_args
          (store_option parser_of_dmp ptr
             (option_append_value (option_new_int fallback) (int_val v)))
          (vec_add vec_new fname), []).
Proof.
  intros Harg Hname Heq Hget Hat Hso Hfname.
  unfold ap_parse, ap_parse_array, ap_parse_stream. simpl tail.
  destruct (argstream_new_ok [arg; so; fname]) as [Hok Hrest].
  set (s := argstream_new (Z.of_nat (length [arg; so; fname])) [arg; so; fname]) in *.
  assert (ap_parse_loop strtod (S (length [arg; so; fname])) parser_of_dmp s true
          = (do opt' <- option_try_set strtod (option_new_int fallback) so;
             ap_parse_loop strtod 3 (store_option parser_of_dmp ptr opt')
               (stream_advance (stream_advance s)) false)) as ->.
  { change (S (length [arg; so; fname])) with (S 3).
    destruct Harg as [->|(c & -> & -> & Hdigit & Hdash)].
    - by apply (option_value_round strtod 3 parser_of_dmp s true name so [fname]
                  ptr (option_new_int fallback)).
    - destruct (stream_rest_cons s _ _ Hok Hrest) as (_ & _ & Hok1 & Hrest1).
      rewrite (ap_parse_loop_handler strtod 3 parser_of_dmp s true _ _
                 (ap_handle_short_opt strtod parser_of_dmp (String c "")
                    (stream_advance s)) Hok Hrest).
      + rewrite (ap_handle_short_opt_value strtod _ _ _ so [fname] ptr
                   (option_new_int fallback)) by done.
        by destruct (option_try_set strtod (option_new_int fallback) so).
      + intros recurse. by apply ap_parse_arg_short. }
  unfold option_try_set. simpl opt_type. cbv iota. rewrite Hso. cbn [obind].
  destruct (stream_rest_cons s _ _ Hok Hrest) as (_ & _ & Hok1 & Hrest1).
  destruct (stream_rest_cons _ _ _ Hok1 Hrest1) as (_ & _ & Hok2 & Hrest2).
  rewrite (plain_words_loop strtod [fname] 3 _ _ Hok2 Hrest2);
    [|by repeat constructor|simpl; lia].
  cbn [obind]. destruct parser_of_dmp_fields as (_ & Hpos & _).
  change (positional_args (store_option parser_of_dmp ptr
            (option_append_value (option_new_int fallback) (int_val v))))
    with (positional_args parser_of_dmp).
  by rewrite Hpos.
Qed.

Lemma values_with_offset (v : Z) (fname : string) :
  let parser :=
    set_positional_args
      (store_option parser_of_dmp 2
         (option_append_value (option_new_int 0) (int_val v)))
      (vec_add vec_new fname) in
  ap_int_value parser "offset" = Ok v /\ ap_int_value parser "num" = Ok (-1) /\
  ap_int_value parser "line" = Ok 16 /\
  ap_has_args parser = true /\ ap_arg parser 0 = Some fname.
Proof. by vm_compute. Qed.

Lemma values_with_num (v : Z) (fname : string) :
  let parser :=
    set_positional_args
      (store_option parser_of_dmp 1
         (option_append_value (option_new_int (-1)) (int_val v)))
      (vec_add vec_new fname) in
  ap_int_value parser "offset" = Ok 0 /\ ap_int_value parser "num" = Ok v /\
  ap_int_value parser "line" = Ok 16 /\
  ap_has_args parser = true /\ ap_arg parser 0 = Some fname.
Proof. by vm_compute. Qed.

(** X25. [--offset] or [-o] with a number other than 0, and the name of a
    file: the program seeks to that offset in the file and dumps what
    follows, all of it, 16 bytes to a line, with the offsets counted from
    the one given.  When the file cannot seek, or the offset is negative,
    the run ends with 1 and a message. *)
Theorem main_offset (prog arg so fname : string) (offset : Z) (file : File) :
  arg = "--offset"%string \/ arg = "-o"%string ->
  try_str_to_int so = Ok offset -> offset <> 0 ->
  String.prefix "-" fname = false ->
  fopen fname = Some file ->
  main malloc_fails fopen stdin strtod [prog; arg; so; fname]
    = match fseek file offset with
      | Some file' => dump_file malloc_fails (file_data file') offset (-1) 16
      | None =>
          Exits 1 ""
            ("Error: Could not seek to offset " ++ fmt_int offset ++ LF)%string
      end /\
  (file_seekable file = true -> 0 < offset ->
   fseek file offset
     = Some (mkFile (drop (Z.to_nat offset) (file_data file)) true)) /\
  (file_seekable file = false \/ offset < 0 -> fseek file offset = None).
Proof.
  intros Harg Hso Hne Hfname Hfile.
  destruct parser_of_dmp_names
    as (_ & _ & _ & _ & Hoffset & Ho & _ & _ & _ & _ & _ & _ & Hat).
  assert (ap_parse strtod parser_of_dmp [prog; arg; so; fname]
          = Ok (set_positional_args
                  (store_option parser_of_dmp 2
                     (option_append_value (option_new_int 0) (int_val offset)))
                  (vec_add vec_new fname), [])) as Hrun.
  { destruct Harg as [-> | ->].
    - apply (run_option_file prog _ so fname "offset" 2 offset 0);
        [by left|discriminate|reflexivity|exact Hoffset|exact Hat|exact Hso
        |exact Hfname].
    - apply (run_option_file prog _ so fname "o" 2 offset 0);
        [|discriminate|reflexivity|exact Ho|exact Hat|exact Hso|exact Hfname].
      right. exists "o"%char. split_and!; [reflexivity..|discriminate]. }
  split_and!.
  - rewrite main_parse, Hrun. cbn [of_outcome rbind fst].
    destruct (values_with_offset offset fname) as (H1 & H2 & H3 & H4 & H5).
    cbv zeta in H1, H2, H3, H4, H5.
    rewrite (main_after_parse_values _ offset (-1) 16 H1 H2 H3).
    rewrite H4, H5, Hfile. clear H1 H2 H3 H4 H5 Hrun Hoffset Ho Hat.
    cbn [rbind]. unfold dump_from.
    destruct (Z.eqb_spec offset 0); [contradiction|reflexivity].
  - intros Hseek Hpos. unfold fseek. rewrite Hseek.
    by destruct (Z.leb_spec 0 offset); [|lia].
  - intros Hcases. unfold fseek. destruct Hcases as [-> | Hneg]; [done|].
    destruct (Z.leb_spec 0 offset); [lia|]. by rewrite andb_false_r.
Qed.

(** X26. A negative number of bytes stands for all of them, and [dump_file]
    counts it down with every line: when it gets below the least [int] the
    subtraction overflows, which C leaves undefined.  This is what [-n] or
    [--num] with such a number and a file that is not empty come to. *)
Theorem main_num_underflow (prog arg so fname : string) (num : Z) (file : File) :
  arg = "--num"%string \/ arg = "-n"%string ->
  try_str_to_int so = Ok num -> num < 0 ->
  num - Z.of_nat (length (take 16 (file_data file))) < INT_MIN ->
  String.prefix "-" fname = false ->
  fopen fname = Some file -> file_data file <> [] ->
  malloc_fails 16 = false ->
  main malloc_fails fopen stdin strtod [prog; arg; so; fname] = RunUndefined.
Proof.
  intros Harg Hso Hneg Hunder Hfname Hfile Hdata Hmalloc.
  destruct parser_of_dmp_names
    as (_ & _ & Hnum & Hn & _ & _ & _ & _ & _ & _ & _ & Hat & _).
  assert (ap_parse strtod parser_of_dmp [prog; arg; so; fname]
          = Ok (set_positional_args
                  (store_option parser_of_dmp 1
                     (option_append_value (option_new_int (-1)) (int_val num)))
                  (vec_add vec_new fname), [])) as Hrun.
  { destruct Harg as [-> | ->].
    - apply (run_option_file prog _ so fname "num" 1 num (-1));
        [by left|discriminate|reflexivity|exact Hnum|exact Hat|exact Hso
        |exact Hfname].
    - apply (run_option_file prog _ so fname "n" 1 num (-1));
        [|discriminate|reflexivity|exact Hn|exact Hat|exact Hso|exact Hfname].
      right. exists "n"%char. split_and!; [reflexivity..|discriminate]. }
  rewrite main_parse, Hrun. cbn [of_outcome rbind fst].
  destruct (values_with_num num fname) as (H1 & H2 & H3 & H4 & H5).
  cbv zeta in H1, H2, H3, H4, H5.
  rewrite (main_after_parse_values _ 0 num 16 H1 H2 H3).
  rewrite H4, H5, Hfile. clear H1 H2 H3 H4 H5 Hrun Hnum Hn Hat.
  cbn [rbind]. unfold dump_from. simpl Z.eqb. cbv iota.
  unfold dump_file. rewrite Hmalloc, dump_loop_round.
  assert (max_bytes_of num 16 = 16) as ->.
  { unfold max_bytes_of. by destruct (Z.ltb_spec num 0); [|lia]. }
  unfold fread. simpl Z.ltb. cbv iota. cbv zeta.
  set (data := take (Z.to_nat 16) (file_data file)) in *.
  assert (0 < length data <= 16)%nat as Hlen.
  { unfold data. rewrite length_take. destruct (file_data file); [done|].
    change (Z.to_nat 16) with 16%nat. simpl length. lia. }
  rewrite length_replicate.
  destruct (Nat.ltb_spec (Z.to_nat 16) (length data)) as [?|_];
    [change (Z.to_nat 16) with 16%nat in *; lia|].
  change (16 <? 0) with false. cbv iota. cbn [obind].
  destruct (Z.gtb_spec (Z.of_nat (length data)) 0) as [_|?]; [|lia].
  rewrite print_line_data. cbn [obind]. unfold int_add, int_sub.
  assert ((INT_MIN <=? 0 + Z.of_nat (length data))
          && (0 + Z.of_nat (length data) <=? INT_MAX) = true) as ->.
  { apply andb_true_iff. unfold INT_MIN, INT_MAX.
    split; apply Z.leb_le; lia. }
  cbn [obind].
  assert ((INT_MIN <=? num - Z.of_nat (length data)) = false) as ->.
  { apply Z.leb_gt. exact Hunder. }
  reflexivity.
Qed.

End main_more.

(** ** Integer values are [int]s *)

(** The integers that the option holds, its fallback among them, are in the
    range of [int]. *)
Definition ints_in_range (opt : Option) : Prop :=
  (forall (i : nat) v, opt_values opt !! i = Some (Some (int_val v)) ->
     INT_MIN <= v <= INT_MAX) /\
  (forall v, opt_fallback opt = Some (int_val v) -> INT_MIN <= v <= INT_MAX).

Definition parser_ints_in_range parser : Prop :=
  forall ptr opt, option_at parser ptr = Ok opt -> ints_in_range opt.

Lemma try_str_to_int_range (s : string) (v : Z) :
  try_str_to_int s = Ok v -> INT_MIN <= v <= INT_MAX.
Proof.
  unfold try_str_to_int. destruct (strtol s) as [[result endptr] erange].
  destruct erange; [done|]. simpl orb.
  destruct (Z.gtb_spec result INT_MAX); [done|].
  destruct (Z.ltb_spec result INT_MIN); [done|]. simpl.
  destruct (negb (str_is_empty endptr)); [done|]. intros [= <-]. lia.
Qed.

Lemma realloc_lookup {A} (cells : list (option A)) (n : Z) (i : nat) (x : A) :
  realloc cells n !! i = Some (Some x) -> cells !! i = Some (Some x).
Proof.
  unfold realloc. intros H. apply lookup_app_Some in H as [H|[_ H]].
  - by apply lookup_take_Some in H as [H _].
  - by apply lookup_replicate in H as [? _].
Qed.

Lemma option_append_value_range opt (v : OptionValue) :
  ints_in_range opt ->
  (forall x, v = int_val x -> INT_MIN <= x <= INT_MAX) ->
  ints_in_range (option_append_value opt v).
Proof.
  intros [Hcells Hfallback] Hv. unfold option_append_value.
  destruct (opt_count opt + 1 >? opt_capacity opt); split; simpl; try done.
  - intros i x Hi.
    destruct (decide (i = Z.to_nat (opt_count opt))) as [->|Hne].
    + apply list_lookup_insert_Some in Hi as [(_ & [= Heq] & _)|[? _]]; [|done].
      by apply Hv.
    + rewrite list_lookup_insert_ne in Hi by done.
      apply realloc_lookup in Hi. by eapply Hcells.
  - intros i x Hi.
    destruct (decide (i = Z.to_nat (opt_count opt))) as [->|Hne].
    + apply list_lookup_insert_Some in Hi as [(_ & [= Heq] & _)|[? _]]; [|done].
      by apply Hv.
    + rewrite list_lookup_insert_ne in Hi by done. by eapply Hcells.
Qed.

Lemma bump_count_range opt : ints_in_range opt -> ints_in_range (bump_count opt).
Proof. by intros [Hcells Hfallback]. Qed.

Lemma vec_at_store_cases {A} (vec : Vec A) (i j : Z) (x y : A) :
  vec_at (vec_store vec i y) j = Some x -> x = y \/ vec_at vec j = Some x.
Proof.
  unfold vec_at, vec_store. simpl. destruct (j <? 0); [done|].
  destruct (decide (Z.to_nat j = Z.to_nat i)) as [Heq|Hne].
  - rewrite Heq. destruct (decide (Z.to_nat i < length (vec_entries vec))%nat).
    + rewrite list_lookup_insert_eq by done. simpl. intros [= ->]. by left.
    + rewrite list_insert_ge by lia. by right.
  - rewrite list_lookup_insert_ne by done. by right.
Qed.

Lemma store_option_range parser ptr opt' :
  parser_ints_in_range parser -> ints_in_range opt' ->
  parser_ints_in_range (store_option parser ptr opt').
Proof.
  intros Hparser Hopt ptr0 opt Hat. apply option_at_Ok in Hat. simpl in Hat.
  apply vec_at_store_cases in Hat as [->|Hat]; [done|].
  apply (Hparser ptr0). by apply option_at_Ok.
Qed.

Section ranges.

Variable strtod : string -> float * string * bool.

Lemma option_try_set_range opt arg :
  ints_in_range opt -> returns ints_in_range (option_try_set strtod opt arg).
Proof.
  intros Hopt. unfold option_try_set. destruct (opt_type opt); simpl; try done.
  - by apply option_append_value_range.
  - destruct (try_str_to_int arg) as [v| | | |] eqn:Hv; simpl; try done.
    + apply option_append_value_range; [done|]. intros x [= <-].
      by eapply try_str_to_int_range.
    + by pose proof (try_str_to_int_returns arg) as H; rewrite Hv in H.
  - pose proof (try_str_to_double_returns strtod arg) as H.
    destruct (try_str_to_double strtod arg) as [v| | | |]; simpl; try done.
    by apply option_append_value_range.
Qed.

Lemma ap_handle_equals_opt_range parser dashes arg :
  parser_ints_in_range parser ->
  returns parser_ints_in_range (ap_handle_equals_opt strtod parser dashes arg).
Proof.
  intros Hparser. unfold ap_handle_equals_opt.
  destruct (split_equals arg) as [[name v]|]; [|done].
  destruct (map_get _ name) as [ptr|]; [|done].
  destruct (option_at_cases parser ptr) as [[opt Hat]|Hat]; rewrite Hat; cbn [obind];
    [|done].
  destruct (OptionType_eqb _ _); [done|]. destruct (_ =? _)%nat; [done|].
  eapply returns_bind; [by eapply option_try_set_range, Hparser|].
  intros opt' Hopt'. by apply store_option_range.
Qed.

Lemma ap_handle_long_opt_range parser arg s :
  stream_ok s -> parser_ints_in_range parser ->
  returns (fun r => parser_ints_in_range (fst r))
    (ap_handle_long_opt strtod parser arg s).
Proof.
  intros Hok Hparser. unfold ap_handle_long_opt.
  destruct (map_get _ arg) as [ptr|].
  - destruct (option_at_cases parser ptr) as [[opt Hat]|Hat]; rewrite Hat; cbn [obind];
      [|done].
    destruct (OptionType_eqb _ _).
    { simpl. apply store_option_range; [done|]. by eapply bump_count_range, Hparser. }
    destruct (argstream_has_next s) eqn:Hnext; [|done].
    eapply returns_bind; [by apply argstream_next_returns|]. intros [v s'] _.
    eapply returns_bind; [by eapply option_try_set_range, Hparser|].
    intros opt' Hopt'. by apply store_option_range.
  - destruct (if String.eqb arg "help" then _ else _); [done|].
    by destruct (if String.eqb arg "version" then _ else _).
Qed.

Lemma ap_handle_short_loop_range parser arg rest s :
  stream_ok s -> parser_ints_in_range parser ->
  returns (fun r => parser_ints_in_range (fst r))
    (ap_handle_short_loop strtod parser arg rest s).
Proof.
  revert parser s. induction rest as [|c rest IH]; intros parser s Hok Hparser; simpl;
    [done|].
  destruct (map_get _ _) as [ptr|].
  - destruct (option_at_cases parser ptr) as [[opt Hat]|Hat]; rewrite Hat; cbn [obind];
      [|done].
    destruct (OptionType_eqb _ _).
    { apply IH; [done|]. apply store_option_range; [done|].
      by eapply bump_count_range, Hparser. }
    destruct (argstream_has_next s) eqn:Hnext.
    + eapply returns_bind; [by apply argstream_next_returns|]. intros [v s'] [Hstep _].
      eapply returns_bind; [by eapply option_try_set_range, Hparser|].
      intros opt' Hopt'. apply IH; [apply Hstep|]. by apply store_option_range.
    + by destruct (_ <? _)%nat.
  - destruct (if Ascii.eqb c "h" then _ else _); [done|].
    destruct (if Ascii.eqb c "v" then _ else _); [done|].
    by destruct (_ <? _)%nat.
Qed.

Lemma parser_ints_in_range_options parser parser' :
  parser_ints_in_range parser -> option_vec parser' = option_vec parser ->
  parser_ints_in_range parser'.
Proof.
  intros Hparser Heq ptr opt Hat. apply (Hparser ptr).
  apply option_at_Ok. rewrite <- Heq. by apply option_at_Ok.
Qed.

Lemma ap_parse_arg_range recurse parser s is_first arg :
  stream_ok s -> parser_ints_in_range parser ->
  (forall child, returns (fun _ => True) (recurse child s)) ->
  returns (fun r => parser_ints_in_range (fst (fst r)))
    (ap_parse_arg strtod recurse parser s is_first arg).
Proof.
  intros Hok Hparser Hrec. unfold ap_parse_arg.
  destruct (String.eqb arg "--").
  { rewrite (add_remaining_spec _ _ _ Hok eq_refl). simpl.
    by apply (parser_ints_in_range_options parser). }
  destruct (String.prefix "--" arg).
  { destruct (has_equals arg).
    - eapply returns_bind; [by apply ap_handle_equals_opt_range|]. by intros p' Hp.
    - eapply returns_bind; [by apply ap_handle_long_opt_range|]. by intros [p' s'] Hp. }
  destruct (String.prefix "-" arg).
  { destruct (_ || _); [by apply (parser_ints_in_range_options parser)|].
    destruct (has_equals arg).
    - eapply returns_bind; [by apply ap_handle_equals_opt_range|]. by intros p' Hp.
    - eapply returns_bind; [by apply ap_handle_short_loop_range|]. by intros [p' s'] Hp. }
  destruct (if is_first then _ else _) as [ptr|].
  - destruct (vec_at _ ptr) as [child|]; [|done].
    eapply returns_bind; [apply Hrec|]. intros [[c' s'] calls] _. simpl.
    by apply (parser_ints_in_range_options parser).
  - destruct (_ && _).
    + eapply returns_bind; [by apply ap_handle_help_cmd_returns|]. by intros [p' s'] [].
    + by apply (parser_ints_in_range_options parser).
Qed.

Lemma ap_parse_loop_range fuel parser s is_first :
  stream_ok s -> parser_ints_in_range parser ->
  as_count s - as_index s < Z.of_nat fuel ->
  returns (fun r => parser_ints_in_range (fst (fst r)))
    (ap_parse_loop strtod fuel parser s is_first).
Proof.
  revert parser s is_first.
  induction fuel as [|fuel IH]; intros parser s is_first Hok Hparser Hfuel.
  { destruct Hok. lia. }
  destruct (argstream_has_next s) eqn:Hnext.
  2:{ by rewrite ap_parse_loop_end by done. }
  destruct (stream_rest s) as [|arg rest] eqn:Hrest.
  { apply stream_rest_nil in Hrest; [congruence|done]. }
  rewrite (ap_parse_loop_round strtod _ _ _ _ _ _ Hok Hrest).
  destruct (stream_rest_cons s arg rest Hok Hrest) as (_ & _ & Hok1 & _).
  assert (forall child,
            returns (fun r => stream_step (stream_advance s) (snd (fst r)) /\
                              argstream_has_next (snd (fst r)) = false)
              (ap_parse_loop strtod fuel child (stream_advance s) true)) as Hrec.
  { intros child.
    eapply returns_weaken; [apply ap_parse_loop_fuel; [done|simpl; lia]|].
    intros [[c' s'] calls] (_ & ? & ?). done. }
  eapply returns_bind.
  { apply returns_and.
    - apply (ap_parse_arg_returns strtod _ parser _ is_first arg Hok1 Hrec).
    - apply (ap_parse_arg_range _ parser _ is_first arg Hok1 Hparser).
      intros child. eapply returns_weaken; [apply Hrec|]. done. }
  intros [[p1 s1] calls] [[_ Hst1] Hp1]. simpl in Hst1, Hp1.
  assert (as_count s1 - as_index s1 < Z.of_nat fuel) as Hfuel1.
  { destruct Hst1 as (_ & -> & _ & ?). simpl in *. lia. }
  eapply returns_bind; [apply (IH p1 s1 false); [apply Hst1|done|done]|].
  by intros [[p2 s2] later] Hp2.
Qed.

Lemma ap_parse_array_range parser (args : list string) :
  parser_ints_in_range parser ->
  returns (fun r => parser_ints_in_range (fst r)) (ap_parse_array strtod parser args).
Proof.
  intros Hparser. unfold ap_parse_array, ap_parse_stream.
  destruct (argstream_new_ok args) as [Hok _].
  eapply returns_bind.
  { apply ap_parse_loop_range; [done|done|]. simpl. lia. }
  by intros [[p s] calls].
Qed.

Lemma ap_int_value_range parser (name : string) (v : Z) :
  parser_ints_in_range parser -> ap_int_value parser name = Ok v ->
  INT_MIN <= v <= INT_MAX.
Proof.
  intros Hparser. unfold ap_int_value, ap_get_opt.
  destruct (map_get _ name) as [ptr|]; [|done].
  destruct (option_at parser ptr) as [opt| | | |] eqn:Hat; try done.
  cbn [obind]. destruct (Hparser ptr opt Hat) as [Hcells Hfallback].
  unfold option_get_int, read_int_val.
  destruct (opt_count opt >? 0).
  - unfold opt_cell. destruct (_ <? 0); [done|].
    destruct (opt_values opt !! _) as [[[x|x|x]|]|] eqn:Hcell; simpl; try done.
    intros [= <-]. by eapply Hcells.
  - destruct (opt_fallback opt) as [[x|x|x]|] eqn:Hfb; try done.
    intros [= <-]. by apply Hfallback.
Qed.

(** X27. The integers that a run stores are [int]s: when the integers that
    the options of a parser hold, their fallbacks among them, are in the
    range of [int], so is every value that [ap_int_value] returns after a
    run of the parser. *)
Theorem int_values_in_range parser (args : list string) parser' calls
    (name : string) (v : Z) :
  parser_ints_in_range parser ->
  ap_parse_array strtod parser args = Ok (parser', calls) ->
  ap_int_value parser' name = Ok v ->
  INT_MIN <= v <= INT_MAX.
Proof.
  intros Hparser Hrun.
  pose proof (returns_Ok _ _ _ (ap_parse_array_range parser args Hparser) Hrun) as H.
  by apply ap_int_value_range.
Qed.

End ranges.

(** ** The program is defined *)

Lemma vec_at_add_cases {A} (vec : Vec A) (x y : A) (j : Z) :
  vec_at (vec_add vec x) j = Some y -> y = x \/ vec_at vec j = Some y.
Proof.
  unfold vec_at, vec_add. destruct (j <? 0); [done|].
  destruct (vec_count vec + 1 >? vec_capacity vec); cbn [vec_entries vec_count].
  - pose proof (realloc_lookup (vec_entries vec)
                  (if vec_capacity vec <? 8 then 8 else vec_capacity vec * 2))
      as Hold.
    set (cells := realloc _ _) in *.
    destruct (decide (Z.to_nat j = Z.to_nat (vec_count vec))) as [->|Hne].
    + destruct (decide (Z.to_nat (vec_count vec) < length cells)%nat).
      * rewrite list_lookup_insert_eq by done. simpl. intros [= ->]. by left.
      * rewrite list_insert_ge by lia. intros H. right.
        destruct (cells !! _) as [[z|]|] eqn:Hcell; simplify_eq/=.
        by rewrite (Hold _ _ Hcell).
    + rewrite list_lookup_insert_ne by done. intros H. right.
      destruct (cells !! _) as [[z|]|] eqn:Hcell; simplify_eq/=.
      by rewrite (Hold _ _ Hcell).
  - destruct (decide (Z.to_nat j = Z.to_nat (vec_count vec))) as [->|Hne].
    + destruct (decide (Z.to_nat (vec_count vec) < length (vec_entries vec))%nat).
      * rewrite list_lookup_insert_eq by done. simpl. intros [= ->]. by left.
      * rewrite list_insert_ge by lia. by right.
    + rewrite list_lookup_insert_ne by done. by right.
Qed.

Lemma register_option_range parser (name : string) opt :
  parser_ints_in_range parser -> ints_in_range opt ->
  parser_ints_in_range (register_option parser name opt).
Proof.
  intros Hparser Hopt ptr o Hat. apply option_at_Ok in Hat.
  unfold register_option in Hat. cbn [option_vec set_options] in Hat.
  apply vec_at_add_cases in Hat as [->|Hat]; [done|].
  apply (Hparser ptr). by apply option_at_Ok.
Qed.

Lemma option_new_int_range (fallback : Z) :
  INT_MIN <= fallback <= INT_MAX -> ints_in_range (option_new_int fallback).
Proof.
  intros Hfallback. split.
  - intros i v Hi. simpl in Hi. by destruct i.
  - by intros v [= <-].
Qed.

Lemma ap_new_range : parser_ints_in_range ap_new.
Proof. intros ptr opt Hat. apply option_at_Ok in Hat. by destruct ptr. Qed.

Lemma parser_of_dmp_range : parser_ints_in_range parser_of_dmp.
Proof.
  unfold parser_of_dmp. cbv zeta. unfold ap_int_opt.
  do 3 (apply register_option_range;
        [|apply option_new_int_range; unfold INT_MIN, INT_MAX; lia]).
  apply ap_new_range.
Qed.

Definition run_defined {A} (r : Run A) : Prop :=
  r <> RunUndefined /\ r <> RunOutOfFuel.

Section main_defined.

Variable malloc_fails : Z -> bool.
Variable fopen : string -> option File.
Variable stdin : File.
Variable strtod : string -> float * string * bool.

Hypothesis malloc_negative : forall n, n < 0 -> malloc_fails n = true.

Lemma dump_file_defined (file : list Byte.byte) (offset bytes_to_read line_length : Z) :
  0 <= offset -> offset + Z.of_nat (length file) <= INT_MAX ->
  -1 <= bytes_to_read <= INT_MAX ->
  run_defined (dump_file malloc_fails file offset bytes_to_read line_length).
Proof.
  intros Hoff Hend Hnum.
  destruct (malloc_fails line_length) eqn:Hmalloc.
  { unfold dump_file. rewrite Hmalloc. by split. }
  destruct (Z.lt_ge_cases line_length 0) as [Hneg|Hpos].
  { by rewrite (malloc_negative _ Hneg) in Hmalloc. }
  destruct (decide (line_length = 0)) as [->|Hlen].
  { rewrite dump_file_empty; [by split|done|done|by right; left]. }
  assert (length (shown file bytes_to_read) <= length file)%nat as Hshown.
  { unfold shown. destruct (_ <? _); [done|]. rewrite length_take. lia. }
  rewrite dump_file_text; [by split|done|lia|unfold INT_MIN; lia|lia|lia|].
  unfold INT_MIN, INT_MAX in *. lia.
Qed.

Lemma dump_from_defined (file : File) (offset bytes_to_read line_length : Z) :
  Z.of_nat (length (file_data file)) <= INT_MAX ->
  offset <= INT_MAX -> -1 <= bytes_to_read <= INT_MAX ->
  run_defined (dump_from malloc_fails file offset bytes_to_read line_length).
Proof.
  intros Hfile Hoff Hnum. unfold dump_from.
  destruct (Z.eqb_spec offset 0) as [->|Hne].
  { apply dump_file_defined; [done|lia|done]. }
  unfold fseek. destruct (file_seekable file && (0 <=? offset)) eqn:Hseek;
    [|by split].
  apply andb_true_iff in Hseek as [_ Hpos%Z.leb_le].
  apply dump_file_defined; [done| |done].
  cbn [file_data]. rewrite length_drop. lia.
Qed.

Lemma int_value_after_run parser (name : string) (args : list string) parser' calls :
  (exists ptr fallback,
     map_get (option_map parser) name = Some ptr /\
     option_at parser ptr = Ok (option_new_int fallback)) ->
  ap_parse_array strtod parser args = Ok (parser', calls) ->
  exists v, ap_int_value parser' name = Ok v.
Proof.
  intros (ptr & fallback & Hget & Hat) Hrun.
  pose proof (returns_Ok _ _ _ (ap_parse_array_returns strtod parser args) Hrun)
    as Hsame.
  destruct Hsame as (Hopts & _ & _ & _ & _ & _ & Hkept). cbn [fst] in *.
  destruct (Hkept _ _ Hat) as (opt' & Hat' & _ & _ & _ & Happ).
  destruct Happ as (vs & Hvs & ->); [done|].
  apply values_of_type_int in Hvs as [xs ->].
  exists (List.last xs fallback).
  destruct (option_accessors read_int_val int_val OPT_INT fallback xs)
    as (_ & H1 & _); [done|].
  unfold ap_int_value, ap_get_opt. rewrite Hopts, Hget, Hat'. exact H1.
Qed.

Lemma first_argument_after_run parser (args : list string) parser' calls :
  positional_args parser = vec_new ->
  ap_parse_array strtod parser args = Ok (parser', calls) ->
  ap_has_args parser' = true -> exists name, ap_arg parser' 0 = Some name.
Proof.
  intros Hpos Hrun Hargs.
  destruct (positionals_of_run strtod parser args parser' calls) as
    (extra & _ & Hcells & Hcount); [rewrite Hpos; apply vec_new_ok|done|].
  unfold ap_args, ap_count_args in Hcells, Hcount. rewrite Hpos in Hcells, Hcount.
  unfold ap_has_args in Hargs. apply Z.gtb_lt in Hargs.
  unfold ap_arg. rewrite vec_at_cells by lia. rewrite Hcells.
  destruct extra as [|e extra]; [simpl in Hcount; lia|]. by exists e.
Qed.

Lemma main_after_parse_defined parser (argv : list string) :
  parser_ok parser -> parser_ints_in_range parser ->
  positional_args parser = vec_new ->
  (forall name, In name ["offset"; "num"; "line"]%string ->
     exists ptr fallback,
       map_get (option_map parser) name = Some ptr /\
       option_at parser ptr = Ok (option_new_int fallback)) ->
  (forall name file, fopen name = Some file ->
     Z.of_nat (length (file_data file)) <= INT_MAX) ->
  Z.of_nat (length (file_data stdin)) <= INT_MAX ->
  (forall parser' calls n,
     ap_parse strtod parser argv = Ok (parser', calls) ->
     ap_int_value parser' "num" = Ok n -> -1 <= n) ->
  run_defined
    (rbind (of_outcome (ap_parse strtod parser argv))
       (fun r => main_after_parse malloc_fails fopen stdin (fst r))).
Proof.
  intros Hok Hrange Hpos Hnames Hfiles Hstdin Hnum.
  pose proof (ap_parse_array_defined strtod parser (tail argv) Hok) as Hdef.
  pose proof (ap_parse_array_range strtod parser (tail argv) Hrange) as Hran.
  fold (ap_parse strtod parser argv) in Hdef, Hran.
  destruct (ap_parse strtod parser argv) as [[parser' calls]|msg|[text|]| |] eqn:Hrun;
    cbn [of_outcome rbind fst]; try (by split); try contradiction.
  cbn [fst] in Hran. unfold ap_parse in Hrun.
  destruct (int_value_after_run parser "offset" _ _ _
              (Hnames _ ltac:(by left)) Hrun) as [offset Hoffset].
  destruct (int_value_after_run parser "num" _ _ _
              (Hnames _ ltac:(by right; left)) Hrun) as [num Hnumv].
  destruct (int_value_after_run parser "line" _ _ _
              (Hnames _ ltac:(by right; right; left)) Hrun) as [line Hline].
  rewrite (main_after_parse_values malloc_fails fopen stdin parser'
             offset num line Hoffset Hnumv Hline).
  pose proof (ap_int_value_range _ _ _ Hran Hoffset) as Ho.
  pose proof (ap_int_value_range _ _ _ Hran Hnumv) as Hn.
  pose proof (Hnum parser' calls num eq_refl Hnumv) as Hn'.
  destruct (ap_has_args parser') eqn:Hargs.
  - destruct (first_argument_after_run parser _ _ _ Hpos Hrun Hargs) as [name ->].
    destruct (fopen name) as [file|] eqn:Hfile; cbn [rbind]; [|by split].
    apply dump_from_defined; [by eapply Hfiles|lia|lia].
  - cbn [rbind]. apply dump_from_defined; [done|lia|lia].
Qed.

(** X28. The program has no undefined behaviour and ends, whatever its
    arguments, as long as [malloc] refuses a negative size, no file has more
    bytes than the greatest [int], and the number of bytes to read is not
    below -1: it returns, or it exits with a status. *)
Theorem main_is_defined (argv : list string) :
  (forall name file, fopen name = Some file ->
     Z.of_nat (length (file_data file)) <= INT_MAX) ->
  Z.of_nat (length (file_data stdin)) <= INT_MAX ->
  (forall parser' calls n,
     ap_parse strtod parser_of_dmp argv = Ok (parser', calls) ->
     ap_int_value parser' "num" = Ok n -> -1 <= n) ->
  main malloc_fails fopen stdin strtod argv <> RunUndefined /\
  main malloc_fails fopen stdin strtod argv <> RunOutOfFuel.
Proof.
  intros Hfiles Hstdin Hnum. rewrite main_parse.
  destruct parser_of_dmp_fields as (_ & Hpos & _).
  destruct parser_of_dmp_names
    as (Hline & _ & Hnumber & _ & Hoffset & _ & _ & _ & _ & _ & Hat0 & Hat1 & Hat2).
  apply (main_after_parse_defined parser_of_dmp argv parser_of_dmp_ok
           parser_of_dmp_range Hpos); [|exact Hfiles|exact Hstdin|exact Hnum].
  intros name [<-|[<-|[<-|[]]]].
  - exists 2, 0. split; [exact Hoffset|exact Hat2].
  - exists 1, (-1). split; [exact Hnumber|exact Hat1].
  - exists 0, 16. split; [exact Hline|exact Hat0].
Qed.

End main_defined.

(** ** The properties at work *)

Lemma option_takes_next_word_witness :
  let parser := ap_str_opt ap_new "out o" "a.txt" in
  let args := ["--out"; "b.txt"]%string in
  let s := argstream_new (Z.of_nat (length args)) args in
  let opt := option_new_str "a.txt" in
  map_get (option_map parser) "out" = Some 0 /\
  option_at parser 0 = Ok opt /\
  stream_ok s /\ stream_rest s = args /\
  ap_parse_loop strtod_none 3 parser s true
    = (do opt' <- option_try_set strtod_none opt "b.txt";
       ap_parse_loop strtod_none 2 (store_option parser 0 opt')
         (stream_advance (stream_advance s)) false).
Proof.
  intros parser args s opt.
  assert ("out"%string <> ""%string) as H1 by discriminate.
  assert (has_equals "out" = false) as H2 by reflexivity.
  assert (map_get (option_map parser) "out" = Some 0) as H3 by reflexivity.
  assert (option_at parser 0 = Ok opt) as H4 by reflexivity.
  assert (opt_type opt <> OPT_FLAG) as H5 by discriminate.
  assert (stream_ok s) as H6 by apply (argstream_new_ok args).
  assert (stream_rest s = ("--" ++ "out")%string :: "b.txt"%string :: []) as H7
    by reflexivity.
  split; [exact H3|]. split; [exact H4|]. split; [exact H6|]. split; [exact H7|].
  exact (proj1 (option_takes_next_word strtod_none 2 parser s true "out" "b.txt" []
                  0 opt H1 H2 H3 H4 H5 H6 H7)).
Defined.

Lemma option_missing_argument_witness :
  let parser := ap_str_opt ap_new "out o" "a.txt" in
  let args := ["--out"]%string in
  let s := argstream_new (Z.of_nat (length args)) args in
  map_get (option_map parser) "out" = Some 0 /\
  option_at parser 0 = Ok (option_new_str "a.txt") /\
  stream_ok s /\ stream_rest s = args /\
  ap_parse_loop strtod_none 2 parser s true
    = Fatal ("missing argument for the --" ++ "out" ++ " option")%string.
Proof.
  intros parser args s.
  assert ("out"%string <> ""%string) as H1 by discriminate.
  assert (has_equals "out" = false) as H2 by reflexivity.
  assert (map_get (option_map parser) "out" = Some 0) as H3 by reflexivity.
  assert (option_at parser 0 = Ok (option_new_str "a.txt")) as H4 by reflexivity.
  assert (opt_type (option_new_str "a.txt") <> OPT_FLAG) as H5 by discriminate.
  assert (stream_ok s) as H6 by apply (argstream_new_ok args).
  assert (stream_rest s = [("--" ++ "out")%string]) as H7 by reflexivity.
  split; [exact H3|]. split; [exact H4|]. split; [exact H6|]. split; [exact H7|].
  exact (proj1 (option_missing_argument strtod_none 1 parser s true "out" 0
                  (option_new_str "a.txt") H1 H2 H3 H4 H5 H6 H7)).
Defined.

Lemma help_command_witness :
  let parser := fst (ap_cmd ap_new "run") in
  let args := ["help"; "run"]%string in
  let s := argstream_new (Z.of_nat (length args)) args in
  cmd_help parser = true /\
  map_get (command_map parser) "help" = None /\
  stream_ok s /\
  ap_parse_loop strtod_none 3 parser s true = Exit0 None.
Proof.
  intros parser args s.
  assert (cmd_help parser = true) as H1 by reflexivity.
  assert (map_get (command_map parser) "help" = None) as H2 by reflexivity.
  assert (stream_ok s) as H3 by apply (argstream_new_ok args).
  split; [exact H1|]. split; [exact H2|]. split; [exact H3|].
  assert (map_get (command_map parser) "run" = Some 0) as H4 by reflexivity.
  destruct (vec_at (command_vec parser) 0) as [child|] eqn:H5; [|discriminate H5].
  assert (helptext child = None) as H6.
  { vm_compute in H5. injection H5 as <-. reflexivity. }
  rewrite <- H6.
  exact (proj1 (help_command strtod_none 2 parser s [] H1 H2 H3)
           "run"%string 0 child eq_refl H4 H5).
Defined.

Lemma short_flags_combine_witness :
  let parser := ap_flag (ap_flag ap_new "a") "b" in
  let s := argstream_new 1 ["-ab"]%string in
  let s2 := argstream_new 2 ["-a"; "-b"]%string in
  let parser' := fold_left count_flag ["a"; "b"]%char parser in
  Forall (flag_char parser) ["a"; "b"]%char /\
  stream_ok s /\ stream_ok s2 /\
  ap_parse_loop strtod_none 2 parser s true
    = ap_parse_loop strtod_none 1 parser' (stream_advance s) false /\
  ap_parse_loop strtod_none 3 parser s2 true
    = ap_parse_loop strtod_none 1 parser' (stream_advance (stream_advance s2)) false.
Proof.
  intros parser s s2 parser'.
  assert (Forall (flag_char parser) ["a"; "b"]%char) as H1.
  { repeat constructor; try discriminate.
    - exists 0, option_new_flag. by vm_compute.
    - exists 1, option_new_flag. by vm_compute. }
  assert (stream_ok s) as H2 by apply (argstream_new_ok ["-ab"%string]).
  assert (stream_rest s
          = String "-" (string_of_list_ascii ["a"; "b"]%char) :: []) as H3
    by reflexivity.
  assert (stream_ok s2) as H4 by apply (argstream_new_ok ["-a"; "-b"]%string).
  assert (stream_rest s2
          = map (fun c => String "-" (String c "")) ["a"; "b"]%char ++ []) as H5
    by reflexivity.
  split; [exact H1|]. split; [exact H2|]. split; [exact H4|].
  pose proof (short_flags_combine strtod_none 1 parser s s2 true "a"%char
                ["b"%char] [] H1 H2 H3 H4 H5) as (Ha & Hb & _).
  split; [exact Ha|exact Hb].
Defined.

Lemma parse_is_defined_witness :
  let args := ["run"; "--fast"; "x"]%string in
  parser_ok parser_with_run /\
  ap_parse_array strtod_none parser_with_run args <> Undefined /\
  ap_parse_array strtod_none parser_with_run args <> OutOfFuel.
Proof.
  intros args. split; [exact parser_with_run_ok|].
  pose proof (parse_is_defined strtod_none parser_with_run args parser_with_run_ok)
    as (Ha & Hb & _).
  split; [exact Ha|exact Hb].
Defined.

Lemma names_fixed_by_run_witness :
  let parser := ap_flag ap_new "v" in
  let args := ["-v"; "-v"]%string in
  exists parser' calls,
    ap_parse_array strtod_none parser args = Ok (parser', calls) /\
    ap_int_value parser' "w"
      = Fatal ("'" ++ "w" ++ "' is not a registered flag or option name")%string /\
    exists n', ap_count parser' "v" = Ok n' /\ 0 <= n'.
Proof.
  intros parser args.
  destruct (ap_parse_array strtod_none parser args) as [[parser' calls]| | | |] eqn:Hrun;
    try (exfalso; vm_compute in Hrun; discriminate Hrun).
  exists parser', calls. split; [reflexivity|].
  pose proof (names_fixed_by_run strtod_none parser args parser' calls "w" Hrun)
    as (Ha & _).
  pose proof (names_fixed_by_run strtod_none parser args parser' calls "v" Hrun)
    as (_ & Hb).
  split.
  - exact (proj1 (proj2 (proj2 (proj2 (Ha eq_refl))))).
  - apply (Hb 0); [apply ap_flag_ok, ap_new_ok|reflexivity].
Defined.

Lemma positionals_come_from_arguments_witness :
  let parser := ap_flag ap_new "v" in
  let args := ["a"; "-v"; "b"]%string in
  vec_ok (positional_args parser) /\
  exists parser' calls,
    ap_parse_array strtod_none parser args = Ok (parser', calls) /\
    exists extra,
      sublist extra args /\
      ap_args parser' = ap_args parser ++ map Some extra /\
      ap_count_args parser' = ap_count_args parser + Z.of_nat (length extra).
Proof.
  intros parser args.
  assert (vec_ok (positional_args parser)) as H1 by apply vec_new_ok.
  split; [exact H1|].
  destruct (ap_parse_array strtod_none parser args) as [[parser' calls]| | | |] eqn:Hrun;
    try (exfalso; vm_compute in Hrun; discriminate Hrun).
  exists parser', calls. split; [reflexivity|].
  exact (positionals_come_from_arguments strtod_none parser args parser' calls H1 Hrun).
Defined.

Lemma positionals_as_numbers_witness :
  let args := ["1"; "0x10"; "-7"]%string in
  let parser := set_positional_args ap_new (fold_left vec_add args vec_new) in
  vec_ok (positional_args parser) /\ ap_args parser = map Some args /\
  ap_args_as_ints parser = Ok [1; 16; -7].
Proof.
  intros args parser.
  assert (vec_ok (positional_args parser)) as H1.
  { apply (vec_add_all_spec vec_new args vec_new_ok). }
  assert (ap_args parser = map Some args) as H2 by reflexivity.
  split; [exact H1|]. split; [exact H2|].
  apply (proj1 (positionals_as_numbers parser args H1 H2)).
  repeat constructor.
Defined.

Lemma dump_file_lines_witness :
  let malloc_fails := fun n : Z => n <? 0 in
  let file := [Byte.x41; Byte.x42; Byte.x43] in
  malloc_fails 2 = false /\
  dump_file malloc_fails file 0 (-1) 2
    = Returns (dump_text (shown file (-1)) 0 2).
Proof.
  intros malloc_fails file.
  assert (malloc_fails 2 = false) as H1 by reflexivity.
  assert (0 < 2) as H2 by lia.
  assert (INT_MIN <= 0) as H3 by (unfold INT_MIN; lia).
  assert (0 + Z.of_nat (length (shown file (-1))) <= INT_MAX) as H4
    by (unfold INT_MAX; simpl; lia).
  assert (-1 <= INT_MAX) as H5 by (unfold INT_MAX; lia).
  assert (-1 < 0 -> INT_MIN <= -1 - Z.of_nat (length file)) as H6
    by (intros _; unfold INT_MIN; simpl; lia).
  split; [exact H1|].
  exact (proj1 (dump_file_lines malloc_fails file 0 (-1) 2 H1 H2 H3 H4 H5 H6)).
Defined.

Lemma dump_output_safe_witness :
  let malloc_fails := fun n : Z => n <? 0 in
  let file := [Byte.x00; Byte.x1b; Byte.x41; Byte.xff] in
  exists out,
    dump_file malloc_fails file 0 3 2 = Returns out /\
    string_all tty_safe out = true.
Proof.
  intros malloc_fails file.
  destruct (dump_file malloc_fails file 0 3 2) as [out| | |] eqn:Hrun;
    try (exfalso; vm_compute in Hrun; discriminate Hrun).
  exists out. split; [reflexivity|].
  exact (dump_output_safe malloc_fails file 0 3 2 out Hrun).
Defined.

Lemma main_dumps_whole_file_witness :
  let malloc_fails := fun n : Z => n <? 0 in
  let file := mkFile [Byte.x41; Byte.x42] true in
  let fopen := fun _ : string => Some file in
  let stdin := mkFile [] false in
  Forall (fun a => String.prefix "-" a = false) ["a.bin"; "more"]%string /\
  main malloc_fails fopen stdin strtod_none ["dmp"; "a.bin"; "more"]%string
    = dump_file malloc_fails (file_data file) 0 (-1) 16.
Proof.
  intros malloc_fails file fopen stdin.
  assert (Forall (fun a => String.prefix "-" a = false) ["a.bin"; "more"]%string)
    as H1 by (repeat constructor).
  split; [exact H1|].
  exact (proj1 (main_dumps_whole_file malloc_fails fopen stdin strtod_none
                  "dmp" "a.bin" ["more"%string] H1) file eq_refl).
Defined.

Lemma main_offset_witness :
  let malloc_fails := fun n : Z => n <? 0 in
  let file := mkFile [Byte.x41; Byte.x42; Byte.x43] true in
  let fopen := fun _ : string => Some file in
  let stdin := mkFile [] false in
  try_str_to_int "2" = Ok 2 /\
  main malloc_fails fopen stdin strtod_none ["dmp"; "-o"; "2"; "a.bin"]%string
    = match fseek file 2 with
      | Some file' => dump_file malloc_fails (file_data file') 2 (-1) 16
      | None =>
          Exits 1 "" ("Error: Could not seek to offset " ++ fmt_int 2 ++ LF)%string
      end.
Proof.
  intros malloc_fails file fopen stdin.
  assert ("-o"%string = "--offset"%string \/ "-o"%string = "-o"%string) as H1
    by (right; reflexivity).
  assert (try_str_to_int "2" = Ok 2) as H2 by (vm_compute; reflexivity).
  assert (2 <> 0) as H3 by discriminate.
  assert (String.prefix "-" "a.bin" = false) as H4 by reflexivity.
  assert (fopen "a.bin"%string = Some file) as H5 by reflexivity.
  split; [exact H2|].
  exact (proj1 (main_offset malloc_fails fopen stdin strtod_none "dmp" "-o" "2"
                  "a.bin" 2 file H1 H2 H3 H4 H5)).
Defined.

Lemma main_num_underflow_witness :
  let malloc_fails := fun n : Z => n <? 0 in
  let file := mkFile [Byte.x41] true in
  let fopen := fun _ : string => Some file in
  let stdin := mkFile [] false in
  try_str_to_int "-2147483648" = Ok (-2147483648) /\
  malloc_fails 16 = false /\
  main malloc_fails fopen stdin strtod_none
    ["dmp"; "-n"; "-2147483648"; "a.bin"]%string = RunUndefined.
Proof.
  intros malloc_fails file fopen stdin.
  assert ("-n"%string = "--num"%string \/ "-n"%string = "-n"%string) as H1
    by (right; reflexivity).
  assert (try_str_to_int "-2147483648" = Ok (-2147483648)) as H2
    by (vm_compute; reflexivity).
  assert (-2147483648 < 0) as H3 by lia.
  assert (-2147483648 - Z.of_nat (length (take 16 (file_data file))) < INT_MIN)
    as H4 by (unfold INT_MIN; simpl; lia).
  assert (String.prefix "-" "a.bin" = false) as H5 by reflexivity.
  assert (fopen "a.bin"%string = Some file) as H6 by reflexivity.
  assert (file_data file <> []) as H7 by discriminate.
  assert (malloc_fails 16 = false) as H8 by reflexivity.
  split; [exact H2|]. split; [exact H8|].
  exact (main_num_underflow malloc_fails fopen stdin strtod_none "dmp" "-n"
           "-2147483648" "a.bin" (-2147483648) file H1 H2 H3 H4 H5 H6 H7 H8).
Defined.

Lemma int_values_in_range_witness :
  let parser := ap_int_opt ap_new "n" 3 in
  let args := ["-n"; "7"]%string in
  parser_ints_in_range parser /\
  exists parser' calls,
    ap_parse_array strtod_none parser args = Ok (parser', calls) /\
    ap_int_value parser' "n" = Ok 7 /\ INT_MIN <= 7 <= INT_MAX.
Proof.
  intros parser args.
  assert (parser_ints_in_range parser) as H1.
  { apply register_option_range; [apply ap_new_range|].
    apply option_new_int_range. unfold INT_MIN, INT_MAX. lia. }
  split; [exact H1|].
  destruct (ap_parse_array strtod_none parser args) as [[parser' calls]| | | |] eqn:Hrun;
    try (exfalso; vm_compute in Hrun; discriminate Hrun).
  exists parser', calls. split; [reflexivity|].
  assert (ap_int_value parser' "n" = Ok 7) as H2.
  { vm_compute in Hrun. injection Hrun as <- _. vm_compute. reflexivity. }
  split; [exact H2|].
  exact (int_values_in_range strtod_none parser args parser' calls "n" 7 H1 Hrun H2).
Defined.

Lemma main_is_defined_witness :
  let malloc_fails := fun n : Z => n <? 0 in
  let file := mkFile [Byte.x41; Byte.x42] true in
  let fopen := fun _ : string => Some file in
  let stdin := mkFile [] false in
  let argv := ["dmp"; "a.bin"]%string in
  (forall n, n < 0 -> malloc_fails n = true) /\
  main malloc_fails fopen stdin strtod_none argv <> RunUndefined /\
  main malloc_fails fopen stdin strtod_none argv <> RunOutOfFuel.
Proof.
  intros malloc_fails file fopen stdin argv.
  assert (forall n, n < 0 -> malloc_fails n = true) as H1.
  { intros n Hn. apply Z.ltb_lt. exact Hn. }
  assert (forall (name : string) f, fopen name = Some f ->
            Z.of_nat (length (file_data f)) <= INT_MAX) as H2.
  { intros name f Hf. injection Hf as <-. unfold INT_MAX. simpl. lia. }
  assert (Z.of_nat (length (file_data stdin)) <= INT_MAX) as H3.
  { unfold INT_MAX. simpl. lia. }
  assert (forall parser' calls n,
            ap_parse strtod_none parser_of_dmp argv = Ok (parser', calls) ->
            ap_int_value parser' "num" = Ok n -> -1 <= n) as H4.
  { intros parser' calls n Hrun Hval.
    assert (Forall (fun a => String.prefix "-" a = false) ["a.bin"%string]) as Hplain
      by (repeat constructor).
    pose proof (run_plain_words strtod_none "dmp" ["a.bin"%string] Hplain) as Hrun'.
    unfold argv in Hrun. rewrite Hrun' in Hrun. injection Hrun as <- _.
    destruct (default_values (vec_add vec_new "a.bin"%string)) as (_ & Hnum & _).
    rewrite Hnum in Hval. injection Hval as <-. lia. }
  split; [exact H1|].
  exact (main_is_defined malloc_fails fopen stdin strtod_none H1 argv H2 H3 H4).
Defined.

(** ** The history of an option after a run *)

(** The ways to write an option and its value on the command line:
    [--w text], [-c text], [--w=text] and [-c=text]. *)
Inductive Occurrence : Type :=
  | long_value (w text : string)
  | short_value (c : ascii) (text : string)
  | long_equals (w text : string)
  | short_equals (c : ascii) (text : string).

(** The name that the occurrence is looked up with. *)
Definition occ_word (o : Occurrence) : string :=
  match o with
  | long_value w _ | long_equals w _ => w
  | short_value c _ | short_equals c _ => String c ""
  end.

(** The text of its value. *)
Definition occ_text (o : Occurrence) : string :=
  match o with
  | long_value _ t | short_value _ t | long_equals _ t | short_equals _ t => t
  end.

(** The arguments that it takes on the command line. *)
Definition occ_args (o : Occurrence) : list string :=
  match o with
  | long_value w t => [("--" ++ w)%string; t]
  | short_value c t => [String "-" (String c ""); t]
  | long_equals w t => [("--" ++ w ++ String "=" t)%string]
  | short_equals c t => [String "-" (String c (String "=" t))]
  end.

(** What the parser asks of the way an occurrence is written: the name is
    not empty and holds no ['='], a short name is not a digit or a dash, and
    the value of an equals form is not empty. *)
Definition occ_form (o : Occurrence) : Prop :=
  occ_word o <> ""%string /\ has_equals (occ_word o) = false /\
  match o with
  | long_value _ _ => True
  | short_value c _ => isdigit c = false /\ c <> "-"%char
  | long_equals _ t => t <> ""%string
  | short_equals c t => isdigit c = false /\ c <> "-"%char /\ t <> ""%string
  end.

(** An occurrence of the option registered as [names]: its name is one of
    the words of [names]. *)
Definition occ_ok (names : string) (o : Occurrence) : Prop :=
  In (occ_word o) (strtok names) /\ has_equals (occ_word o) = false /\
  match o with
  | long_value _ _ => True
  | short_value c _ => isdigit c = false /\ c <> "-"%char
  | long_equals _ t => t <> ""%string
  | short_equals c t => isdigit c = false /\ c <> "-"%char /\ t <> ""%string
  end.

Lemma strtok_not_empty (names w : string) : In w (strtok names) -> w <> ""%string.
Proof.
  intros Hin ->.
  pose proof (strtok_from_words ""%string names ""%string eq_refl Hin) as H.
  discriminate H.
Qed.

Lemma occ_ok_form (names : string) (o : Occurrence) : occ_ok names o -> occ_form o.
Proof.
  intros (Hin & Heq & Hform). split; [by eapply strtok_not_empty|]. by split.
Qed.

Lemma str_offset_0 (s : string) : str_offset s 0 = s.
Proof. by destruct s. Qed.

Lemma occ_args_length (occs : list Occurrence) :
  (length occs <= length (flat_map occ_args occs))%nat.
Proof.
  induction occs as [|o occs IH]; [done|]. simpl. rewrite length_app.
  destruct o; simpl; lia.
Qed.

Lemma store_option_maps parser ptr opt :
  option_map (store_option parser ptr opt) = option_map parser.
Proof. reflexivity. Qed.

Lemma option_at_store parser ptr opt opt' :
  option_at parser ptr = Ok opt -> option_at (store_option parser ptr opt') ptr = Ok opt'.
Proof.
  intros Hat. apply option_at_Ok. apply option_at_Ok in Hat.
  unfold store_option. cbn [option_vec set_options]. by eapply vec_at_store.
Qed.

Lemma option_append_value_type opt v :
  opt_type (option_append_value opt v) = opt_type opt.
Proof. unfold option_append_value. by destruct (_ >? _). Qed.

Lemma option_at_registered parser (names : string) (opt : Option) :
  vec_ok (option_vec parser) ->
  option_at (register_option parser names opt) (vec_count (option_vec parser)) = Ok opt.
Proof.
  intros Hvec. apply option_at_Ok. unfold register_option.
  cbn [option_vec set_options]. by apply vec_at_add_new.
Qed.

Section history.

Variable strtod : string -> float * string * bool.

(** [option_try_set] on an option of the type and the text appends [v]. *)
Definition sets_value (type : OptionType) (text : string) (v : OptionValue) : Prop :=
  forall opt, opt_type opt = type ->
    option_try_set strtod opt text = Ok (option_append_value opt v).

Lemma sets_value_str (text : string) : sets_value OPT_STR text (str_val text).
Proof. intros opt Htype. unfold option_try_set. by rewrite Htype. Qed.

Lemma sets_value_int (text : string) (n : Z) :
  try_str_to_int text = Ok n -> sets_value OPT_INT text (int_val n).
Proof. intros Hn opt Htype. unfold option_try_set. by rewrite Htype, Hn. Qed.

Lemma sets_value_dbl (text : string) (d : float) :
  try_str_to_double strtod text = Ok d -> sets_value OPT_DBL text (dbl_val d).
Proof. intros Hd opt Htype. unfold option_try_set. by rewrite Htype, Hd. Qed.

(** The round of the loop on an occurrence of an option that takes a
    value: the value is appended to the option, and the loop goes on after
    the arguments of the occurrence. *)
Lemma occurrence_round fuel parser s is_first (o : Occurrence)
    (rest : list string) (ptr : Z) (opt : Option) (v : OptionValue) :
  occ_form o ->
  map_get (option_map parser) (occ_word o) = Some ptr ->
  option_at parser ptr = Ok opt -> opt_type opt <> OPT_FLAG ->
  option_try_set strtod opt (occ_text o) = Ok (option_append_value opt v) ->
  stream_ok s -> stream_rest s = occ_args o ++ rest ->
  exists s',
    ap_parse_loop strtod (S fuel) parser s is_first
    = ap_parse_loop strtod fuel
        (store_option parser ptr (option_append_value opt v)) s' false /\
    stream_ok s' /\ stream_rest s' = rest.
Proof.
  intros (Hne & Heq & Hform) Hget Hat Htype Hset Hok Hrest.
  destruct o as [w t|c t|w t|c t]; cbn [occ_word occ_text occ_args] in *.
  - destruct (stream_rest_cons s _ _ Hok Hrest) as (_ & _ & Hok1 & Hrest1).
    destruct (stream_rest_cons _ _ _ Hok1 Hrest1) as (_ & _ & Hok2 & Hrest2).
    exists (stream_advance (stream_advance s)). split; [|by split].
    rewrite (ap_parse_loop_handler strtod fuel parser s is_first _ _
               (ap_handle_long_opt strtod parser w (stream_advance s)) Hok Hrest).
    + rewrite (ap_handle_long_opt_value strtod parser (stream_advance s) w t rest
                 ptr opt Hget Hat Htype Hok1 Hrest1).
      by rewrite Hset.
    + intros recurse. by apply ap_parse_arg_long.
  - destruct Hform as [Hdigit Hdash].
    destruct (stream_rest_cons s _ _ Hok Hrest) as (_ & _ & Hok1 & Hrest1).
    destruct (stream_rest_cons _ _ _ Hok1 Hrest1) as (_ & _ & Hok2 & Hrest2).
    exists (stream_advance (stream_advance s)). split; [|by split].
    rewrite (ap_parse_loop_handler strtod fuel parser s is_first _ _
               (ap_handle_short_opt strtod parser (String c "") (stream_advance s))
               Hok Hrest).
    + rewrite (ap_handle_short_opt_value strtod parser (stream_advance s) c t rest
                 ptr opt Hget Hat Htype Hok1 Hrest1).
      by rewrite Hset.
    + intros recurse. by apply ap_parse_arg_short.
  - destruct (stream_rest_cons s _ _ Hok Hrest) as (_ & _ & Hok1 & Hrest1).
    exists (stream_advance s). split; [|by split].
    rewrite (ap_parse_loop_round strtod _ _ _ _ _ _ Hok Hrest).
    destruct (split_equals_app w t Heq) as [Hsplit Hhas].
    rewrite (ap_parse_arg_equals strtod _ _ _ _ _ "--" w t).
    2:{ split; [exact Hhas|]. left. split; [done|].
        change ("--" ++ w ++ String "=" t)%string
          with (String "-" (String "-" (w ++ String "=" t)%string)).
        split; [by rewrite !prefix_cons, prefix_nil|].
        change (str_offset (String "-" (String "-" (w ++ String "=" t)%string)) 2)
          with (str_offset (w ++ String "=" t)%string 0).
        by rewrite str_offset_0. }
    unfold equals_rule. rewrite Hget, Hat. cbn [obind].
    destruct (opt_type opt) eqn:Ht; [done| | |].
    all: destruct (String.eqb_spec t ""); [done|].
    all: rewrite Hset; cbn [obind]; apply obind_ret_calls.
  - destruct Hform as (Hdigit & Hdash & Htext).
    destruct (stream_rest_cons s _ _ Hok Hrest) as (_ & _ & Hok1 & Hrest1).
    exists (stream_advance s). split; [|by split].
    rewrite (ap_parse_loop_round strtod _ _ _ _ _ _ Hok Hrest).
    assert (Ascii.eqb c "=" = false) as Hc.
    { simpl in Heq. by destruct (Ascii.eqb c "="). }
    rewrite (ap_parse_arg_equals strtod _ _ _ _ _ "-" (String c "") t).
    2:{ split; [simpl; by rewrite Hc|]. right. split; [done|].
        split; [done|]. split.
        { rewrite !prefix_cons.
          assert (Ascii.eqb "-" c = false) as ->; [|reflexivity].
          apply Ascii.eqb_neq. intros <-. by apply Hdash. }
        split; [exact Hdigit|]. simpl. by rewrite Hc. }
    unfold equals_rule. rewrite Hget, Hat. cbn [obind].
    destruct (opt_type opt) eqn:Ht; [done| | |].
    all: destruct (String.eqb_spec t ""); [done|].
    all: rewrite Hset; cbn [obind]; apply obind_ret_calls.
Qed.

(** The rounds on a list of occurrences of one option: their values are
    appended to the option in their order. *)
Lemma occurrences_loop (m : Map Z) (ptr : Z) (type : OptionType)
    (occs : list Occurrence) :
  type <> OPT_FLAG ->
  forall (vs : list OptionValue) fuel parser s is_first opt (rest : list string),
    Forall2 (fun o v => occ_form o /\ map_get m (occ_word o) = Some ptr /\
                        sets_value type (occ_text o) v) occs vs ->
    option_map parser = m -> option_at parser ptr = Ok opt -> opt_type opt = type ->
    stream_ok s -> stream_rest s = flat_map occ_args occs ++ rest ->
    exists parser' s' first',
      ap_parse_loop strtod (length occs + fuel) parser s is_first
      = ap_parse_loop strtod fuel parser' s' first' /\
      option_map parser' = m /\
      option_at parser' ptr = Ok (option_append_all opt vs) /\
      stream_ok s' /\ stream_rest s' = rest.
Proof.
  intros Hflag. induction occs as [|o occs IH];
    intros vs fuel parser s is_first opt rest Hvs Hmap Hat Htype Hok Hrest.
  { apply Forall2_nil_inv_l in Hvs as ->. exists parser, s, is_first. by split_and!. }
  apply Forall2_cons_inv_l in Hvs as (v & vs' & (Hform & Hget & Hset) & Hvs' & ->).
  cbn [flat_map] in Hrest. rewrite <- app_assoc in Hrest.
  destruct (occurrence_round (length occs + fuel) parser s is_first o
              (flat_map occ_args occs ++ rest) ptr opt v)
    as (s1 & Hround & Hok1 & Hrest1);
    [exact Hform|by rewrite Hmap|exact Hat|by rewrite Htype|by apply Hset
    |exact Hok|exact Hrest|].
  destruct (IH vs' fuel (store_option parser ptr (option_append_value opt v)) s1
              false (option_append_value opt v) rest)
    as (parser' & s' & first' & Hloop & Hmap' & Hat' & Hok' & Hrest');
    [exact Hvs'|by rewrite store_option_maps|by eapply option_at_store
    |by rewrite option_append_value_type|exact Hok1|exact Hrest1|].
  exists parser', s', first'. split; [|by split_and!].
  change (length (o :: occs) + fuel)%nat with (S (length occs + fuel)).
  by rewrite Hround.
Qed.

(** The run on the occurrences of a new option. *)
Lemma history_of_run {A} (wrap : A -> OptionValue) (type : OptionType)
    parser (names : string) (fallback : A) (occs : list Occurrence) (xs : list A) :
  type <> OPT_FLAG ->
  map_ok (option_map parser) -> vec_ok (option_vec parser) ->
  Forall (occ_ok names) occs ->
  Forall2 (fun o x => sets_value type (occ_text o) (wrap x)) occs xs ->
  exists parser',
    ap_parse_array strtod
      (register_option parser names (option_new type (Some (wrap fallback))))
      (flat_map occ_args occs)
    = Ok (parser', []) /\
    forall w, In w (strtok names) ->
      ap_get_opt parser' w
      = Ok (option_append_all (option_new type (Some (wrap fallback))) (map wrap xs)).
Proof.
  intros Hflag Hmap Hvec Hoccs Hxs.
  set (opt0 := option_new type (Some (wrap fallback))).
  set (parser0 := register_option parser names opt0).
  set (ptr := vec_count (option_vec parser)).
  set (args := flat_map occ_args occs).
  destruct (argstream_new_ok args) as [Hok Hrest].
  assert (Forall2 (fun o v => occ_form o /\
                     map_get (option_map parser0) (occ_word o) = Some ptr /\
                     sets_value type (occ_text o) v) occs (map wrap xs)) as Hvs.
  { apply Forall2_fmap_r. clear Hok Hrest. subst args.
    induction Hxs as [|o x occs xs Hx _ IH]; [constructor|].
    apply Forall_cons in Hoccs as [Ho Hoccs]. constructor; [|by apply IH].
    split; [by eapply occ_ok_form|]. split; [|exact Hx].
    destruct Ho as (Hin & _).
    apply (register_option_get parser names opt0 _ Hmap Hvec Hin). }
  destruct (occurrences_loop (option_map parser0) ptr type occs Hflag (map wrap xs)
              (S (length args) - length occs) parser0
              (argstream_new (Z.of_nat (length args)) args) true opt0 [])
    as (parser' & s' & first' & Hloop & Hmap' & Hat' & Hok' & Hrest');
    [exact Hvs|reflexivity|by apply option_at_registered|reflexivity|exact Hok
    |by rewrite app_nil_r|].
  exists parser'. split.
  - unfold ap_parse_array, ap_parse_stream. fold args.
    pose proof (occ_args_length occs) as Hlen. fold args in Hlen.
    replace (S (length args))
      with (length occs + (S (length args) - length occs))%nat by lia.
    rewrite Hloop. rewrite ap_parse_loop_end; [done|].
    by apply (stream_rest_nil s' Hok').
  - intros w Hw. unfold ap_get_opt. rewrite Hmap'.
    pose proof (proj1 (register_option_get parser names opt0 w Hmap Hvec Hw)) as Hget.
    fold parser0 ptr in Hget. rewrite Hget. exact Hat'.
Qed.

Lemma stream_rest_length s :
  stream_ok s -> as_count s - as_index s = Z.of_nat (length (stream_rest s)).
Proof. intros [Hi Hc]. unfold stream_rest. rewrite length_drop. lia. Qed.

Lemma option_append_all_app opt (vs vs' : list OptionValue) :
  option_append_all (option_append_all opt vs) vs' = option_append_all opt (vs ++ vs').
Proof. unfold option_append_all. by rewrite fold_left_app. Qed.

Lemma values_of_type_str (vs : list OptionValue) :
  Forall (value_of_type OPT_STR) vs -> exists xs, vs = map str_val xs.
Proof.
  induction 1 as [|v vs Hv _ [xs ->]]; [by exists []|].
  destruct v as [x| |]; try done. by exists (x :: xs).
Qed.

Lemma values_of_type_dbl (vs : list OptionValue) :
  Forall (value_of_type OPT_DBL) vs -> exists xs, vs = map dbl_val xs.
Proof.
  induction 1 as [|v vs Hv _ [xs ->]]; [by exists []|].
  destruct v as [| |x]; try done. by exists (x :: xs).
Qed.

(** The run on the occurrences of a new option and on the arguments
    [rest] after them, when it returns: the history of the option starts
    with the values of the occurrences. *)
Lemma history_before_rest {A} (wrap : A -> OptionValue) (type : OptionType)
    parser (names : string) (fallback : A) (occs : list Occurrence) (xs : list A)
    (rest : list string) parser' calls :
  type <> OPT_FLAG ->
  map_ok (option_map parser) -> vec_ok (option_vec parser) ->
  Forall (occ_ok names) occs ->
  Forall2 (fun o x => sets_value type (occ_text o) (wrap x)) occs xs ->
  ap_parse_array strtod
    (register_option parser names (option_new type (Some (wrap fallback))))
    (flat_map occ_args occs ++ rest)
  = Ok (parser', calls) ->
  exists vs',
    Forall (value_of_type type) vs' /\
    forall w, In w (strtok names) ->
      ap_get_opt parser' w
      = Ok (option_append_all (option_new type (Some (wrap fallback)))
              (map wrap xs ++ vs')).
Proof.
  intros Hflag Hmap Hvec Hoccs Hxs.
  set (opt0 := option_new type (Some (wrap fallback))).
  set (parser0 := register_option parser names opt0).
  set (ptr := vec_count (option_vec parser)).
  set (args := flat_map occ_args occs ++ rest).
  destruct (argstream_new_ok args) as [Hok Hrest].
  assert (Forall2 (fun o v => occ_form o /\
                     map_get (option_map parser0) (occ_word o) = Some ptr /\
                     sets_value type (occ_text o) v) occs (map wrap xs)) as Hvs.
  { apply Forall2_fmap_r. clear Hok Hrest. subst args.
    induction Hxs as [|o x occs xs Hx _ IH]; [constructor|].
    apply Forall_cons in Hoccs as [Ho Hoccs]. constructor; [|by apply IH].
    split; [by eapply occ_ok_form|]. split; [|exact Hx].
    destruct Ho as (Hin & _).
    apply (register_option_get parser names opt0 _ Hmap Hvec Hin). }
  destruct (occurrences_loop (option_map parser0) ptr type occs Hflag (map wrap xs)
              (S (length args) - length occs) parser0
              (argstream_new (Z.of_nat (length args)) args) true opt0 rest)
    as (parser1 & s1 & first1 & Hloop & Hmap1 & Hat1 & Hok1 & Hrest1);
    [exact Hvs|reflexivity|by apply option_at_registered|reflexivity|exact Hok
    |exact Hrest|].
  pose proof (occ_args_length occs) as Hlen.
  assert (length args = length (flat_map occ_args occs) + length rest)%nat as Hargs
    by (unfold args; by rewrite length_app).
  unfold ap_parse_array, ap_parse_stream. fold args.
  replace (S (length args))
    with (length occs + (S (length args) - length occs))%nat by lia.
  rewrite Hloop.
  assert (as_count s1 - as_index s1
          < Z.of_nat (S (length args) - length occs)) as Hfuel.
  { rewrite (stream_rest_length s1 Hok1), Hrest1. lia. }
  pose proof (ap_parse_loop_fuel strtod _ parser1 s1 first1 Hok1 Hfuel) as Hret.
  destruct (ap_parse_loop strtod _ parser1 s1 first1) as [[[p s2] c]| | | |];
    cbn [obind]; try discriminate.
  intros [= <- <-]. destruct Hret as [Hsame _]. cbn [fst] in Hsame.
  destruct Hsame as (Hopts & _ & _ & _ & _ & _ & Hkept).
  destruct (option_append_all_spec opt0 (map wrap xs) (option_new_ok _ _))
    as (_ & _ & _ & Htype & _).
  destruct (Hkept ptr _ Hat1) as (opt' & Hat2 & _ & _ & _ & Happ).
  destruct Happ as (vs' & Hvs' & ->); [by rewrite Htype|].
  exists vs'. split; [by rewrite Htype in Hvs'|].
  intros w Hw. unfold ap_get_opt. rewrite Hopts, Hmap1.
  pose proof (proj1 (register_option_get parser names opt0 w Hmap Hvec Hw)) as Hget.
  fold parser0 ptr in Hget. rewrite Hget, Hat2. by rewrite option_append_all_app.
Qed.

(** C2. After a run on the occurrences of a value-taking option, written in
    any of the four forms and under any of its names, the history of the
    option is the values of the occurrences in the order of the command
    line: the run returns, the list accessor returns these values (NULL
    when there is none), the scalar accessor the last of them (the fallback
    when there is none), and [ap_count] their number, under every name of
    the option.  When other arguments follow the occurrences and the run
    returns, the history starts with the values of the occurrences, in
    their order, and goes on with the values that the other arguments gave
    the option.  This holds for integer, string and floating-point
    options.  The accessors read the history of an option in this way
    whatever appended the values, and after any run whatever an integer
    option is the registered option with integers appended. *)
Theorem option_get_last_and_history :
  (forall parser (names : string) (fallback : Z) (occs : list Occurrence)
          (ns : list Z),
     map_ok (option_map parser) -> vec_ok (option_vec parser) ->
     Forall (occ_ok names) occs ->
     Forall2 (fun o n => try_str_to_int (occ_text o) = Ok n) occs ns ->
     exists parser',
       ap_parse_array strtod (ap_int_opt parser names fallback)
         (flat_map occ_args occs) = Ok (parser', []) /\
       forall w, In w (strtok names) ->
         ap_count parser' w = Ok (Z.of_nat (length ns)) /\
         ap_int_value parser' w = Ok (List.last ns fallback) /\
         ap_int_values parser' w
           = Ok (match ns with [] => None | _ => Some ns end)) /\
  (forall parser (names fallback : string) (occs : list Occurrence),
     map_ok (option_map parser) -> vec_ok (option_vec parser) ->
     Forall (occ_ok names) occs ->
     let texts := map occ_text occs in
     exists parser',
       ap_parse_array strtod (ap_str_opt parser names fallback)
         (flat_map occ_args occs) = Ok (parser', []) /\
       forall w, In w (strtok names) ->
         ap_count parser' w = Ok (Z.of_nat (length texts)) /\
         ap_str_value parser' w = Ok (List.last texts fallback) /\
         ap_str_values parser' w
           = Ok (match texts with [] => None | _ => Some texts end)) /\
  (forall parser (names : string) (fallback : float) (occs : list Occurrence)
          (ds : list float),
     map_ok (option_map parser) -> vec_ok (option_vec parser) ->
     Forall (occ_ok names) occs ->
     Forall2 (fun o d => try_str_to_double strtod (occ_text o) = Ok d) occs ds ->
     exists parser',
       ap_parse_array strtod (ap_dbl_opt parser names fallback)
         (flat_map occ_args occs) = Ok (parser', []) /\
       forall w, In w (strtok names) ->
         ap_count parser' w = Ok (Z.of_nat (length ds)) /\
         ap_dbl_value parser' w = Ok (List.last ds fallback) /\
         ap_dbl_values parser' w
           = Ok (match ds with [] => None | _ => Some ds end)) /\
  (forall parser (names : string) (fallback : Z) (occs : list Occurrence)
          (ns : list Z) (rest : list string) parser' calls,
     map_ok (option_map parser) -> vec_ok (option_vec parser) ->
     Forall (occ_ok names) occs ->
     Forall2 (fun o n => try_str_to_int (occ_text o) = Ok n) occs ns ->
     ap_parse_array strtod (ap_int_opt parser names fallback)
       (flat_map occ_args occs ++ rest) = Ok (parser', calls) ->
     exists more : list Z,
       forall w, In w (strtok names) ->
         ap_count parser' w = Ok (Z.of_nat (length (ns ++ more))) /\
         ap_int_value parser' w = Ok (List.last (ns ++ more) fallback) /\
         ap_int_values parser' w
           = Ok (match ns ++ more with [] => None | _ => Some (ns ++ more) end)) /\
  (forall parser (names fallback : string) (occs : list Occurrence)
          (rest : list string) parser' calls,
     map_ok (option_map parser) -> vec_ok (option_vec parser) ->
     Forall (occ_ok names) occs ->
     ap_parse_array strtod (ap_str_opt parser names fallback)
       (flat_map occ_args occs ++ rest) = Ok (parser', calls) ->
     let texts := map occ_text occs in
     exists more : list string,
       forall w, In w (strtok names) ->
         ap_count parser' w = Ok (Z.of_nat (length (texts ++ more))) /\
         ap_str_value parser' w = Ok (List.last (texts ++ more) fallback) /\
         ap_str_values parser' w
           = Ok (match texts ++ more with
                 | [] => None
                 | _ => Some (texts ++ more)
                 end)) /\
  (forall parser (names : string) (fallback : float) (occs : list Occurrence)
          (ds : list float) (rest : list string) parser' calls,
     map_ok (option_map parser) -> vec_ok (option_vec parser) ->
     Forall (occ_ok names) occs ->
     Forall2 (fun o d => try_str_to_double strtod (occ_text o) = Ok d) occs ds ->
     ap_parse_array strtod (ap_dbl_opt parser names fallback)
       (flat_map occ_args occs ++ rest) = Ok (parser', calls) ->
     exists more : list float,
       forall w, In w (strtok names) ->
         ap_count parser' w = Ok (Z.of_nat (length (ds ++ more))) /\
         ap_dbl_value parser' w = Ok (List.last (ds ++ more) fallback) /\
         ap_dbl_values parser' w
           = Ok (match ds ++ more with [] => None | _ => Some (ds ++ more) end)) /\
  (forall (fallback : Z) (xs : list Z),
     let opt := option_append_all (option_new_int fallback) (map int_val xs) in
     option_get_int opt = Ok (List.last xs fallback) /\
     option_get_int_list opt = Ok (match xs with [] => None | _ => Some xs end)) /\
  (forall (fallback : string) (xs : list string),
     let opt := option_append_all (option_new_str fallback) (map str_val xs) in
     option_get_str opt = Ok (List.last xs fallback) /\
     option_get_str_list opt = Ok (match xs with [] => None | _ => Some xs end)) /\
  (forall (fallback : float) (xs : list float),
     let opt := option_append_all (option_new_double fallback) (map dbl_val xs) in
     option_get_double opt = Ok (List.last xs fallback) /\
     option_get_double_list opt = Ok (match xs with [] => None | _ => Some xs end)) /\
  (forall parser (names : string) (fallback : Z) (w : string)
          (args : list string) parser' calls,
     map_ok (option_map parser) -> vec_ok (option_vec parser) ->
     In w (strtok names) ->
     ap_parse_array strtod (ap_int_opt parser names fallback) args
       = Ok (parser', calls) ->
     exists xs : list Z,
       ap_get_opt parser' w
         = Ok (option_append_all (option_new_int fallback) (map int_val xs)) /\
       ap_count parser' w = Ok (Z.of_nat (length xs)) /\
       ap_int_value parser' w = Ok (List.last xs fallback) /\
       ap_int_values parser' w
         = Ok (match xs with [] => None | _ => Some xs end)).
Proof.
  destruct (accessors_of_history strtod) as (Hint & Hstr & Hdbl & Hany).
  split_and!; [| | | | | |exact Hint|exact Hstr|exact Hdbl|exact Hany].
  - intros parser names fallback occs ns Hmap Hvec Hoccs Hns.
    destruct (history_of_run int_val OPT_INT parser names fallback occs ns)
      as (parser' & Hrun & Hopt); [discriminate|exact Hmap|exact Hvec|exact Hoccs| |].
    { eapply Forall2_impl; [exact Hns|]. intros o n. apply sets_value_int. }
    exists parser'. split; [exact Hrun|]. intros w Hw.
    destruct (option_accessors read_int_val int_val OPT_INT fallback ns)
      as (H0 & H1 & H2); [done|].
    unfold ap_count, ap_int_value, ap_int_values. rewrite (Hopt w Hw). cbn [obind].
    split; [by rewrite <- H0|]. split; [exact H1|exact H2].
  - intros parser names fallback occs Hmap Hvec Hoccs texts.
    destruct (history_of_run str_val OPT_STR parser names fallback occs texts)
      as (parser' & Hrun & Hopt); [discriminate|exact Hmap|exact Hvec|exact Hoccs| |].
    { unfold texts. apply Forall2_fmap_r, Forall_Forall2_diag, Forall_forall.
      intros o _. apply sets_value_str. }
    exists parser'. split; [exact Hrun|]. intros w Hw.
    destruct (option_accessors read_str_val str_val OPT_STR fallback texts)
      as (H0 & H1 & H2); [done|].
    unfold ap_count, ap_str_value, ap_str_values. rewrite (Hopt w Hw). cbn [obind].
    split; [by rewrite <- H0|]. split; [exact H1|exact H2].
  - intros parser names fallback occs ds Hmap Hvec Hoccs Hds.
    destruct (history_of_run dbl_val OPT_DBL parser names fallback occs ds)
      as (parser' & Hrun & Hopt); [discriminate|exact Hmap|exact Hvec|exact Hoccs| |].
    { eapply Forall2_impl; [exact Hds|]. intros o d. apply sets_value_dbl. }
    exists parser'. split; [exact Hrun|]. intros w Hw.
    destruct (option_accessors read_dbl_val dbl_val OPT_DBL fallback ds)
      as (H0 & H1 & H2); [done|].
    unfold ap_count, ap_dbl_value, ap_dbl_values. rewrite (Hopt w Hw). cbn [obind].
    split; [by rewrite <- H0|]. split; [exact H1|exact H2].
  - intros parser names fallback occs ns rest parser' calls Hmap Hvec Hoccs Hns Hrun.
    destruct (history_before_rest int_val OPT_INT parser names fallback occs ns rest
                parser' calls) as (vs' & Hvs' & Hopt);
      [discriminate|exact Hmap|exact Hvec|exact Hoccs| |exact Hrun|].
    { eapply Forall2_impl; [exact Hns|]. intros o n. apply sets_value_int. }
    apply values_of_type_int in Hvs' as [more ->]. exists more. intros w Hw.
    destruct (option_accessors read_int_val int_val OPT_INT fallback (ns ++ more))
      as (H0 & H1 & H2); [done|].
    rewrite map_app in H0, H1, H2.
    unfold ap_count, ap_int_value, ap_int_values. rewrite (Hopt w Hw). cbn [obind].
    split; [by rewrite <- H0|]. split; [exact H1|exact H2].
  - intros parser names fallback occs rest parser' calls Hmap Hvec Hoccs Hrun texts.
    destruct (history_before_rest str_val OPT_STR parser names fallback occs texts
                rest parser' calls) as (vs' & Hvs' & Hopt);
      [discriminate|exact Hmap|exact Hvec|exact Hoccs| |exact Hrun|].
    { unfold texts. apply Forall2_fmap_r, Forall_Forall2_diag, Forall_forall.
      intros o _. apply sets_value_str. }
    apply values_of_type_str in Hvs' as [more ->]. exists more. intros w Hw.
    destruct (option_accessors read_str_val str_val OPT_STR fallback (texts ++ more))
      as (H0 & H1 & H2); [done|].
    rewrite map_app in H0, H1, H2.
    unfold ap_count, ap_str_value, ap_str_values. rewrite (Hopt w Hw). cbn [obind].
    split; [by rewrite <- H0|]. split; [exact H1|exact H2].
  - intros parser names fallback occs ds rest parser' calls Hmap Hvec Hoccs Hds Hrun.
    destruct (history_before_rest dbl_val OPT_DBL parser names fallback occs ds rest
                parser' calls) as (vs' & Hvs' & Hopt);
      [discriminate|exact Hmap|exact Hvec|exact Hoccs| |exact Hrun|].
    { eapply Forall2_impl; [exact Hds|]. intros o d. apply sets_value_dbl. }
    apply values_of_type_dbl in Hvs' as [more ->]. exists more. intros w Hw.
    destruct (option_accessors read_dbl_val dbl_val OPT_DBL fallback (ds ++ more))
      as (H0 & H1 & H2); [done|].
    rewrite map_app in H0, H1, H2.
    unfold ap_count, ap_dbl_value, ap_dbl_values. rewrite (Hopt w Hw). cbn [obind].
    split; [by rewrite <- H0|]. split; [exact H1|exact H2].
Qed.

End history.

Lemma option_get_last_and_history_witness :
  let parser := ap_int_opt ap_new "n" 0 in
  let args := ["-n"; "5"; "-n"; "7"]%string in
  exists parser',
    ap_parse_array strtod_none parser args = Ok (parser', []) /\
    ap_int_values parser' "n" = Ok (Some [5; 7]) /\
    ap_int_value parser' "n" = Ok 7 /\
    ap_count parser' "n" = Ok 2.
Proof.
  intros parser args.
  pose (occs := [short_value "n" "5"; short_value "n" "7"]).
  assert (map_ok (option_map ap_new)) as H1 by apply map_new_ok.
  assert (vec_ok (option_vec ap_new)) as H2 by apply vec_new_ok.
  assert (Forall (occ_ok "n") occs) as H3.
  { repeat constructor; try discriminate. }
  assert (Forall2 (fun o n => try_str_to_int (occ_text o) = Ok n) occs [5; 7]) as H4.
  { repeat constructor. }
  destruct (proj1 (option_get_last_and_history strtod_none) ap_new "n"%string 0
              occs [5; 7] H1 H2 H3 H4) as (parser' & Hrun & Hvalues).
  exists parser'. split; [exact Hrun|].
  destruct (Hvalues "n"%string (or_introl eq_refl)) as (Hcount & Hvalue & Hlist).
  split; [exact Hlist|]. split; [exact Hvalue|exact Hcount].
Defined.
